(** * App Platform spec mapping of the DigitalOcean Terraform provider

    A shallow embedding of [digitalocean/app_spec.go] (the schema
    declarations and the expand/flatten functions between Terraform's dynamic
    attribute maps and the godo structs) and of the bucket sweeper and
    the check functions of
    [digitalocean/resource_digitalocean_spaces_bucket_object_test.go].

    Go's [interface{}] values are an inductive type of dynamically typed
    values, [map[string]interface{}] is a [gmap string value], a type
    assertion [x.(T)] is a function into an error monad whose failure is a Go
    panic, pointers are options and slices are optional lists (nil or a
    list). *)

From Stdlib Require Import ZArith NArith.
From stdpp Require Import gmap strings list fin_maps sorting pretty.

#[local] Set Warnings "-register-all".
#[local] Open Scope Z_scope.

(** ** Panics and the error monad *)

(** The run-time panics the mapping code can raise. *)
Inductive panic :=
  | NilDereference      (* field access through a nil pointer *)
  | TypeAssertion       (* x.(T) on a value whose dynamic type is not T *)
  | IndexOutOfRange.    (* s[i] with i >= len(s) *)

Inductive result (A : Type) :=
  | Ok (a : A)
  | Panic (p : panic).
Arguments Ok {A} a.
Arguments Panic {A} p.

#[global] Instance result_ret : MRet result := λ A x, Ok x.
#[global] Instance result_bind : MBind result := λ A B f r,
  match r with
  | Ok a => f a
  | Panic p => Panic p
  end.
#[global] Instance result_fmap : FMap result := λ A B f r,
  match r with
  | Ok a => Ok (f a)
  | Panic p => Panic p
  end.

(** [for _, x := range l { y := f x; out = append(out, y) }] *)
Fixpoint mapM {A B} (f : A → result B) (l : list A) : result (list B) :=
  match l with
  | [] => Ok []
  | x :: l' => y ← f x; ys ← mapM f l'; Ok (y :: ys)
  end.

(** [for _, x := range l { acc = f acc x }] *)
Fixpoint foldM {A St} (f : St → A → result St) (l : list A) (acc : St)
    : result St :=
  match l with
  | [] => Ok acc
  | x :: l' => acc' ← f acc x; foldM f l' acc'
  end.

(** [for i, x := range l { acc = f acc i x }], from index [i] on. *)
Fixpoint foldM_from {A St} (f : St → nat → A → result St)
    (i : nat) (l : list A) (acc : St) : result St :=
  match l with
  | [] => Ok acc
  | x :: l' => acc' ← f acc i x; foldM_from f (S i) l' acc'
  end.

Definition is_ok {A} (r : result A) : bool :=
  match r with Ok _ => true | Panic _ => false end.

(** ** Pointers and slices *)

(** A Go pointer [*T]: [None] is nil. *)
Definition ptr (A : Type) : Type := option A.

(** A Go slice [[]T]: [None] is the nil slice. *)
Definition slice (A : Type) : Type := option (list A).

Definition deref {A} (p : ptr A) : result A :=
  match p with
  | Some a => Ok a
  | None => Panic NilDereference
  end.

(** The elements a [range] loop visits; nil ranges over nothing. *)
Definition elems {A} (s : slice A) : list A := default [] s.

Definition len {A} (s : slice A) : nat := length (elems s).

(** ** Integers *)

(** Two's complement wrap-around to [bits] bits. *)
Definition wrap (bits z : Z) : Z :=
  (z + 2 ^ (bits - 1)) mod 2 ^ bits - 2 ^ (bits - 1).

(** Go's [int] is 64 bits wide on the platforms the provider is built for. *)
Definition intBits : Z := 64.

(** The conversions [int(x)] of an [int64] and [int64(x)] of an [int]. *)
Definition int (z : Z) : Z := wrap intBits z.
Definition int64 (z : Z) : Z := wrap 64 z.

Definition in_int64 (z : Z) : Prop := - 2 ^ 63 ≤ z < 2 ^ 63.

(** ** Dynamically typed values *)

(** Scalars held by the maps inside a [*schema.Set]. *)
Inductive prim :=
  | PString (s : string)
  | PInt (n : Z)
  | PBool (b : bool).

(** The elements of a [*schema.Set] of this schema: strings (the "domains"
    set) or flat resource maps (the "env" set). *)
Inductive selem :=
  | EString (s : string)
  | EMap (m : gmap string prim).

#[global] Instance prim_eq_dec : EqDecision prim.
Proof. solve_decision. Defined.

#[global] Instance prim_countable : Countable prim.
Proof.
  refine (inj_countable'
    (λ p, match p with
          | PString s => inl s
          | PInt n => inr (inl n)
          | PBool b => inr (inr b)
          end)
    (λ x, match x with
          | inl s => PString s
          | inr (inl n) => PInt n
          | inr (inr b) => PBool b
          end) _).
  by intros [].
Defined.

#[global] Instance selem_eq_dec : EqDecision selem.
Proof. solve_decision. Defined.

#[global] Instance selem_countable : Countable selem.
Proof.
  refine (inj_countable'
    (λ e, match e with EString s => inl s | EMap m => inr m end)
    (λ x, match x with inl s => EString s | inr m => EMap m end) _).
  by intros [].
Defined.

(** A Go value of static type [interface{}], tagged with its dynamic type. *)
Inductive value :=
  | VNil                                        (* the nil interface *)
  | VString (s : string)                        (* string *)
  | VInt (n : Z)                                (* int *)
  | VBool (b : bool)                            (* bool *)
  | VEngine (s : string)                        (* godo.AppDatabaseSpecEngine *)
  | VList (l : list value)                      (* []interface{} *)
  | VMap (m : gmap string value)                (* map[string]interface{} *)
  | VMapList (l : list (gmap string value))     (* []map[string]interface{} *)
  | VSet (s : gset selem).                      (* *schema.Set *)

Definition prim_value (p : prim) : value :=
  match p with
  | PString s => VString s
  | PInt n => VInt n
  | PBool b => VBool b
  end.

Definition selem_value (e : selem) : value :=
  match e with
  | EString s => VString s
  | EMap m => VMap (prim_value <$> m)
  end.

(** [m[k]]: a missing key reads as the nil interface. *)
Definition index (m : gmap string value) (k : string) : value :=
  default VNil (m !! k).

(** Type assertions [v.(T)], one per asserted type. *)
Definition as_string (v : value) : result string :=
  match v with VString s => Ok s | _ => Panic TypeAssertion end.
Definition as_int (v : value) : result Z :=
  match v with VInt n => Ok n | _ => Panic TypeAssertion end.
Definition as_bool (v : value) : result bool :=
  match v with VBool b => Ok b | _ => Panic TypeAssertion end.
Definition as_list (v : value) : result (list value) :=
  match v with VList l => Ok l | _ => Panic TypeAssertion end.
Definition as_map (v : value) : result (gmap string value) :=
  match v with VMap m => Ok m | _ => Panic TypeAssertion end.
Definition as_set (v : value) : result (gset selem) :=
  match v with VSet s => Ok s | _ => Panic TypeAssertion end.

(** [config[0]] on a [[]interface{}]. *)
Definition first (config : list value) : result value :=
  match config with
  | v :: _ => Ok v
  | [] => Panic IndexOutOfRange
  end.

(** ** Schema declarations *)

Inductive ValueType :=
  | TypeInvalid | TypeBool | TypeInt | TypeFloat | TypeString
  | TypeList | TypeMap | TypeSet.

(** [schema.Schema], with the fields the declarations set; [Elem] is either
    a [*schema.Schema] or a [*schema.Resource]. *)
Inductive Schema :=
  | mkSchema (type : ValueType) (optional required : bool)
      (default : option string) (description : string) (computed : bool)
      (elem : SchemaElem) (maxItems minItems : Z) (set : SchemaSetFunc)
      (validateFunc : SchemaValidateFunc)
with SchemaElem :=
  | NoElem
  | ElemSchema (s : Schema)
  | ElemResource (r : Resource)
with Resource :=
  | mkResource (schema : gmap string Schema)
with SchemaSetFunc :=
  | NoSetFunc
  | HashResource (r : Resource)
with SchemaValidateFunc :=
  | NoValidateFunc
  | StringInSlice (valid : list string) (ignoreCase : bool).

Definition Type_ (s : Schema) : ValueType :=
  let 'mkSchema x _ _ _ _ _ _ _ _ _ _ := s in x.
Definition Optional (s : Schema) : bool :=
  let 'mkSchema _ x _ _ _ _ _ _ _ _ _ := s in x.
Definition Required (s : Schema) : bool :=
  let 'mkSchema _ _ x _ _ _ _ _ _ _ _ := s in x.
Definition Default (s : Schema) : option string :=
  let 'mkSchema _ _ _ x _ _ _ _ _ _ _ := s in x.
Definition Description (s : Schema) : string :=
  let 'mkSchema _ _ _ _ x _ _ _ _ _ _ := s in x.
Definition Computed (s : Schema) : bool :=
  let 'mkSchema _ _ _ _ _ x _ _ _ _ _ := s in x.
Definition Elem (s : Schema) : SchemaElem :=
  let 'mkSchema _ _ _ _ _ _ x _ _ _ _ := s in x.
Definition MaxItems (s : Schema) : Z :=
  let 'mkSchema _ _ _ _ _ _ _ x _ _ _ := s in x.
Definition MinItems (s : Schema) : Z :=
  let 'mkSchema _ _ _ _ _ _ _ _ x _ _ := s in x.
Definition SetFunc (s : Schema) : SchemaSetFunc :=
  let 'mkSchema _ _ _ _ _ _ _ _ _ x _ := s in x.
Definition ValidateFunc (s : Schema) : SchemaValidateFunc :=
  let 'mkSchema _ _ _ _ _ _ _ _ _ _ x := s in x.
Definition Schema_ (r : Resource) : gmap string Schema :=
  let 'mkResource x := r in x.

(** A schema literal that sets [Type] only. *)
Definition schema_of (t : ValueType) : Schema :=
  mkSchema t false false None "" false NoElem 0 0 NoSetFunc NoValidateFunc.

Definition optional (s : Schema) : Schema :=
  mkSchema (Type_ s) true (Required s) (Default s) (Description s)
    (Computed s) (Elem s) (MaxItems s) (MinItems s) (SetFunc s) (ValidateFunc s).
Definition required (s : Schema) : Schema :=
  mkSchema (Type_ s) (Optional s) true (Default s) (Description s)
    (Computed s) (Elem s) (MaxItems s) (MinItems s) (SetFunc s) (ValidateFunc s).
Definition default_ (d : string) (s : Schema) : Schema :=
  mkSchema (Type_ s) (Optional s) (Required s) (Some d) (Description s)
    (Computed s) (Elem s) (MaxItems s) (MinItems s) (SetFunc s) (ValidateFunc s).
Definition description (d : string) (s : Schema) : Schema :=
  mkSchema (Type_ s) (Optional s) (Required s) (Default s) d
    (Computed s) (Elem s) (MaxItems s) (MinItems s) (SetFunc s) (ValidateFunc s).
Definition computed (s : Schema) : Schema :=
  mkSchema (Type_ s) (Optional s) (Required s) (Default s) (Description s)
    true (Elem s) (MaxItems s) (MinItems s) (SetFunc s) (ValidateFunc s).
Definition elem (e : SchemaElem) (s : Schema) : Schema :=
  mkSchema (Type_ s) (Optional s) (Required s) (Default s) (Description s)
    (Computed s) e (MaxItems s) (MinItems s) (SetFunc s) (ValidateFunc s).
Definition maxItems (n : Z) (s : Schema) : Schema :=
  mkSchema (Type_ s) (Optional s) (Required s) (Default s) (Description s)
    (Computed s) (Elem s) n (MinItems s) (SetFunc s) (ValidateFunc s).
Definition minItems (n : Z) (s : Schema) : Schema :=
  mkSchema (Type_ s) (Optional s) (Required s) (Default s) (Description s)
    (Computed s) (Elem s) (MaxItems s) n (SetFunc s) (ValidateFunc s).
Definition set_ (f : SchemaSetFunc) (s : Schema) : Schema :=
  mkSchema (Type_ s) (Optional s) (Required s) (Default s) (Description s)
    (Computed s) (Elem s) (MaxItems s) (MinItems s) f (ValidateFunc s).
Definition validateFunc (f : SchemaValidateFunc) (s : Schema) : Schema :=
  mkSchema (Type_ s) (Optional s) (Required s) (Default s) (Description s)
    (Computed s) (Elem s) (MaxItems s) (MinItems s) (SetFunc s) f.

(** [for k, v := range src { dst[k] = v }] *)
Definition copy_into (src dst : gmap string Schema) : gmap string Schema :=
  map_fold (λ k v dst, <[k := v]> dst) dst src.

Definition appSpecGitSourceSchema : gmap string Schema :=
  {[ "repo_clone_url" := optional (schema_of TypeString);
     "branch" := optional (schema_of TypeString) ]}.

Definition appSpecGitHubSourceSchema : gmap string Schema :=
  {[ "repo" := optional (schema_of TypeString);
     "branch" := optional (schema_of TypeString);
     "deploy_on_push" := optional (schema_of TypeBool) ]}.

Definition appSpecEnvSchema : Resource :=
  mkResource
    {[ "key" := optional (schema_of TypeString);
       "value" := optional (schema_of TypeString);
       "scope" :=
         validateFunc
           (StringInSlice
              ["UNSET"; "RUN_TIME"; "BUILD_TIME"; "RUN_AND_BUILD_TIME"] false)
           (default_ "RUN_AND_BUILD_TIME" (optional (schema_of TypeString)));
       "type" :=
         validateFunc (StringInSlice ["GENERAL"; "SECRET"] false)
           (default_ "GENERAL" (optional (schema_of TypeString))) ]}.

Definition appSpecRouteSchema : gmap string Schema :=
  {[ "path" :=
       description "Path specifies an route by HTTP path prefix. Paths must start with / and must be unique within the app."
         (optional (schema_of TypeString)) ]}.

Definition appSpecHealthCheckSchema : gmap string Schema :=
  {[ "path" :=
       description "Path is the route path used for the HTTP health check ping."
         (optional (schema_of TypeString)) ]}.

Definition appSpecComponentBase : gmap string Schema :=
  {[ "name" :=
       description "The name of the component"
         (required (schema_of TypeString));
     "git" :=
       elem (ElemResource (mkResource appSpecGitSourceSchema))
         (maxItems 1 (optional (schema_of TypeList)));
     "github" :=
       elem (ElemResource (mkResource appSpecGitHubSourceSchema))
         (maxItems 1 (optional (schema_of TypeList)));
     "dockerfile_path" := optional (schema_of TypeString);
     "build_command" := optional (schema_of TypeString);
     "env" :=
       set_ (HashResource appSpecEnvSchema)
         (elem (ElemResource appSpecEnvSchema)
            (optional (schema_of TypeSet)));
     "routes" :=
       elem (ElemResource (mkResource appSpecRouteSchema))
         (maxItems 1 (computed (optional (schema_of TypeList))));
     "source_dir" := optional (schema_of TypeString);
     "environment_slug" := optional (schema_of TypeString) ]}.

(** The literal [serviceSchema] starts from, before the base is copied in. *)
Definition serviceSchema : gmap string Schema :=
  {[ "run_command" := optional (schema_of TypeString);
     "http_port" := optional (schema_of TypeInt);
     "instance_size_slug" := optional (schema_of TypeString);
     "instance_count" := optional (schema_of TypeInt);
     "health_check" :=
       elem (ElemResource (mkResource appSpecHealthCheckSchema))
         (maxItems 1 (optional (schema_of TypeList))) ]}.

Definition appSpecServicesSchema : Resource :=
  let serviceSchema := copy_into appSpecComponentBase serviceSchema in
  mkResource serviceSchema.

(** The literal [staticSiteSchema] starts from. *)
Definition staticSiteSchema : gmap string Schema :=
  {[ "output_dir" :=
       description "An optional path to where the built assets will be located, relative to the build context. If not set, App Platform will automatically scan for these directory names: `_static`, `dist`, `public`."
         (optional (schema_of TypeString));
     "index_document" := optional (schema_of TypeString);
     "error_document" := optional (schema_of TypeString) ]}.

Definition appSpecStaticSiteSchema : Resource :=
  let staticSiteSchema := copy_into appSpecComponentBase staticSiteSchema in
  mkResource staticSiteSchema.

(** The literal [workerSchema] starts from. *)
Definition workerSchema : gmap string Schema :=
  {[ "run_command" := optional (schema_of TypeString);
     "instance_size_slug" := optional (schema_of TypeString);
     "instance_count" := optional (schema_of TypeInt) ]}.

Definition appSpecWorkerSchema : Resource :=
  let workerSchema := copy_into appSpecComponentBase workerSchema in
  mkResource workerSchema.

Definition appSpecDatabaseSchema : Resource :=
  mkResource
    {[ "name" := optional (schema_of TypeString);
       "engine" :=
         validateFunc (StringInSlice ["UNSET"; "MYSQL"; "PG"; "REDIS"] false)
           (optional (schema_of TypeString));
       "version" := optional (schema_of TypeString);
       "production" := optional (schema_of TypeBool);
       "cluster_name" := optional (schema_of TypeString);
       "db_name" := optional (schema_of TypeString);
       "db_user" := optional (schema_of TypeString) ]}.

Definition appSpecSchema : gmap string Schema :=
  {[ "name" :=
       description "The name of the app" (required (schema_of TypeString));
     "region" :=
       description "The slug for the DigitalOcean data center region hosting the app"
         (optional (schema_of TypeString));
     "domains" :=
       elem (ElemSchema (schema_of TypeString)) (optional (schema_of TypeSet));
     "service" :=
       elem (ElemResource appSpecServicesSchema)
         (minItems 1 (optional (schema_of TypeList)));
     "static_site" :=
       elem (ElemResource appSpecStaticSiteSchema)
         (optional (schema_of TypeList));
     "worker" :=
       elem (ElemResource appSpecWorkerSchema) (optional (schema_of TypeList));
     "database" :=
       elem (ElemResource appSpecDatabaseSchema)
         (optional (schema_of TypeList)) ]}.

(** The strings a [validation.StringInSlice] declares valid. *)
Definition declared (f : SchemaValidateFunc) : list string :=
  match f with
  | NoValidateFunc => []
  | StringInSlice valid _ => valid
  end.

(** ** Hash codes of set items

    The functions of Go's [hash/crc32] and of the plugin SDK that decide
    which items a [*schema.Set] keeps.  They are library code, outside the
    two files; they are written out here from their definitions. *)

(** The order of Go's strings: bytewise lexicographic. *)
Definition string_le (a b : string) : Prop := String.leb a b = true.

#[global] Instance string_le_dec a b : Decision (string_le a b).
Proof. unfold string_le. apply _. Defined.

(** [crc32.ChecksumIEEE]: CRC-32 with the reflected polynomial
    [0xedb88320], bit by bit; the state is a [uint32]. *)
Definition crc32_poly : N := 0xedb88320%N.

Definition crc32_bit (c : N) : N :=
  if N.odd c then N.lxor (N.shiftr c 1) crc32_poly else N.shiftr c 1.

Definition crc32_byte (c : N) (b : Ascii.ascii) : N :=
  Nat.iter 8 crc32_bit (N.lxor c (Ascii.N_of_ascii b)).

Fixpoint crc32_update (c : N) (s : string) : N :=
  match s with
  | EmptyString => c
  | String b s' => crc32_update (crc32_byte c b) s'
  end.

Definition ChecksumIEEE (s : string) : N :=
  N.lxor (crc32_update 0xffffffff%N s) 0xffffffff%N.

(** [hashcode.String]: the checksum as an [int], made non-negative. *)
Definition hashcode_String (s : string) : Z :=
  let v := int (Z.of_N (ChecksumIEEE s)) in
  if 0 <=? v then v
  else if 0 <=? int (- v) then int (- v)
  else 0.

(** [schema.HashString]: the hash code of the string [v.(string)].  On an
    item that is not a string the assertion panics; the sets hashed with it
    hold strings only. *)
Definition HashString (v : selem) : Z :=
  match v with
  | EString s => hashcode_String s
  | EMap _ => 0
  end.

(** [schema.SerializeValueForHash] on the scalar types; [None] is the nil
    interface. *)
Definition SerializeValueForHash (val : option prim) (s : Schema) : string :=
  match val with
  | None => ";"
  | Some v =>
      match Type_ s, v with
      | TypeBool, PBool b => if b then "1" else "0"
      | TypeInt, PInt n => pretty n
      | TypeString, PString x => x
      | _, _ => ""
      end +:+ ";"
  end.

(** [schema.SerializeResourceForHash]: the attributes the resource declares
    required or optional, in the order of their names, each written as
    [name:value;]. *)
Definition SerializeResourceForHash (m : gmap string prim) (r : Resource)
    : string :=
  foldl (λ buf k,
    match Schema_ r !! k with
    | Some innerSchema =>
        if negb (Required innerSchema || Optional innerSchema) then buf
        else buf +:+ k +:+ ":" +:+ SerializeValueForHash (m !! k) innerSchema
             +:+ ";"
    | None => buf
    end) "" (merge_sort string_le (elements (dom (Schema_ r)))).

(** [schema.HashSchema(s)], the SDK's default for a set of scalars. *)
Definition HashSchema (s : Schema) (v : selem) : Z :=
  match v with
  | EString x => hashcode_String (SerializeValueForHash (Some (PString x)) s)
  | EMap _ => 0
  end.

(** The function a [SchemaSetFunc] stands for: [schema.HashResource(r)]
    hashes the serialised resource. *)
Definition SetFunc_hash (f : SchemaSetFunc) (v : selem) : Z :=
  match f, v with
  | HashResource r, EMap m => hashcode_String (SerializeResourceForHash m r)
  | _, _ => 0
  end.

(** The hash function of the sets of a schema: its [Set], or by default
    the hash of its [Elem] ([Schema.ZeroValue]). *)
Definition set_hash (s : Schema) : selem → Z :=
  match SetFunc s with
  | HashResource r => SetFunc_hash (HashResource r)
  | NoSetFunc =>
      match Elem s with
      | ElemSchema e => HashSchema e
      | ElemResource r => SetFunc_hash (HashResource r)
      | NoElem => λ _, 0
      end
  end.

(** *** [*schema.Set]

    The SDK's set is a map from hash codes to items: [Add] computes the
    code of the item with the set's function [F] and stores the item unless
    the code is taken, so the set keeps the first item of every code.  The
    model keeps the items; the function [F] of the set, fixed by [NewSet],
    is handed to [Add].  [List] gives the items without duplicates, in an
    order fixed by the set alone. *)
Module Set_.
(** [Set.hash]: the code, negated when negative (the map key is its decimal
    text). *)
Definition code (F : selem → Z) (item : selem) : Z :=
  let c := F item in if c <? 0 then int (- c) else c.
Definition New (F : selem → Z) : gset selem := ∅.
Definition Add (F : selem → Z) (item : selem) (s : gset selem) : gset selem :=
  if existsb (λ x, code F x =? code F item) (elements s) then s
  else {[ item ]} ∪ s.
Definition List (s : gset selem) : list value := selem_value <$> elements s.
End Set_.

(** A set as the SDK builds it with the function [F]: no two items with the
    same code. *)
Definition one_per_code (F : selem → Z) (st : gset selem) : Prop :=
  ∀ x y, x ∈ st → y ∈ st → Set_.code F x = Set_.code F y → x = y.

(** ** The godo structs

    Only the fields the mapping code reads or writes. *)

Module AppDomainSpec.
Record t := mk { Domain : string }.
End AppDomainSpec.

Module GitHubSourceSpec.
Record t := mk { Repo : string; Branch : string; DeployOnPush : bool }.
End GitHubSourceSpec.

Module GitSourceSpec.
Record t := mk { RepoCloneURL : string; Branch : string }.
End GitSourceSpec.

Module AppVariableDefinition.
(** [Scope] is a [godo.AppVariableScope] and [Type_] a
    [godo.AppVariableType], both string types. *)
Record t := mk { Value : string; Scope : string; Key : string; Type_ : string }.
End AppVariableDefinition.

Module AppRouteSpec.
Record t := mk { Path : string }.
End AppRouteSpec.

Module AppServiceSpecHealthCheck.
Record t := mk { Path : string }.
End AppServiceSpecHealthCheck.

Module AppServiceSpec.
Record t := mk {
  Name : string;
  RunCommand : string;
  BuildCommand : string;
  HTTPPort : Z;
  DockerfilePath : string;
  Envs : slice (ptr AppVariableDefinition.t);
  InstanceSizeSlug : string;
  InstanceCount : Z;
  SourceDir : string;
  EnvironmentSlug : string;
  GitHub : ptr GitHubSourceSpec.t;
  Git : ptr GitSourceSpec.t;
  Routes : slice (ptr AppRouteSpec.t);
  HealthCheck : ptr AppServiceSpecHealthCheck.t;
}.
Definition with_GitHub (x : ptr GitHubSourceSpec.t) (s : t) : t :=
  mk (Name s) (RunCommand s) (BuildCommand s) (HTTPPort s) (DockerfilePath s)
     (Envs s) (InstanceSizeSlug s) (InstanceCount s) (SourceDir s)
     (EnvironmentSlug s) x (Git s) (Routes s) (HealthCheck s).
Definition with_Git (x : ptr GitSourceSpec.t) (s : t) : t :=
  mk (Name s) (RunCommand s) (BuildCommand s) (HTTPPort s) (DockerfilePath s)
     (Envs s) (InstanceSizeSlug s) (InstanceCount s) (SourceDir s)
     (EnvironmentSlug s) (GitHub s) x (Routes s) (HealthCheck s).
Definition with_Routes (x : slice (ptr AppRouteSpec.t)) (s : t) : t :=
  mk (Name s) (RunCommand s) (BuildCommand s) (HTTPPort s) (DockerfilePath s)
     (Envs s) (InstanceSizeSlug s) (InstanceCount s) (SourceDir s)
     (EnvironmentSlug s) (GitHub s) (Git s) x (HealthCheck s).
Definition with_HealthCheck (x : ptr AppServiceSpecHealthCheck.t) (s : t) : t :=
  mk (Name s) (RunCommand s) (BuildCommand s) (HTTPPort s) (DockerfilePath s)
     (Envs s) (InstanceSizeSlug s) (InstanceCount s) (SourceDir s)
     (EnvironmentSlug s) (GitHub s) (Git s) (Routes s) x.
End AppServiceSpec.

Module AppStaticSiteSpec.
Record t := mk {
  Name : string;
  BuildCommand : string;
  DockerfilePath : string;
  Envs : slice (ptr AppVariableDefinition.t);
  SourceDir : string;
  OutputDir : string;
  IndexDocument : string;
  ErrorDocument : string;
  EnvironmentSlug : string;
  GitHub : ptr GitHubSourceSpec.t;
  Git : ptr GitSourceSpec.t;
  Routes : slice (ptr AppRouteSpec.t);
}.
Definition with_GitHub (x : ptr GitHubSourceSpec.t) (s : t) : t :=
  mk (Name s) (BuildCommand s) (DockerfilePath s) (Envs s) (SourceDir s)
     (OutputDir s) (IndexDocument s) (ErrorDocument s) (EnvironmentSlug s)
     x (Git s) (Routes s).
Definition with_Git (x : ptr GitSourceSpec.t) (s : t) : t :=
  mk (Name s) (BuildCommand s) (DockerfilePath s) (Envs s) (SourceDir s)
     (OutputDir s) (IndexDocument s) (ErrorDocument s) (EnvironmentSlug s)
     (GitHub s) x (Routes s).
Definition with_Routes (x : slice (ptr AppRouteSpec.t)) (s : t) : t :=
  mk (Name s) (BuildCommand s) (DockerfilePath s) (Envs s) (SourceDir s)
     (OutputDir s) (IndexDocument s) (ErrorDocument s) (EnvironmentSlug s)
     (GitHub s) (Git s) x.
End AppStaticSiteSpec.

Module AppWorkerSpec.
Record t := mk {
  Name : string;
  RunCommand : string;
  BuildCommand : string;
  DockerfilePath : string;
  Envs : slice (ptr AppVariableDefinition.t);
  InstanceSizeSlug : string;
  InstanceCount : Z;
  SourceDir : string;
  EnvironmentSlug : string;
  GitHub : ptr GitHubSourceSpec.t;
  Git : ptr GitSourceSpec.t;
}.
Definition with_GitHub (x : ptr GitHubSourceSpec.t) (s : t) : t :=
  mk (Name s) (RunCommand s) (BuildCommand s) (DockerfilePath s) (Envs s)
     (InstanceSizeSlug s) (InstanceCount s) (SourceDir s) (EnvironmentSlug s)
     x (Git s).
Definition with_Git (x : ptr GitSourceSpec.t) (s : t) : t :=
  mk (Name s) (RunCommand s) (BuildCommand s) (DockerfilePath s) (Envs s)
     (InstanceSizeSlug s) (InstanceCount s) (SourceDir s) (EnvironmentSlug s)
     (GitHub s) x.
End AppWorkerSpec.

Module AppDatabaseSpec.
(** [Engine] is a [godo.AppDatabaseSpecEngine], a string type. *)
Record t := mk {
  Name : string;
  Engine : string;
  Version : string;
  Production : bool;
  ClusterName : string;
  DBName : string;
  DBUser : string;
}.
End AppDatabaseSpec.

Module AppSpec.
Record t := mk {
  Name : string;
  Region : string;
  Domains : slice (ptr AppDomainSpec.t);
  Services : slice (ptr AppServiceSpec.t);
  StaticSites : slice (ptr AppStaticSiteSpec.t);
  Workers : slice (ptr AppWorkerSpec.t);
  Databases : slice (ptr AppDatabaseSpec.t);
}.
(** [godo.AppSpec{}] *)
Definition zero : t := mk "" "" None None None None None.
End AppSpec.

(** ** Expand and flatten: the nested blocks *)

Definition expandAppDomainSpec (config : list value)
    : result (slice (ptr AppDomainSpec.t)) :=
  appDomains ← mapM (λ rawDomain,
    d ← as_string rawDomain;
    Ok (Some (AppDomainSpec.mk d))) config;
  Ok (Some appDomains).

Definition flattenAppDomainSpec (spec : slice (ptr AppDomainSpec.t))
    : result (gset selem) :=
  let result := Set_.New HashString in
  match spec with
  | Some l =>
      foldM (λ result domain,
        d ← deref domain;
        Ok (Set_.Add HashString (EString (AppDomainSpec.Domain d)) result))
        l result
  | None => Ok result
  end.

Definition expandAppGitHubSourceSpec (config : list value)
    : result (ptr GitHubSourceSpec.t) :=
  c0 ← first config;
  gitHubSourceConfig ← as_map c0;
  repo ← as_string (index gitHubSourceConfig "repo");
  branch ← as_string (index gitHubSourceConfig "branch");
  deployOnPush ← as_bool (index gitHubSourceConfig "deploy_on_push");
  Ok (Some (GitHubSourceSpec.mk repo branch deployOnPush)).

Definition flattenAppGitHubSourceSpec (spec : ptr GitHubSourceSpec.t)
    : list value :=
  let result := [] in
  match spec with
  | Some spec =>
      let r : gmap string value := ∅ in
      let r := <["repo" := VString (GitHubSourceSpec.Repo spec)]> r in
      let r := <["branch" := VString (GitHubSourceSpec.Branch spec)]> r in
      let r := <["deploy_on_push" := VBool (GitHubSourceSpec.DeployOnPush spec)]> r in
      result ++ [VMap r]
  | None => result
  end.

Definition expandAppGitSourceSpec (config : list value)
    : result (ptr GitSourceSpec.t) :=
  c0 ← first config;
  gitSourceConfig ← as_map c0;
  branch ← as_string (index gitSourceConfig "branch");
  repoCloneURL ← as_string (index gitSourceConfig "repo_clone_url");
  Ok (Some (GitSourceSpec.mk repoCloneURL branch)).

Definition flattenAppGitSourceSpec (spec : ptr GitSourceSpec.t) : list value :=
  let result := [] in
  match spec with
  | Some spec =>
      let r : gmap string value := ∅ in
      let r := <["branch" := VString (GitSourceSpec.Branch spec)]> r in
      let r := <["repo_clone_url" := VString (GitSourceSpec.RepoCloneURL spec)]> r in
      result ++ [VMap r]
  | None => result
  end.

Definition expandAppEnvs (config : list value)
    : result (slice (ptr AppVariableDefinition.t)) :=
  appEnvs ← mapM (λ rawEnv,
    env ← as_map rawEnv;
    value ← as_string (index env "value");
    scope ← as_string (index env "scope");
    key ← as_string (index env "key");
    type ← as_string (index env "type");
    Ok (Some (AppVariableDefinition.mk value scope key type))) config;
  Ok (Some appEnvs).

Definition flattenAppEnvs (appEnvs : slice (ptr AppVariableDefinition.t))
    : result (gset selem) :=
  let result := Set_.New (SetFunc_hash (HashResource appSpecEnvSchema)) in
  match appEnvs with
  | Some l =>
      foldM (λ result env,
        env ← deref env;
        let r : gmap string prim := ∅ in
        let r := <["value" := PString (AppVariableDefinition.Value env)]> r in
        let r := <["scope" := PString (AppVariableDefinition.Scope env)]> r in
        let r := <["key" := PString (AppVariableDefinition.Key env)]> r in
        let r := <["type" := PString (AppVariableDefinition.Type_ env)]> r in
        Ok (Set_.Add (SetFunc_hash (HashResource appSpecEnvSchema)) (EMap r)
              result)) l result
  | None => Ok result
  end.

Definition expandAppHealthCheck (config : list value)
    : result (ptr AppServiceSpecHealthCheck.t) :=
  c0 ← first config;
  healthCheckConfig ← as_map c0;
  path ← as_string (index healthCheckConfig "path");
  Ok (Some (AppServiceSpecHealthCheck.mk path)).

Definition flattenAppHealthCheck (check : ptr AppServiceSpecHealthCheck.t)
    : list value :=
  let result := [] in
  match check with
  | Some check =>
      let r : gmap string value := ∅ in
      let r := <["path" := VString (AppServiceSpecHealthCheck.Path check)]> r in
      result ++ [VMap r]
  | None => result
  end.

Definition expandAppRoutes (config : list value)
    : result (slice (ptr AppRouteSpec.t)) :=
  appRoutes ← mapM (λ rawRoute,
    route ← as_map rawRoute;
    path ← as_string (index route "path");
    Ok (Some (AppRouteSpec.mk path))) config;
  Ok (Some appRoutes).

Definition flattenAppRoutes (routes : slice (ptr AppRouteSpec.t))
    : result (list value) :=
  let result := [] in
  match routes with
  | Some l =>
      foldM (λ result route,
        route ← deref route;
        let r : gmap string value := ∅ in
        let r := <["path" := VString (AppRouteSpec.Path route)]> r in
        Ok (result ++ [VMap r])) l result
  | None => Ok result
  end.

(** ** Expand and flatten: the components *)

(** The body of the loop of [expandAppSpecServices], for one [rawService]. *)
Definition expandAppSpecServices_item (rawService : value) : result (ptr AppServiceSpec.t) :=
  service ← as_map rawService;
  name ← as_string (index service "name");
  runCommand ← as_string (index service "run_command");
  buildCommand ← as_string (index service "build_command");
  httpPort ← as_int (index service "http_port");
  dockerfilePath ← as_string (index service "dockerfile_path");
  envSet ← as_set (index service "env");
  envs ← expandAppEnvs (Set_.List envSet);
  instanceSizeSlug ← as_string (index service "instance_size_slug");
  instanceCount ← as_int (index service "instance_count");
  sourceDir ← as_string (index service "source_dir");
  environmentSlug ← as_string (index service "environment_slug");
  let s := AppServiceSpec.mk name runCommand buildCommand (int64 httpPort)
             dockerfilePath envs instanceSizeSlug (int64 instanceCount)
             sourceDir environmentSlug None None None None in
  github ← as_list (index service "github");
  s ← (if (0 <? length github)%nat
       then x ← expandAppGitHubSourceSpec github;
            Ok (AppServiceSpec.with_GitHub x s)
       else Ok s);
  git ← as_list (index service "git");
  s ← (if (0 <? length git)%nat
       then x ← expandAppGitSourceSpec git;
            Ok (AppServiceSpec.with_Git x s)
       else Ok s);
  routes ← as_list (index service "routes");
  s ← (if (0 <? length routes)%nat
       then x ← expandAppRoutes routes;
            Ok (AppServiceSpec.with_Routes x s)
       else Ok s);
  checks ← as_list (index service "health_check");
  s ← (if (0 <? length checks)%nat
       then x ← expandAppHealthCheck checks;
            Ok (AppServiceSpec.with_HealthCheck x s)
       else Ok s);
  Ok (Some s).

Definition expandAppSpecServices (config : list value)
    : result (slice (ptr AppServiceSpec.t)) :=
  appServices ← mapM expandAppSpecServices_item config;
  Ok (Some appServices).

(** The body of the loop of [flattenAppSpecServices]: the map [r] built for one
    element [s]. *)
Definition flattenAppSpecServices_item (s : ptr AppServiceSpec.t) : result (gmap string value) :=
  s ← deref s;
  let r : gmap string value := ∅ in
  let r := <["name" := VString (AppServiceSpec.Name s)]> r in
  let r := <["run_command" := VString (AppServiceSpec.RunCommand s)]> r in
  let r := <["build_command" := VString (AppServiceSpec.BuildCommand s)]> r in
  let r := <["github" := VList (flattenAppGitHubSourceSpec (AppServiceSpec.GitHub s))]> r in
  let r := <["git" := VList (flattenAppGitSourceSpec (AppServiceSpec.Git s))]> r in
  let r := <["http_port" := VInt (int (AppServiceSpec.HTTPPort s))]> r in
  routes ← flattenAppRoutes (AppServiceSpec.Routes s);
  let r := <["routes" := VList routes]> r in
  let r := <["dockerfile_path" := VString (AppServiceSpec.DockerfilePath s)]> r in
  envs ← flattenAppEnvs (AppServiceSpec.Envs s);
  let r := <["env" := VSet envs]> r in
  let r := <["health_check" := VList (flattenAppHealthCheck (AppServiceSpec.HealthCheck s))]> r in
  let r := <["instance_size_slug" := VString (AppServiceSpec.InstanceSizeSlug s)]> r in
  let r := <["instance_count" := VInt (int (AppServiceSpec.InstanceCount s))]> r in
  let r := <["source_dir" := VString (AppServiceSpec.SourceDir s)]> r in
  let r := <["environment_slug" := VString (AppServiceSpec.EnvironmentSlug s)]> r in
  Ok r.

Definition flattenAppSpecServices (services : slice (ptr AppServiceSpec.t))
    : result (list (gmap string value)) :=
  let result := replicate (len services) (∅ : gmap string value) in
  foldM_from (λ result i s,
    r ← flattenAppSpecServices_item s;
    Ok (<[i := r]> result)) 0%nat (elems services) result.

(** The body of the loop of [expandAppSpecStaticSites], for one [rawSite]. *)
Definition expandAppSpecStaticSites_item (rawSite : value) : result (ptr AppStaticSiteSpec.t) :=
  site ← as_map rawSite;
  name ← as_string (index site "name");
  buildCommand ← as_string (index site "build_command");
  dockerfilePath ← as_string (index site "dockerfile_path");
  envSet ← as_set (index site "env");
  envs ← expandAppEnvs (Set_.List envSet);
  sourceDir ← as_string (index site "source_dir");
  outputDir ← as_string (index site "output_dir");
  indexDocument ← as_string (index site "index_document");
  errorDocument ← as_string (index site "error_document");
  environmentSlug ← as_string (index site "environment_slug");
  let s := AppStaticSiteSpec.mk name buildCommand dockerfilePath envs
             sourceDir outputDir indexDocument errorDocument environmentSlug
             None None None in
  github ← as_list (index site "github");
  s ← (if (0 <? length github)%nat
       then x ← expandAppGitHubSourceSpec github;
            Ok (AppStaticSiteSpec.with_GitHub x s)
       else Ok s);
  git ← as_list (index site "git");
  s ← (if (0 <? length git)%nat
       then x ← expandAppGitSourceSpec git;
            Ok (AppStaticSiteSpec.with_Git x s)
       else Ok s);
  routes ← as_list (index site "routes");
  s ← (if (0 <? length routes)%nat
       then x ← expandAppRoutes routes;
            Ok (AppStaticSiteSpec.with_Routes x s)
       else Ok s);
  Ok (Some s).

Definition expandAppSpecStaticSites (config : list value)
    : result (slice (ptr AppStaticSiteSpec.t)) :=
  appSites ← mapM expandAppSpecStaticSites_item config;
  Ok (Some appSites).

(** The body of the loop of [flattenAppSpecStaticSites]: the map [r] built for one
    element [s]. *)
Definition flattenAppSpecStaticSites_item (s : ptr AppStaticSiteSpec.t) : result (gmap string value) :=
  s ← deref s;
  let r : gmap string value := ∅ in
  let r := <["name" := VString (AppStaticSiteSpec.Name s)]> r in
  let r := <["build_command" := VString (AppStaticSiteSpec.BuildCommand s)]> r in
  let r := <["github" := VList (flattenAppGitHubSourceSpec (AppStaticSiteSpec.GitHub s))]> r in
  let r := <["git" := VList (flattenAppGitSourceSpec (AppStaticSiteSpec.Git s))]> r in
  routes ← flattenAppRoutes (AppStaticSiteSpec.Routes s);
  let r := <["routes" := VList routes]> r in
  let r := <["dockerfile_path" := VString (AppStaticSiteSpec.DockerfilePath s)]> r in
  envs ← flattenAppEnvs (AppStaticSiteSpec.Envs s);
  let r := <["env" := VSet envs]> r in
  let r := <["source_dir" := VString (AppStaticSiteSpec.SourceDir s)]> r in
  let r := <["output_dir" := VString (AppStaticSiteSpec.OutputDir s)]> r in
  let r := <["index_document" := VString (AppStaticSiteSpec.IndexDocument s)]> r in
  let r := <["error_document" := VString (AppStaticSiteSpec.ErrorDocument s)]> r in
  let r := <["environment_slug" := VString (AppStaticSiteSpec.EnvironmentSlug s)]> r in
  Ok r.

Definition flattenAppSpecStaticSites (sites : slice (ptr AppStaticSiteSpec.t))
    : result (list (gmap string value)) :=
  let result := replicate (len sites) (∅ : gmap string value) in
  foldM_from (λ result i s,
    r ← flattenAppSpecStaticSites_item s;
    Ok (<[i := r]> result)) 0%nat (elems sites) result.

(** The body of the loop of [expandAppSpecWorkers], for one [rawWorker]. *)
Definition expandAppSpecWorkers_item (rawWorker : value) : result (ptr AppWorkerSpec.t) :=
  worker ← as_map rawWorker;
  name ← as_string (index worker "name");
  runCommand ← as_string (index worker "run_command");
  buildCommand ← as_string (index worker "build_command");
  dockerfilePath ← as_string (index worker "dockerfile_path");
  envSet ← as_set (index worker "env");
  envs ← expandAppEnvs (Set_.List envSet);
  instanceSizeSlug ← as_string (index worker "instance_size_slug");
  instanceCount ← as_int (index worker "instance_count");
  sourceDir ← as_string (index worker "source_dir");
  environmentSlug ← as_string (index worker "environment_slug");
  let s := AppWorkerSpec.mk name runCommand buildCommand dockerfilePath envs
             instanceSizeSlug (int64 instanceCount) sourceDir environmentSlug
             None None in
  github ← as_list (index worker "github");
  s ← (if (0 <? length github)%nat
       then x ← expandAppGitHubSourceSpec github;
            Ok (AppWorkerSpec.with_GitHub x s)
       else Ok s);
  git ← as_list (index worker "git");
  s ← (if (0 <? length git)%nat
       then x ← expandAppGitSourceSpec git;
            Ok (AppWorkerSpec.with_Git x s)
       else Ok s);
  Ok (Some s).

Definition expandAppSpecWorkers (config : list value)
    : result (slice (ptr AppWorkerSpec.t)) :=
  appWorkers ← mapM expandAppSpecWorkers_item config;
  Ok (Some appWorkers).

(** The body of the loop of [flattenAppSpecWorkers]: the map [r] built for one
    element [w]. *)
Definition flattenAppSpecWorkers_item (w : ptr AppWorkerSpec.t) : result (gmap string value) :=
  w ← deref w;
  let r : gmap string value := ∅ in
  let r := <["name" := VString (AppWorkerSpec.Name w)]> r in
  let r := <["run_command" := VString (AppWorkerSpec.RunCommand w)]> r in
  let r := <["build_command" := VString (AppWorkerSpec.BuildCommand w)]> r in
  let r := <["github" := VList (flattenAppGitHubSourceSpec (AppWorkerSpec.GitHub w))]> r in
  let r := <["git" := VList (flattenAppGitSourceSpec (AppWorkerSpec.Git w))]> r in
  let r := <["dockerfile_path" := VString (AppWorkerSpec.DockerfilePath w)]> r in
  envs ← flattenAppEnvs (AppWorkerSpec.Envs w);
  let r := <["env" := VSet envs]> r in
  let r := <["instance_size_slug" := VString (AppWorkerSpec.InstanceSizeSlug w)]> r in
  let r := <["instance_count" := VInt (int (AppWorkerSpec.InstanceCount w))]> r in
  let r := <["source_dir" := VString (AppWorkerSpec.SourceDir w)]> r in
  let r := <["environment_slug" := VString (AppWorkerSpec.EnvironmentSlug w)]> r in
  Ok r.

Definition flattenAppSpecWorkers (workers : slice (ptr AppWorkerSpec.t))
    : result (list (gmap string value)) :=
  let result := replicate (len workers) (∅ : gmap string value) in
  foldM_from (λ result i w,
    r ← flattenAppSpecWorkers_item w;
    Ok (<[i := r]> result)) 0%nat (elems workers) result.

(** The body of the loop of [expandAppSpecDatabases], for one [rawDatabase]. *)
Definition expandAppSpecDatabases_item (rawDatabase : value) : result (ptr AppDatabaseSpec.t) :=
  db ← as_map rawDatabase;
  name ← as_string (index db "name");
  engine ← as_string (index db "engine");
  version ← as_string (index db "version");
  production ← as_bool (index db "production");
  clusterName ← as_string (index db "cluster_name");
  dbName ← as_string (index db "db_name");
  dbUser ← as_string (index db "db_user");
  Ok (Some (AppDatabaseSpec.mk name engine version production clusterName
              dbName dbUser)).

Definition expandAppSpecDatabases (config : list value)
    : result (slice (ptr AppDatabaseSpec.t)) :=
  appDatabases ← mapM expandAppSpecDatabases_item config;
  Ok (Some appDatabases).

(** [r["engine"] = db.Engine] stores the engine with its own dynamic type,
    [godo.AppDatabaseSpecEngine], without a conversion to [string]. *)
(** The body of the loop of [flattenAppSpecDatabases]: the map [r] built for one
    element [db]. *)
Definition flattenAppSpecDatabases_item (db : ptr AppDatabaseSpec.t) : result (gmap string value) :=
  db ← deref db;
  let r : gmap string value := ∅ in
  let r := <["name" := VString (AppDatabaseSpec.Name db)]> r in
  let r := <["engine" := VEngine (AppDatabaseSpec.Engine db)]> r in
  let r := <["version" := VString (AppDatabaseSpec.Version db)]> r in
  let r := <["production" := VBool (AppDatabaseSpec.Production db)]> r in
  let r := <["cluster_name" := VString (AppDatabaseSpec.ClusterName db)]> r in
  let r := <["db_name" := VString (AppDatabaseSpec.DBName db)]> r in
  let r := <["db_user" := VString (AppDatabaseSpec.DBUser db)]> r in
  Ok r.

Definition flattenAppSpecDatabases (databases : slice (ptr AppDatabaseSpec.t))
    : result (list (gmap string value)) :=
  let result := replicate (len databases) (∅ : gmap string value) in
  foldM_from (λ result i db,
    r ← flattenAppSpecDatabases_item db;
    Ok (<[i := r]> result)) 0%nat (elems databases) result.

(** ** Expand and flatten: the app spec *)

Definition is_nil (v : value) : bool :=
  match v with VNil => true | _ => false end.

Definition expandAppSpec (config : list value) : result (ptr AppSpec.t) :=
  if (length config =? 0)%nat || is_nil (default VNil (config !! 0%nat))
  then Ok (Some AppSpec.zero)
  else
    c0 ← first config;
    appSpecConfig ← as_map c0;
    name ← as_string (index appSpecConfig "name");
    region ← as_string (index appSpecConfig "region");
    domainSet ← as_set (index appSpecConfig "domains");
    domains ← expandAppDomainSpec (Set_.List domainSet);
    service ← as_list (index appSpecConfig "service");
    services ← expandAppSpecServices service;
    staticSite ← as_list (index appSpecConfig "static_site");
    staticSites ← expandAppSpecStaticSites staticSite;
    worker ← as_list (index appSpecConfig "worker");
    workers ← expandAppSpecWorkers worker;
    database ← as_list (index appSpecConfig "database");
    databases ← expandAppSpecDatabases database;
    Ok (Some (AppSpec.mk name region domains services staticSites workers
                databases)).

Definition flattenAppSpec (spec : ptr AppSpec.t)
    : result (list (gmap string value)) :=
  let result := [] in
  match spec with
  | Some spec =>
      let r : gmap string value := ∅ in
      let r := <["name" := VString (AppSpec.Name spec)]> r in
      let r := <["region" := VString (AppSpec.Region spec)]> r in
      domains ← flattenAppDomainSpec (AppSpec.Domains spec);
      let r := <["domains" := VSet domains]> r in
      r ← (if (0 <? len (AppSpec.Services spec))%nat
           then x ← flattenAppSpecServices (AppSpec.Services spec);
                Ok (<["service" := VMapList x]> r)
           else Ok r);
      r ← (if (0 <? len (AppSpec.StaticSites spec))%nat
           then x ← flattenAppSpecStaticSites (AppSpec.StaticSites spec);
                Ok (<["static_site" := VMapList x]> r)
           else Ok r);
      r ← (if (0 <? len (AppSpec.Workers spec))%nat
           then x ← flattenAppSpecWorkers (AppSpec.Workers spec);
                Ok (<["worker" := VMapList x]> r)
           else Ok r);
      r ← (if (0 <? len (AppSpec.Databases spec))%nat
           then x ← flattenAppSpecDatabases (AppSpec.Databases spec);
                Ok (<["database" := VMapList x]> r)
           else Ok r);
      Ok (result ++ [r])
  | None => Ok result
  end.

(** ** The bucket sweeper of the acceptance tests *)

(** [s3.Bucket], [s3.ListBucketsOutput] and [s3.GetBucketLocationOutput],
    with the fields the sweeper reads. *)
Module Bucket.
Record t := mk { Name : ptr string }.
End Bucket.

Module ListBucketsOutput.
Record t := mk { Buckets : list Bucket.t }.
End ListBucketsOutput.

Module GetBucketLocationOutput.
Record t := mk { LocationConstraint : ptr string }.
End GetBucketLocationOutput.

(** The calls the sweeper makes on the S3 connection, in order. *)
Inductive call :=
  | CallListBuckets
  | CallGetBucketLocation (bucket : string)
  | CallDeleteAllS3ObjectVersions (bucket : string).

(** [*session.Session]; the sweeper only hands it on. *)
Module Session.
Inductive t := mk.
End Session.

(** How a sweep ends: a panic, [log.Fatal], or a return with an error or
    nil. *)
Inductive outcome :=
  | Panics (p : panic)
  | Fatal
  | Return (err : option string).

(** [s3.New(sesh, cfg)] asks the session for its configuration: it
    dereferences [sesh]. *)
Definition s3_New (sesh : ptr Session.t) : result Session.t := deref sesh.

(** [aws.StringValue] *)
Definition StringValue (p : ptr string) : string := default "" p.

Section sweeper.

(** Go's [error] values with their [Error()] text; [None] is the nil
    error. *)
Variable error : Type.
Variable Error : error → string.

(** The connection: the session and the error [session.NewSession]
    returns, and the answers of the S3 endpoint. *)
Variable NewSession : ptr Session.t * option error.
Variable ListBuckets : ListBucketsOutput.t * option error.
Variable GetBucketLocation
  : string → ptr GetBucketLocationOutput.t * option error.

(** Helpers of the provider defined outside the two files:
    [isAWSErr(err, code, message)] and
    [deleteAllS3ObjectVersions(conn, bucket, "", false, true)]. *)
Variable isAWSErr : option error → string → string → bool.
Variable deleteAllS3ObjectVersions : string → option error.

Definition testSweepSkipSweepError (err : option error) : bool :=
  if isAWSErr err "RequestError" "send request failed" then true
  else if isAWSErr err "UnsupportedOperation" "" then true
  else if isAWSErr err "InvalidParameterValue"
            "not permitted in this API version for your account" then true
  else if isAWSErr err "InvalidParameterValue" "Access Denied to API Version"
       then true
  else if isAWSErr err "AccessDeniedException" "" then true
  else if isAWSErr err "BadRequestException" "not supported" then true
  else if isAWSErr err "InvalidAction" "is not valid" then true
  else false.

Definition testS3BucketRegion (bucket : string) : string * option error :=
  let '(output, err) := GetBucketLocation bucket in
  match err with
  | Some e => ("", Some e)
  | None =>
      match output with
      | None => ("nyc3", None)
      | Some output =>
          match GetBucketLocationOutput.LocationConstraint output with
          | None => ("nyc3", None)
          | Some c => (StringValue (Some c), None)
          end
      end
  end.

Definition prefixes : list string :=
  ["mybucket."; "mylogs."; "tf-acc"; "tf-object-test"; "tf-test";
   "tf-emr-bootstrap"].

(** The inner loop: [hasPrefix] after ranging over [prefixes] with a
    [break] at the first match. *)
Fixpoint hasPrefixLoop (bucketName : string) (prefixes : list string) : bool :=
  match prefixes with
  | [] => false
  | prefix :: rest =>
      if String.prefix prefix bucketName then true
      else hasPrefixLoop bucketName rest
  end.

(** The loop over [output.Buckets]: the calls made and the value returned. *)
Fixpoint sweepLoop (region : string) (buckets : list Bucket.t)
    : list call * option string :=
  match buckets with
  | [] => ([], None)
  | bucket :: rest =>
      let bucketName := StringValue (Bucket.Name bucket) in
      let hasPrefix := hasPrefixLoop bucketName prefixes in
      if negb hasPrefix then sweepLoop region rest
      else
        let '(bucketRegion, err) := testS3BucketRegion bucketName in
        match err with
        | Some _ =>
            let '(calls, ret) := sweepLoop region rest in
            (CallGetBucketLocation bucketName :: calls, ret)
        | None =>
            if negb (String.eqb bucketRegion region) then
              let '(calls, ret) := sweepLoop region rest in
              (CallGetBucketLocation bucketName :: calls, ret)
            else
              match deleteAllS3ObjectVersions bucketName with
              | Some e =>
                  ([CallGetBucketLocation bucketName;
                    CallDeleteAllS3ObjectVersions bucketName],
                   Some ("error listing S3 Bucket (" +:+ bucketName
                         +:+ ") Objects: " +:+ Error e))
              | None =>
                  let '(calls, ret) := sweepLoop region rest in
                  (CallGetBucketLocation bucketName
                   :: CallDeleteAllS3ObjectVersions bucketName :: calls, ret)
              end
        end
  end.

(** [s3.New] runs before the session error is tested. *)
Definition testSweepS3BucketObjects (region : string) : list call * outcome :=
  let '(sesh, err) := NewSession in
  match s3_New sesh with
  | Panic p => ([], Panics p)
  | Ok conn =>
      match err with
      | Some _ => ([], Fatal)
      | None =>
          let '(output, err) := ListBuckets in
          if testSweepSkipSweepError err then ([CallListBuckets], Return None)
          else
            match err with
            | Some e =>
                ([CallListBuckets],
                 Return (Some ("error listing S3 Bucket Objects: "
                               +:+ Error e)))
            | None =>
                if (length (ListBucketsOutput.Buckets output) =? 0)%nat
                then ([CallListBuckets], Return None)
                else
                  let '(calls, ret) :=
                    sweepLoop region (ListBucketsOutput.Buckets output) in
                  (CallListBuckets :: calls, Return ret)
            end
      end
  end.

End sweeper.

(** ** Well-typed configuration *)

(** The range of Go's [int]. *)
Definition in_int (z : Z) : Prop :=
  - 2 ^ (intBits - 1) ≤ z < 2 ^ (intBits - 1).

(** [wt_value strict s v]: the value [v] has the dynamic type the schema [s]
    declares, down to the nested blocks; every key of a block is present
    and no other.  With [strict], lists also respect [MaxItems] and a set
    is one the SDK builds with the schema's hash function: it holds one
    item per hash code. *)
Inductive wt_value (strict : bool) : Schema → value → Prop :=
  | wt_string s x :
      Type_ s = TypeString → wt_value strict s (VString x)
  | wt_bool s b :
      Type_ s = TypeBool → wt_value strict s (VBool b)
  | wt_int s z :
      Type_ s = TypeInt → in_int z → wt_value strict s (VInt z)
  | wt_list s l :
      Type_ s = TypeList →
      (strict = true → 0 < MaxItems s → Z.of_nat (length l) ≤ MaxItems s) →
      Forall (wt_elem strict (Elem s)) l →
      wt_value strict s (VList l)
  | wt_set s st :
      Type_ s = TypeSet →
      (strict = true → one_per_code (set_hash s) st) →
      (∀ e, e ∈ st → wt_elem strict (Elem s) (selem_value e)) →
      wt_value strict s (VSet st)
with wt_elem (strict : bool) : SchemaElem → value → Prop :=
  | wt_elem_schema s v :
      wt_value strict s v → wt_elem strict (ElemSchema s) v
  | wt_elem_resource r m :
      dom m = dom (Schema_ r) →
      (∀ k s v, Schema_ r !! k = Some s → m !! k = Some v →
                wt_value strict s v) →
      wt_elem strict (ElemResource r) (VMap m).

(** A map that is well typed for a block's schema. *)
Definition well_typed (sch : gmap string Schema) (m : gmap string value) : Prop :=
  wt_elem false (ElemResource (mkResource sch)) (VMap m).

(** Well typed and within the [MaxItems] the schema declares. *)
Definition conforming (sch : gmap string Schema) (m : gmap string value) : Prop :=
  wt_elem true (ElemResource (mkResource sch)) (VMap m).

(** ** Slices without nil elements *)

(** Every pointer of the slice points to a struct. *)
Definition no_nil {A} (s : slice (ptr A)) : bool :=
  forallb (λ p : ptr A, bool_decide (is_Some p)) (elems s).

Definition service_ok (s : AppServiceSpec.t) : bool :=
  no_nil (AppServiceSpec.Envs s) && no_nil (AppServiceSpec.Routes s).
Definition static_site_ok (s : AppStaticSiteSpec.t) : bool :=
  no_nil (AppStaticSiteSpec.Envs s) && no_nil (AppStaticSiteSpec.Routes s).
Definition worker_ok (s : AppWorkerSpec.t) : bool :=
  no_nil (AppWorkerSpec.Envs s).

(** No slice of the struct, at any depth, holds a nil pointer. *)
Definition all_ok {A} (ok : A → bool) (s : slice (ptr A)) : bool :=
  forallb (λ p : ptr A, from_option ok false p) (elems s).

Definition app_spec_ok (s : AppSpec.t) : bool :=
  no_nil (AppSpec.Domains s)
  && all_ok service_ok (AppSpec.Services s)
  && all_ok static_site_ok (AppSpec.StaticSites s)
  && all_ok worker_ok (AppSpec.Workers s)
  && no_nil (AppSpec.Databases s).

(** ** The checks of the acceptance tests *)

(** The structs of the S3 SDK and of the Terraform state, with the fields
    the checks read. *)
Module GetObjectOutput.
Record t := mk { VersionId : ptr string }.
End GetObjectOutput.

Module Grant.
Record t := mk { Permission : ptr string }.
End Grant.

Module GetObjectAclOutput.
Record t := mk { Grants : list (ptr Grant.t) }.
End GetObjectAclOutput.

Module HeadObjectOutput.
Record t := mk { StorageClass : ptr string }.
End HeadObjectOutput.

Module HeadObjectInput.
Record t := mk { Bucket : ptr string; Key : ptr string; IfMatch : ptr string }.
End HeadObjectInput.

Module InstanceState.
Record t := mk { ID : string; Attributes : gmap string string }.
End InstanceState.

Module ResourceState.
Record t := mk { Type_ : string; Primary : ptr InstanceState.t }.
End ResourceState.

(** [m[k]] on a [map[string]string]: the empty string for a missing key. *)
Definition attribute (m : gmap string string) (k : string) : string :=
  default "" (m !! k).

(** [m[k]] on a map of pointers: nil for a missing key. *)
Definition resource (m : gmap string (ptr ResourceState.t)) (k : string)
    : ptr ResourceState.t :=
  default None (m !! k).

(** The error a check returns: one handed on from a callee, or one made by
    [fmt.Errorf] with its text. *)
Inductive failure (error : Type) :=
  | Returned (e : error)
  | Errorf (msg : string).
Arguments Returned {error} e.
Arguments Errorf {error} msg.

(** [sort.Strings]: the slice in increasing order (nil stays nil). *)
Definition sort_Strings (s : slice string) : slice string :=
  merge_sort string_le <$> s.

(** [reflect.DeepEqual] on two [[]string]: both nil, or both not nil with
    the same elements. *)
Definition DeepEqual (a b : slice string) : bool :=
  match a, b with
  | None, None => true
  | Some x, Some y => bool_decide (x = y)
  | _, _ => false
  end.

(** [%v] of a [[]string]. *)
Definition show_strings (s : slice string) : string :=
  "[" +:+ String.concat " " (elems s) +:+ "]".

(** [s3.StorageClassStandard] *)
Definition StorageClassStandard : string := "STANDARD".

Section checks.

Variable error : Type.
Variable Error : error → string.

(** [%s] of a [*s3.GetObjectOutput], the SDK's [String] method. *)
Variable String_ : ptr GetObjectOutput.t → string.

(** What the environment answers: the provider's [spacesClient] behind
    [testAccGetS3Conn], and the S3 endpoint. *)
Variable spacesClient : string → option error.
Variable HeadObject : HeadObjectInput.t → ptr HeadObjectOutput.t * option error.
Variable GetObject
  : string → string → string → ptr GetObjectOutput.t * option error.
Variable GetObjectAcl
  : string → string → ptr GetObjectAclOutput.t * option error.

Definition testAccGetS3Conn : option error := spacesClient "nyc3".

Definition testAccCheckAWSS3BucketObjectVersionIdDiffers
    (first second : ptr GetObjectOutput.t) : result (option (failure error)) :=
  f ← deref first;
  match GetObjectOutput.VersionId f with
  | None =>
      Ok (Some (Errorf ("Expected first object to have VersionId: "
                        +:+ String_ first)))
  | Some v1 =>
      s ← deref second;
      match GetObjectOutput.VersionId s with
      | None =>
          Ok (Some (Errorf ("Expected second object to have VersionId: "
                            +:+ String_ second)))
      | Some v2 =>
          if String.eqb v1 v2
          then Ok (Some (Errorf
                 ("Expected Version IDs to differ, but they are equal ("
                  +:+ v1 +:+ ")")))
          else Ok None
      end
  end.

Definition testAccCheckAWSS3BucketObjectVersionIdEquals
    (first second : ptr GetObjectOutput.t) : result (option (failure error)) :=
  f ← deref first;
  match GetObjectOutput.VersionId f with
  | None =>
      Ok (Some (Errorf ("Expected first object to have VersionId: "
                        +:+ String_ first)))
  | Some v1 =>
      s ← deref second;
      match GetObjectOutput.VersionId s with
      | None =>
          Ok (Some (Errorf ("Expected second object to have VersionId: "
                            +:+ String_ second)))
      | Some v2 =>
          if negb (String.eqb v1 v2)
          then Ok (Some (Errorf
                 ("Expected Version IDs to be equal, but they differ ("
                  +:+ v1 +:+ ", " +:+ v2 +:+ ")")))
          else Ok None
      end
  end.

(** The loop of [testAccCheckAWSS3BucketObjectDestroy] over the resources of
    the root module, in the order the [range] over the map visits them. *)
Fixpoint destroyLoop (resources : list (ptr ResourceState.t))
    : result (option (failure error)) :=
  match resources with
  | [] => Ok None
  | rs :: rest =>
      rs ← deref rs;
      if negb (String.eqb (ResourceState.Type_ rs)
                 "digitalocean_spaces_bucket_object")
      then destroyLoop rest
      else
        primary ← deref (ResourceState.Primary rs);
        let attrs := InstanceState.Attributes primary in
        let '(_, err) :=
          HeadObject (HeadObjectInput.mk (Some (attribute attrs "bucket"))
                        (Some (attribute attrs "key"))
                        (Some (attribute attrs "etag"))) in
        match err with
        | None =>
            Ok (Some (Errorf ("AWS S3 Object still exists: "
                              +:+ InstanceState.ID primary)))
        | Some _ => destroyLoop rest
        end
  end.

Definition testAccCheckAWSS3BucketObjectDestroy
    (resources : list (ptr ResourceState.t))
    : result (option (failure error)) :=
  match testAccGetS3Conn with
  | Some err => Ok (Some (Returned err))
  | None => destroyLoop resources
  end.

(** [testAccCheckAWSS3BucketObjectExists]: the error returned and the object
    [obj] points to afterwards. *)
Definition testAccCheckAWSS3BucketObjectExists (n : string)
    (obj : ptr GetObjectOutput.t) (Resources : gmap string (ptr ResourceState.t))
    : result (ptr GetObjectOutput.t * option (failure error)) :=
  match Resources !! n with
  | None => Ok (obj, Some (Errorf ("Not Found: " +:+ n)))
  | Some rs =>
      rs ← deref rs;
      primary ← deref (ResourceState.Primary rs);
      if String.eqb (InstanceState.ID primary) ""
      then Ok (obj, Some (Errorf "No S3 Bucket Object ID is set"))
      else
        match testAccGetS3Conn with
        | Some err => Ok (obj, Some (Returned err))
        | None =>
            let attrs := InstanceState.Attributes primary in
            let '(out, err) :=
              GetObject (attribute attrs "bucket") (attribute attrs "key")
                (attribute attrs "etag") in
            match err with
            | Some err =>
                Ok (obj, Some (Errorf ("S3Bucket Object error: " +:+ Error err)))
            | None =>
                _ ← deref obj;
                out ← deref out;
                Ok (Some out, None)
            end
        end
  end.

Definition testAccCheckAWSS3BucketObjectAcl (n : string)
    (expectedPerms : slice string) (Resources : gmap string (ptr ResourceState.t))
    : result (option (failure error)) :=
  let rs := resource Resources n in
  match testAccGetS3Conn with
  | Some err => Ok (Some (Returned err))
  | None =>
      rs ← deref rs;
      primary ← deref (ResourceState.Primary rs);
      let attrs := InstanceState.Attributes primary in
      let '(out, err) :=
        GetObjectAcl (attribute attrs "bucket") (attribute attrs "key") in
      match err with
      | Some err => Ok (Some (Errorf ("GetObjectAcl error: " +:+ Error err)))
      | None =>
          out ← deref out;
          perms ← foldM (λ (perms : slice string) v,
                     v ← deref v;
                     p ← deref (Grant.Permission v);
                     Ok (Some (elems perms ++ [p])))
                   (GetObjectAclOutput.Grants out) None;
          let perms := sort_Strings perms in
          if negb (DeepEqual perms expectedPerms)
          then Ok (Some (Errorf ("Expected ACL permissions to be "
                                 +:+ show_strings expectedPerms +:+ ", got "
                                 +:+ show_strings perms)))
          else Ok None
      end
  end.

Definition testAccCheckAWSS3BucketObjectStorageClass (n expectedClass : string)
    (Resources : gmap string (ptr ResourceState.t))
    : result (option (failure error)) :=
  let rs := resource Resources n in
  match testAccGetS3Conn with
  | Some err => Ok (Some (Returned err))
  | None =>
      rs ← deref rs;
      primary ← deref (ResourceState.Primary rs);
      let attrs := InstanceState.Attributes primary in
      let '(out, err) :=
        HeadObject (HeadObjectInput.mk (Some (attribute attrs "bucket"))
                      (Some (attribute attrs "key")) None) in
      match err with
      | Some err => Ok (Some (Errorf ("HeadObject error: " +:+ Error err)))
      | None =>
          out ← deref out;
          let storageClass :=
            match HeadObjectOutput.StorageClass out with
            | Some c => c
            | None => StorageClassStandard
            end in
          if negb (String.eqb storageClass expectedClass)
          then Ok (Some (Errorf ("Expected Storage Class to be "
                                 +:+ expectedClass +:+ ", got "
                                 +:+ storageClass)))
          else Ok None
      end
  end.

End checks.

(** * Specification

    What the statements below are written with: the structs and maps a
    configuration denotes, sample inputs, and a checker for well-typed
    configuration. *)

(** The items a set holds after the items of [l] were added, in order, to
    [acc]. *)
Definition add_all (F : selem → Z) (l : list selem) (acc : gset selem)
    : gset selem :=
  foldl (λ acc x, Set_.Add F x acc) acc l.

(** [F] gives the items of [l] pairwise distinct codes. *)
Definition distinct_codes (F : selem → Z) (l : list selem) : Prop :=
  ∀ x y, x ∈ l → y ∈ l → Set_.code F x = Set_.code F y → x = y.

(** The strings of [l] have pairwise distinct hash codes. *)
Definition distinct_hashes (l : list string) : Prop :=
  ∀ d d', d ∈ l → d' ∈ l → hashcode_String d = hashcode_String d' → d = d'.

Definition route_value (r : AppRouteSpec.t) : value :=
  VMap {[ "path" := VString (AppRouteSpec.Path r) ]}.

Definition env_elem (e : AppVariableDefinition.t) : selem :=
  EMap {[ "value" := PString (AppVariableDefinition.Value e);
          "scope" := PString (AppVariableDefinition.Scope e);
          "key" := PString (AppVariableDefinition.Key e);
          "type" := PString (AppVariableDefinition.Type_ e) ]}.

(** The map [flattenAppSpecServices] builds for the service [s], given its
    flattened routes and environment variables. *)
Definition service_map (s : AppServiceSpec.t) (routes : list value)
    (envs : gset selem) : gmap string value :=
  list_to_map
    [ ("name", VString (AppServiceSpec.Name s));
      ("run_command", VString (AppServiceSpec.RunCommand s));
      ("build_command", VString (AppServiceSpec.BuildCommand s));
      ("http_port", VInt (int (AppServiceSpec.HTTPPort s)));
      ("instance_size_slug", VString (AppServiceSpec.InstanceSizeSlug s));
      ("instance_count", VInt (int (AppServiceSpec.InstanceCount s)));
      ("source_dir", VString (AppServiceSpec.SourceDir s));
      ("environment_slug", VString (AppServiceSpec.EnvironmentSlug s));
      ("dockerfile_path", VString (AppServiceSpec.DockerfilePath s));
      ("github", VList (flattenAppGitHubSourceSpec (AppServiceSpec.GitHub s)));
      ("git", VList (flattenAppGitSourceSpec (AppServiceSpec.Git s)));
      ("routes", VList routes);
      ("env", VSet envs);
      ("health_check", VList (flattenAppHealthCheck (AppServiceSpec.HealthCheck s))) ].

Definition example_service : AppServiceSpec.t :=
  AppServiceSpec.mk "web" "bin/web" "make" 8080 "Dockerfile"
    (Some [Some (AppVariableDefinition.mk "1" "RUN_TIME" "DEBUG" "GENERAL")])
    "basic-xxs" 2 "/" "go"
    (Some (GitHubSourceSpec.mk "owner/repo" "main" true)) None
    (Some [Some (AppRouteSpec.mk "/")])
    (Some (AppServiceSpecHealthCheck.mk "/healthz")).

Definition str (m : gmap string value) (k : string) : string :=
  match m !! k with Some (VString x) => x | _ => "" end.
Definition num (m : gmap string value) (k : string) : Z :=
  match m !! k with Some (VInt n) => n | _ => 0 end.
Definition flag (m : gmap string value) (k : string) : bool :=
  match m !! k with Some (VBool b) => b | _ => false end.
Definition lst (m : gmap string value) (k : string) : list value :=
  match m !! k with Some (VList l) => l | _ => [] end.
Definition set (m : gmap string value) (k : string) : gset selem :=
  match m !! k with Some (VSet s) => s | _ => ∅ end.

(** The type and the element a block's schema declares for a key. *)
Definition type_at (sch : gmap string Schema) (k : string) : option ValueType :=
  Type_ <$> sch !! k.
Definition elem_at (sch : gmap string Schema) (k : string) : SchemaElem :=
  from_option Elem NoElem (sch !! k).
Definition max_at (sch : gmap string Schema) (k : string) : Z :=
  from_option MaxItems 0 (sch !! k).
Definition hash_at (sch : gmap string Schema) (k : string) : selem → Z :=
  from_option set_hash (λ _, 0) (sch !! k).

Definition github_of (v : value) : GitHubSourceSpec.t :=
  match v with
  | VMap m => GitHubSourceSpec.mk (str m "repo") (str m "branch")
                (flag m "deploy_on_push")
  | _ => GitHubSourceSpec.mk "" "" false
  end.

Definition git_of (v : value) : GitSourceSpec.t :=
  match v with
  | VMap m => GitSourceSpec.mk (str m "repo_clone_url") (str m "branch")
  | _ => GitSourceSpec.mk "" ""
  end.

Definition health_check_of (v : value) : AppServiceSpecHealthCheck.t :=
  match v with
  | VMap m => AppServiceSpecHealthCheck.mk (str m "path")
  | _ => AppServiceSpecHealthCheck.mk ""
  end.

Definition route_of (v : value) : AppRouteSpec.t :=
  match v with
  | VMap m => AppRouteSpec.mk (str m "path")
  | _ => AppRouteSpec.mk ""
  end.

Definition env_of (v : value) : AppVariableDefinition.t :=
  match v with
  | VMap m => AppVariableDefinition.mk (str m "value") (str m "scope")
                (str m "key") (str m "type")
  | _ => AppVariableDefinition.mk "" "" "" ""
  end.

Definition database_of (v : value) : AppDatabaseSpec.t :=
  match v with
  | VMap m => AppDatabaseSpec.mk (str m "name") (str m "engine")
                (str m "version") (flag m "production") (str m "cluster_name")
                (str m "db_name") (str m "db_user")
  | _ => AppDatabaseSpec.mk "" "" "" false "" "" ""
  end.

(** A slice of pointers to the structs of a list. *)
Definition ptrs {A B} (f : A → B) (l : list A) : slice (ptr B) :=
  Some ((λ x, Some (f x)) <$> l).

(** The pointer set from the first element of a block list, nil when the
    list is empty. *)
Definition first_of {B} (f : value → B) (l : list value) : ptr B :=
  match l with
  | [] => None
  | v :: _ => Some (f v)
  end.

Definition routes_of (l : list value) : slice (ptr AppRouteSpec.t) :=
  match l with
  | [] => None
  | _ => ptrs route_of l
  end.

Definition envs_of (st : gset selem) : slice (ptr AppVariableDefinition.t) :=
  ptrs env_of (Set_.List st).

Definition service_of (v : value) : AppServiceSpec.t :=
  match v with
  | VMap m =>
      AppServiceSpec.mk (str m "name") (str m "run_command")
        (str m "build_command") (int64 (num m "http_port"))
        (str m "dockerfile_path") (envs_of (set m "env"))
        (str m "instance_size_slug") (int64 (num m "instance_count"))
        (str m "source_dir") (str m "environment_slug")
        (first_of github_of (lst m "github")) (first_of git_of (lst m "git"))
        (routes_of (lst m "routes"))
        (first_of health_check_of (lst m "health_check"))
  | _ => AppServiceSpec.mk "" "" "" 0 "" None "" 0 "" "" None None None None
  end.

Definition static_site_of (v : value) : AppStaticSiteSpec.t :=
  match v with
  | VMap m =>
      AppStaticSiteSpec.mk (str m "name") (str m "build_command")
        (str m "dockerfile_path") (envs_of (set m "env")) (str m "source_dir")
        (str m "output_dir") (str m "index_document") (str m "error_document")
        (str m "environment_slug")
        (first_of github_of (lst m "github")) (first_of git_of (lst m "git"))
        (routes_of (lst m "routes"))
  | _ => AppStaticSiteSpec.mk "" "" "" None "" "" "" "" "" None None None
  end.

Definition worker_of (v : value) : AppWorkerSpec.t :=
  match v with
  | VMap m =>
      AppWorkerSpec.mk (str m "name") (str m "run_command")
        (str m "build_command") (str m "dockerfile_path")
        (envs_of (set m "env")) (str m "instance_size_slug")
        (int64 (num m "instance_count")) (str m "source_dir")
        (str m "environment_slug")
        (first_of github_of (lst m "github")) (first_of git_of (lst m "git"))
  | _ => AppWorkerSpec.mk "" "" "" "" None "" 0 "" "" None None
  end.

(** A checker for [one_per_code] on the listing of a set. *)
Definition distinct_codes_b (F : selem → Z) (l : list selem) : bool :=
  forallb (λ x,
    forallb (λ y, negb (Set_.code F x =? Set_.code F y) || bool_decide (x = y))
      l) l.

(** A checker for [wt_value] and [wt_elem]; [n] bounds the nesting of
    blocks. *)
Fixpoint wt_check (n : nat) (strict : bool) (e : SchemaElem) (v : value)
    {struct n} : bool :=
  match n with
  | O => false
  | S n' =>
      let check_value (s : Schema) (v : value) : bool :=
        match Type_ s, v with
        | TypeString, VString _ => true
        | TypeBool, VBool _ => true
        | TypeInt, VInt z => bool_decide (in_int z)
        | TypeList, VList l =>
            (negb strict || negb (0 <? MaxItems s)
             || (Z.of_nat (length l) <=? MaxItems s))
            && forallb (wt_check n' strict (Elem s)) l
        | TypeSet, VSet st =>
            (negb strict || distinct_codes_b (set_hash s) (elements st))
            && forallb (λ x, wt_check n' strict (Elem s) (selem_value x))
                 (elements st)
        | _, _ => false
        end in
      match e, v with
      | ElemSchema s, _ => check_value s v
      | ElemResource r, VMap m =>
          bool_decide (dom m = dom (Schema_ r))
          && forallb (λ kv,
               match Schema_ r !! kv.1 with
               | Some s => check_value s kv.2
               | None => false
               end) (map_to_list m)
      | _, _ => false
      end
  end.

(** The nesting of blocks in [appSpecSchema], as fuel for [wt_check]. *)
Definition depth : nat := 4.

Definition example_env : selem :=
  EMap {[ "key" := PString "DEBUG"; "value" := PString "1";
          "scope" := PString "RUN_TIME"; "type" := PString "GENERAL" ]}.

Definition example_service_config : gmap string value :=
  list_to_map
    [ ("name", VString "web");
      ("run_command", VString "bin/web");
      ("build_command", VString "make");
      ("http_port", VInt 8080);
      ("dockerfile_path", VString "");
      ("env", VSet {[ example_env ]});
      ("instance_size_slug", VString "basic-xxs");
      ("instance_count", VInt 2);
      ("source_dir", VString "/");
      ("environment_slug", VString "go");
      ("github", VList [VMap {[ "repo" := VString "owner/repo";
                                "branch" := VString "main";
                                "deploy_on_push" := VBool true ]}]);
      ("git", VList []);
      ("routes", VList [VMap {[ "path" := VString "/" ]}]);
      ("health_check", VList []) ].

(** Two maps that agree on every key outside [ks]. *)
Definition agree_outside (ks : list string) (m m' : gmap string value) : Prop :=
  ∀ k, k ∉ ks → m !! k = m' !! k.

(** The struct literals of the three component loops: every field but the
    optional blocks assigned after the literal. *)
Definition service_literal (s : AppServiceSpec.t) : AppServiceSpec.t :=
  AppServiceSpec.with_GitHub None (AppServiceSpec.with_Git None
    (AppServiceSpec.with_Routes None (AppServiceSpec.with_HealthCheck None s))).
Definition static_site_literal (s : AppStaticSiteSpec.t) : AppStaticSiteSpec.t :=
  AppStaticSiteSpec.with_GitHub None (AppStaticSiteSpec.with_Git None
    (AppStaticSiteSpec.with_Routes None s)).
Definition worker_literal (s : AppWorkerSpec.t) : AppWorkerSpec.t :=
  AppWorkerSpec.with_GitHub None (AppWorkerSpec.with_Git None s).

Definition example_static_site_config : gmap string value :=
  list_to_map
    [ ("name", VString "docs");
      ("build_command", VString "hugo");
      ("dockerfile_path", VString "");
      ("env", VSet ∅);
      ("source_dir", VString "/docs");
      ("output_dir", VString "public");
      ("index_document", VString "index.html");
      ("error_document", VString "404.html");
      ("environment_slug", VString "hugo");
      ("github", VList []);
      ("git", VList [VMap {[ "repo_clone_url" := VString "https://example.com/docs.git";
                             "branch" := VString "main" ]}]);
      ("routes", VList []) ].

Definition example_worker_config : gmap string value :=
  list_to_map
    [ ("name", VString "queue");
      ("run_command", VString "bin/worker");
      ("build_command", VString "make");
      ("dockerfile_path", VString "");
      ("env", VSet ∅);
      ("instance_size_slug", VString "basic-xxs");
      ("instance_count", VInt 1);
      ("source_dir", VString "/");
      ("environment_slug", VString "go");
      ("github", VList []);
      ("git", VList []);
      ("routes", VList []) ].

Definition example_env_config : gmap string value :=
  {[ "key" := VString "DEBUG"; "value" := VString "1";
     "scope" := VString "ANY_TIME"; "type" := VString "PLAIN" ]}.

Definition example_database_config : gmap string value :=
  {[ "name" := VString "db"; "engine" := VString "SQLITE";
     "version" := VString "3"; "production" := VBool false;
     "cluster_name" := VString ""; "db_name" := VString "app";
     "db_user" := VString "app" ]}.

Definition example_app_spec : AppSpec.t :=
  AppSpec.mk "app" "ams"
    (Some [Some (AppDomainSpec.mk "example.com")])
    (Some [Some example_service]) None None
    (Some [Some (AppDatabaseSpec.mk "db" "PG" "12" false "" "app" "app")]).

Definition in_bounds {A} (r : result A) : Prop := r ≠ Panic IndexOutOfRange.

(** What it means for [full] to embed the base next to the component's own
    attributes [own]: every base key with the base's definition, every own
    key with its own definition, and no other key. *)
Definition embeds_base (own full : gmap string Schema) : Prop :=
  (∀ k s, appSpecComponentBase !! k = Some s → full !! k = Some s)
  ∧ (∀ k s, own !! k = Some s → full !! k = Some s)
  ∧ dom full = dom appSpecComponentBase ∪ dom own
  ∧ dom appSpecComponentBase ## dom own.

(** A run of the sweeper: three buckets listed, the first in scope, the
    second with a foreign name, the third in another region. *)
Definition example_buckets : ListBucketsOutput.t * option string :=
  (ListBucketsOutput.mk
     [Bucket.mk (Some "tf-acc-1"); Bucket.mk (Some "prod-data");
      Bucket.mk (Some "tf-test-fra")], None).

Definition example_location (bucket : string)
    : ptr GetBucketLocationOutput.t * option string :=
  if String.eqb bucket "tf-test-fra"
  then (Some (GetBucketLocationOutput.mk (Some "fra1")), None)
  else (Some (GetBucketLocationOutput.mk None), None).

Definition example_sweep (region : string) : list call * outcome :=
  testSweepS3BucketObjects string id (Some Session.mk, None) example_buckets
    example_location
    (λ _ _ _, false) (λ _, None) region.

Definition domain_of (v : value) : AppDomainSpec.t :=
  match v with
  | VString s => AppDomainSpec.mk s
  | _ => AppDomainSpec.mk ""
  end.

Definition app_spec_of (v : value) : AppSpec.t :=
  match v with
  | VMap m =>
      AppSpec.mk (str m "name") (str m "region")
        (ptrs domain_of (Set_.List (set m "domains")))
        (ptrs service_of (lst m "service"))
        (ptrs static_site_of (lst m "static_site"))
        (ptrs worker_of (lst m "worker"))
        (ptrs database_of (lst m "database"))
  | _ => AppSpec.zero
  end.

(** [r] returns or panics with [p], never with another panic. *)
Definition panics_only {A} (p : panic) (r : result A) : Prop :=
  ∀ q, r = Panic q → q = p.

Definition example_app_config : gmap string value :=
  list_to_map
    [ ("name", VString "app");
      ("region", VString "ams");
      ("domains", VSet {[ EString "example.com" ]});
      ("service", VList [VMap example_service_config]);
      ("static_site", VList [VMap example_static_site_config]);
      ("worker", VList [VMap example_worker_config]);
      ("database", VList [VMap example_database_config]) ].

(** The hash code of the map [flattenAppEnvs] builds for a variable. *)
Definition env_code (x : AppVariableDefinition.t) : Z :=
  Set_.code (SetFunc_hash (HashResource appSpecEnvSchema)) (env_elem x).

(** The hash code of the string [flattenAppDomainSpec] builds for a domain. *)
Definition domain_code (d : AppDomainSpec.t) : Z :=
  hashcode_String (AppDomainSpec.Domain d).

(** [l'] keeps one item of [l] per code: it has no duplicates, its items
    are items of [l], every item of [l] has an item of [l'] with its code,
    and no two items of [l'] share a code. *)
Definition kept_per_code {A} (code : A → Z) (l l' : list A) : Prop :=
  NoDup l'
  ∧ (∀ x, x ∈ l' → x ∈ l)
  ∧ (∀ x, x ∈ l → ∃ y, y ∈ l' ∧ code y = code x)
  ∧ (∀ x y, x ∈ l' → y ∈ l' → code x = code y → x = y).

(** [code] gives the items of [l] pairwise distinct codes. *)
Definition codes_distinct {A} (code : A → Z) (l : list A) : Prop :=
  ∀ x y, x ∈ l → y ∈ l → code x = code y → x = y.

Definition example_github_config : gmap string value :=
  {[ "repo" := VString "owner/site"; "branch" := VString "main";
     "deploy_on_push" := VBool true ]}.

Definition example_git_config : gmap string value :=
  {[ "repo_clone_url" := VString "https://example.com/site.git";
     "branch" := VString "main" ]}.

Definition example_route_configs : list (gmap string value) :=
  [ {[ "path" := VString "/" ]}; {[ "path" := VString "/api" ]} ].

(** What [flattenAppSpecDatabases] stores for a configured database: the
    engine with the dynamic type [godo.AppDatabaseSpecEngine]. *)
Definition engine_typed (m : gmap string value) : gmap string value :=
  <["engine" := VEngine (str m "engine")]> m.

Definition example_postgres_config : gmap string value :=
  {[ "name" := VString "db"; "engine" := VString "PG";
     "version" := VString "12"; "production" := VBool true;
     "cluster_name" := VString "main"; "db_name" := VString "app";
     "db_user" := VString "app" ]}.

(** What [flattenAppSpec] stores under a component key: nothing for an empty
    list, the list of maps otherwise. *)
Definition component_list (l : list (gmap string value)) : option value :=
  match l with
  | [] => None
  | _ => Some (VMapList l)
  end.

Definition set_component (k : string) (l : list (gmap string value))
    (r : gmap string value) : gmap string value :=
  match l with
  | [] => r
  | _ => <[k := VMapList l]> r
  end.

Definition example_databases : slice (ptr AppDatabaseSpec.t) :=
  Some [Some (AppDatabaseSpec.mk "db" "PG" "12" false "" "app" "app")].

(** The environment variables [b] that come back for [a]: a slice that is not
    nil and keeps one of the variables [a] points to per hash code. *)
Definition same_envs (a b : slice (ptr AppVariableDefinition.t)) : Prop :=
  ∃ l l', elems a = Some <$> l ∧ b = Some (Some <$> l')
          ∧ kept_per_code env_code l l'.

(** The service [s'] that comes back for [s]: the same fields, the same
    routes in order (an empty slice comes back nil), of the variables one per
    hash code. *)
Definition same_service (s s' : AppServiceSpec.t) : Prop :=
  AppServiceSpec.Name s' = AppServiceSpec.Name s
  ∧ AppServiceSpec.RunCommand s' = AppServiceSpec.RunCommand s
  ∧ AppServiceSpec.BuildCommand s' = AppServiceSpec.BuildCommand s
  ∧ AppServiceSpec.HTTPPort s' = AppServiceSpec.HTTPPort s
  ∧ AppServiceSpec.DockerfilePath s' = AppServiceSpec.DockerfilePath s
  ∧ AppServiceSpec.InstanceSizeSlug s' = AppServiceSpec.InstanceSizeSlug s
  ∧ AppServiceSpec.InstanceCount s' = AppServiceSpec.InstanceCount s
  ∧ AppServiceSpec.SourceDir s' = AppServiceSpec.SourceDir s
  ∧ AppServiceSpec.EnvironmentSlug s' = AppServiceSpec.EnvironmentSlug s
  ∧ AppServiceSpec.GitHub s' = AppServiceSpec.GitHub s
  ∧ AppServiceSpec.Git s' = AppServiceSpec.Git s
  ∧ AppServiceSpec.HealthCheck s' = AppServiceSpec.HealthCheck s
  ∧ elems (AppServiceSpec.Routes s') = elems (AppServiceSpec.Routes s)
  ∧ (AppServiceSpec.Routes s' = None ↔ len (AppServiceSpec.Routes s) = 0%nat)
  ∧ same_envs (AppServiceSpec.Envs s) (AppServiceSpec.Envs s').

(** What the slices and the [int64] fields of a service need for the round
    trip: no nil pointer in a slice, and fields within the range of their
    type. *)
Definition service_in_range (s : AppServiceSpec.t) : Prop :=
  service_ok s = true
  ∧ in_int64 (AppServiceSpec.HTTPPort s)
  ∧ in_int64 (AppServiceSpec.InstanceCount s).

(** No deletion at the head of the calls, and every deletion directly after
    the location call for the same bucket. *)
Definition paired (calls : list call) : Prop :=
  (∀ bucket, calls !! 0%nat ≠ Some (CallDeleteAllS3ObjectVersions bucket))
  ∧ ∀ i bucket,
      calls !! S i = Some (CallDeleteAllS3ObjectVersions bucket) →
      calls !! i = Some (CallGetBucketLocation bucket).

(** A run in which the deletion of the first bucket in scope fails. *)
Definition example_failing_sweep (region : string) : list call * outcome :=
  testSweepS3BucketObjects string id (Some Session.mk, None) example_buckets example_location
    (λ _ _ _, false)
    (λ bucket, if String.eqb bucket "tf-acc-1" then Some "denied" else None)
    region.

(** The routes [b] that come back for [a]: the same in order, nil when [a]
    has none. *)
Definition same_routes (a b : slice (ptr AppRouteSpec.t)) : Prop :=
  elems b = elems a ∧ (b = None ↔ len a = 0%nat).

Definition same_static_site (s s' : AppStaticSiteSpec.t) : Prop :=
  ∃ envs routes,
    s' = AppStaticSiteSpec.mk (AppStaticSiteSpec.Name s)
           (AppStaticSiteSpec.BuildCommand s)
           (AppStaticSiteSpec.DockerfilePath s) envs
           (AppStaticSiteSpec.SourceDir s) (AppStaticSiteSpec.OutputDir s)
           (AppStaticSiteSpec.IndexDocument s)
           (AppStaticSiteSpec.ErrorDocument s)
           (AppStaticSiteSpec.EnvironmentSlug s) (AppStaticSiteSpec.GitHub s)
           (AppStaticSiteSpec.Git s) routes
    ∧ same_envs (AppStaticSiteSpec.Envs s) envs
    ∧ same_routes (AppStaticSiteSpec.Routes s) routes.

Definition same_worker (w w' : AppWorkerSpec.t) : Prop :=
  ∃ envs,
    w' = AppWorkerSpec.mk (AppWorkerSpec.Name w) (AppWorkerSpec.RunCommand w)
           (AppWorkerSpec.BuildCommand w) (AppWorkerSpec.DockerfilePath w)
           envs (AppWorkerSpec.InstanceSizeSlug w)
           (AppWorkerSpec.InstanceCount w) (AppWorkerSpec.SourceDir w)
           (AppWorkerSpec.EnvironmentSlug w) (AppWorkerSpec.GitHub w)
           (AppWorkerSpec.Git w)
    ∧ same_envs (AppWorkerSpec.Envs w) envs.

Definition worker_in_range (w : AppWorkerSpec.t) : Prop :=
  worker_ok w = true ∧ in_int64 (AppWorkerSpec.InstanceCount w).

Definition example_static_site : AppStaticSiteSpec.t :=
  AppStaticSiteSpec.mk "docs" "hugo" ""
    (Some [Some (AppVariableDefinition.mk "1" "BUILD_TIME" "DRAFTS" "GENERAL")])
    "/docs" "public" "index.html" "404.html" "hugo"
    None (Some (GitSourceSpec.mk "https://example.com/docs.git" "main"))
    None.

Definition example_worker : AppWorkerSpec.t :=
  AppWorkerSpec.mk "queue" "bin/worker" "make" "" None "basic-xxs" 1 "/" "go"
    (Some (GitHubSourceSpec.mk "owner/repo" "main" false)) None.

(** The permissions of a list of grants, in order; [None] when a grant or
    its permission is nil. *)
Fixpoint permissions (grants : list (ptr Grant.t)) : option (list string) :=
  match grants with
  | [] => Some []
  | g :: rest =>
      match g, permissions rest with
      | Some (Grant.mk (Some p)), Some ps => Some (p :: ps)
      | _, _ => None
      end
  end.

(** Two answers of [GetObjectAcl] with the same error and the same grants
    up to their order. *)
Definition same_grants {error}
    (a b : ptr GetObjectAclOutput.t * option error) : Prop :=
  a.2 = b.2
  ∧ match a.1, b.1 with
    | Some x, Some y => GetObjectAclOutput.Grants x ≡ₚ GetObjectAclOutput.Grants y
    | None, None => True
    | _, _ => False
    end.

(** What the destroy check needs of a resource to go on to the next: it is
    not nil and, if it is a bucket object, [HeadObject] fails for it. *)
Definition destroyed {error}
    (HeadObject : HeadObjectInput.t → ptr HeadObjectOutput.t * option error)
    (p : ptr ResourceState.t) : Prop :=
  ∃ rs, p = Some rs
        ∧ (ResourceState.Type_ rs = "digitalocean_spaces_bucket_object" →
           ∃ primary,
             ResourceState.Primary rs = Some primary
             ∧ is_Some (HeadObject
                 (HeadObjectInput.mk
                    (Some (attribute (InstanceState.Attributes primary) "bucket"))
                    (Some (attribute (InstanceState.Attributes primary) "key"))
                    (Some (attribute (InstanceState.Attributes primary) "etag")))).2).

(** An object with two grants, listed in either order. *)
Definition example_state : gmap string (ptr ResourceState.t) :=
  {[ "digitalocean_spaces_bucket_object.object" :=
       Some (ResourceState.mk "digitalocean_spaces_bucket_object"
               (Some (InstanceState.mk "tf-object"
                        {[ "bucket" := "tf-bucket"; "key" := "tf-object" ]}))) ]}.

Definition example_acl (perms : list string) (bucket key : string)
    : ptr GetObjectAclOutput.t * option string :=
  (Some (GetObjectAclOutput.mk ((λ p, Some (Grant.mk (Some p))) <$> perms)),
   None).

(** * Properties *)

(** * Hash codes and sets *)

(** ** CRC-32 *)

Lemma N_lxor_lt (n a b : N) :
  (a < 2 ^ n → b < 2 ^ n → N.lxor a b < 2 ^ n)%N.
Proof.
  intros Ha Hb.
  assert (Hlog : ∀ x, (x < 2 ^ n → x ≠ 0 → N.log2 x < n)%N).
  { intros x Hx Hne. apply N.log2_lt_pow2; [lia|done]. }
  destruct (N.eq_dec a 0%N) as [->|Hna]; [by rewrite N.lxor_0_l|].
  destruct (N.eq_dec b 0%N) as [->|Hnb]; [by rewrite N.lxor_0_r|].
  destruct (N.eq_dec (N.lxor a b) 0%N) as [->|Hne]; [lia|].
  apply N.log2_lt_pow2; [lia|].
  eapply N.le_lt_trans; [apply N.log2_lxor|].
  apply N.max_lub_lt; by apply Hlog.
Qed.

Lemma crc32_bit_lt c : (c < 2 ^ 32 → crc32_bit c < 2 ^ 32)%N.
Proof.
  intros Hc. unfold crc32_bit.
  assert (N.shiftr c 1 < 2 ^ 32)%N.
  { rewrite N.shiftr_div_pow2. change (2 ^ 1)%N with 2%N.
    eapply N.le_lt_trans; [|exact Hc]. apply N.Div0.div_le_upper_bound; lia. }
  destruct (N.odd c); [|done].
  apply N_lxor_lt; [done|]. by vm_compute.
Qed.

Lemma crc32_byte_lt c b : (c < 2 ^ 32 → crc32_byte c b < 2 ^ 32)%N.
Proof.
  intros Hc. unfold crc32_byte.
  assert (H0 : (N.lxor c (Ascii.N_of_ascii b) < 2 ^ 32)%N).
  { apply N_lxor_lt; [done|].
    eapply N.lt_trans; [apply Ascii.N_ascii_bounded|]. by vm_compute. }
  generalize dependent (N.lxor c (Ascii.N_of_ascii b)). intros x Hx.
  do 8 (cbn [Nat.iter nat_rect]; try apply crc32_bit_lt). done.
Qed.

Lemma crc32_update_lt c s : (c < 2 ^ 32 → crc32_update c s < 2 ^ 32)%N.
Proof.
  revert c. induction s as [|b s IH]; intros c Hc; cbn; [done|].
  by apply IH, crc32_byte_lt.
Qed.

Lemma crc32_update_app c s1 s2 :
  crc32_update c (s1 +:+ s2) = crc32_update (crc32_update c s1) s2.
Proof. revert c. induction s1 as [|b s1 IH]; intros c; cbn; [done|apply IH]. Qed.

Lemma ChecksumIEEE_lt s : (ChecksumIEEE s < 2 ^ 32)%N.
Proof.
  apply N_lxor_lt; [|by vm_compute]. apply crc32_update_lt. by vm_compute.
Qed.

(** Two strings with the same checksum keep it when the same text is
    appended to both. *)
Lemma ChecksumIEEE_app s1 s2 t :
  ChecksumIEEE s1 = ChecksumIEEE s2 →
  ChecksumIEEE (s1 +:+ t) = ChecksumIEEE (s2 +:+ t).
Proof.
  unfold ChecksumIEEE. intros H.
  assert (crc32_update 0xffffffff%N s1 = crc32_update 0xffffffff%N s2) as Heq.
  { apply (f_equal (λ x, N.lxor x 0xffffffff%N)) in H.
    by rewrite !N.lxor_assoc, !N.lxor_nilpotent, !N.lxor_0_r in H. }
  by rewrite !crc32_update_app, Heq.
Qed.

Lemma hashcode_String_checksum s :
  hashcode_String s = Z.of_N (ChecksumIEEE s).
Proof.
  pose proof (ChecksumIEEE_lt s) as Hlt. unfold hashcode_String.
  assert (Hint : int (Z.of_N (ChecksumIEEE s)) = Z.of_N (ChecksumIEEE s)).
  { unfold int, wrap, intBits. rewrite Z.mod_small; lia. }
  rewrite Hint. destruct (0 <=? _) eqn:H0; [done|].
  apply Z.leb_gt in H0. lia.
Qed.

Lemma hashcode_String_nonneg s : 0 ≤ hashcode_String s.
Proof. rewrite hashcode_String_checksum. lia. Qed.

Lemma hashcode_String_app s1 s2 t :
  hashcode_String s1 = hashcode_String s2 →
  hashcode_String (s1 +:+ t) = hashcode_String (s2 +:+ t).
Proof.
  rewrite !hashcode_String_checksum. intros H%(inj Z.of_N).
  by rewrite (ChecksumIEEE_app s1 s2 t H).
Qed.

Lemma code_nonneg F x : 0 ≤ F x → Set_.code F x = F x.
Proof.
  intros H. unfold Set_.code. cbn zeta.
  destruct (F x <? 0) eqn:Hneg; [|done]. apply Z.ltb_lt in Hneg. lia.
Qed.

Lemma code_HashString d : Set_.code HashString (EString d) = hashcode_String d.
Proof. apply code_nonneg, hashcode_String_nonneg. Qed.

Lemma code_HashSchema s d :
  Type_ s = TypeString →
  Set_.code (HashSchema s) (EString d) = hashcode_String (d +:+ ";").
Proof.
  intros Hs. rewrite code_nonneg; cbn; rewrite Hs; [done|].
  apply hashcode_String_nonneg.
Qed.

(** A set of strings as the SDK builds it by default holds one string per
    code of [HashString] as well. *)
Lemma one_per_code_strings s (st : gset selem) :
  Type_ s = TypeString →
  (∀ e, e ∈ st → ∃ d, e = EString d) →
  one_per_code (HashSchema s) st → one_per_code HashString st.
Proof.
  intros Hs Hstr Hst x y Hx Hy Hcode.
  destruct (Hstr x Hx) as [dx ->], (Hstr y Hy) as [dy ->].
  apply (Hst _ _ Hx Hy). rewrite !code_HashString in Hcode.
  rewrite !(code_HashSchema s) by done. by apply hashcode_String_app.
Qed.

(** ** Adding to a set *)

Lemma Add_cases F e (s : gset selem) :
  (Set_.Add F e s = s ∧ ∃ x, x ∈ s ∧ Set_.code F x = Set_.code F e)
  ∨ (Set_.Add F e s = {[ e ]} ∪ s
     ∧ ∀ x, x ∈ s → Set_.code F x ≠ Set_.code F e).
Proof.
  unfold Set_.Add.
  destruct (existsb _ (elements s)) eqn:Hex.
  - left. split; [done|].
    apply existsb_exists in Hex as (x & Hx & Heq).
    exists x. split; [by apply elem_of_elements, list_elem_of_In|].
    by apply Z.eqb_eq.
  - right. split; [done|]. intros x Hx Heq.
    assert (existsb (λ x, Set_.code F x =? Set_.code F e) (elements s) = true);
      [|congruence].
    apply existsb_exists. exists x.
    split; [by apply list_elem_of_In, elem_of_elements|]. by apply Z.eqb_eq.
Qed.

Lemma foldl_Add {A} F (e : A → selem) (l : list A) (acc : gset selem) :
  foldl (λ acc x, Set_.Add F (e x) acc) acc l = add_all F (e <$> l) acc.
Proof.
  unfold add_all. revert acc. induction l as [|x l IH]; intros acc; cbn; [done|].
  apply IH.
Qed.

Lemma add_all_acc F l acc x : x ∈ acc → x ∈ add_all F l acc.
Proof.
  unfold add_all. revert acc. induction l as [|e l IH]; intros acc Hx; cbn;
    [done|].
  apply IH. destruct (Add_cases F e acc) as [[-> _]|[-> _]]; set_solver.
Qed.

Lemma add_all_sub F l acc x : x ∈ add_all F l acc → x ∈ l ∨ x ∈ acc.
Proof.
  unfold add_all. revert acc. induction l as [|e l IH]; intros acc; cbn.
  - by right.
  - intros [Hx|Hx]%IH; [left; by right|].
    destruct (Add_cases F e acc) as [[Heq _]|[Heq _]]; rewrite Heq in Hx.
    + by right.
    + apply elem_of_union in Hx as [->%elem_of_singleton|Hx];
        [left; by left|by right].
Qed.

Lemma add_all_code F l acc x :
  x ∈ l → ∃ y, y ∈ add_all F l acc ∧ Set_.code F y = Set_.code F x.
Proof.
  revert acc. induction l as [|e l IH]; intros acc; [by intros ?%elem_of_nil|].
  intros [->|Hx]%elem_of_cons; [|by apply IH].
  change (add_all F (e :: l) acc) with (add_all F l (Set_.Add F e acc)).
  destruct (Add_cases F e acc) as [[-> (y & Hy & Hc)]|[-> _]].
  - exists y. split; [by apply add_all_acc|done].
  - exists e. split; [apply add_all_acc; set_solver|done].
Qed.

Lemma add_all_one_per_code F l acc :
  one_per_code F acc → one_per_code F (add_all F l acc).
Proof.
  unfold add_all. revert acc. induction l as [|e l IH]; intros acc Hacc; cbn;
    [done|].
  apply IH. destruct (Add_cases F e acc) as [[-> _]|[-> Hnew]]; [done|].
  intros x y [->%elem_of_singleton|Hx]%elem_of_union
    [->%elem_of_singleton|Hy]%elem_of_union Hc; try done.
  - symmetry in Hc. by destruct (Hnew y Hy).
  - by destruct (Hnew x Hx).
  - by apply Hacc.
Qed.

Lemma one_per_code_empty F : one_per_code F ∅.
Proof. intros x y Hx. by apply elem_of_empty in Hx. Qed.

(** Without two items of the same code nothing is dropped. *)
Lemma add_all_distinct F l (acc : gset selem) :
  distinct_codes F (l ++ elements acc) →
  add_all F l acc = list_to_set l ∪ acc.
Proof.
  unfold add_all. revert acc. induction l as [|e l IH]; intros acc Hd; cbn.
  - by rewrite (left_id_L ∅ (∪)).
  - assert (Hin : ∀ x, x ∈ l ++ elements ({[ e ]} ∪ acc) →
                       x ∈ (e :: l) ++ elements acc).
    { intros x. rewrite !elem_of_app, !elem_of_elements, elem_of_cons.
      set_solver. }
    assert (Hadd : Set_.Add F e acc = {[ e ]} ∪ acc).
    { destruct (Add_cases F e acc) as [[-> (x & Hx & Hc)]|[-> _]]; [|done].
      assert (x = e) as ->; [|set_solver].
      apply Hd; [|by left|done].
      apply elem_of_app. right. by apply elem_of_elements. }
    rewrite Hadd, IH; [set_solver|].
    intros x y Hx Hy. apply Hd; by apply Hin.
Qed.

(** Adding the items of a set built with [F] to an empty set gives the set
    back. *)
Lemma add_all_elements F (st : gset selem) :
  one_per_code F st → add_all F (elements st) ∅ = st.
Proof.
  intros Hst. rewrite add_all_distinct.
  - rewrite (right_id_L ∅ (∪)). apply list_to_set_elements_L.
  - rewrite elements_empty, app_nil_r.
    intros x y Hx%elem_of_elements Hy%elem_of_elements. by apply Hst.
Qed.

Lemma add_all_fmap_elements {A} F (f : selem → A) (g : A → selem)
    (st : gset selem) :
  (∀ e, e ∈ st → g (f e) = e) →
  one_per_code F st → add_all F (g <$> (f <$> elements st)) ∅ = st.
Proof.
  intros Hgf Hst. rewrite <- list_fmap_compose.
  rewrite <- (add_all_elements F st Hst) at 2. f_equal.
  rewrite <- (list_fmap_id (elements st)) at 2.
  apply Forall_fmap_ext_1, Forall_forall.
  intros e He%elem_of_elements. by apply Hgf.
Qed.

(** * General facts about the monadic loops *)

Lemma bind_Ok {A B} (r : result A) (f : A → result B) (b : B) :
  r ≫= f = Ok b ↔ ∃ a, r = Ok a ∧ f a = Ok b.
Proof.
  destruct r as [a|p]; simpl.
  - split; [eauto | by intros (? & [= <-] & ?)].
  - split; [done | by intros (? & ? & ?)].
Qed.

Lemma mapM_fmap {A B C} (f : B → result C) (g : A → B) (h : A → C) (l : list A) :
  (∀ x, x ∈ l → f (g x) = Ok (h x)) → mapM f (g <$> l) = Ok (h <$> l).
Proof.
  induction l as [|x l IH]; intros Hf; [done|].
  cbn. rewrite Hf by left. cbn. rewrite IH; [done|].
  intros y Hy. apply Hf. by right.
Qed.

Lemma mapM_length {A B} (f : A → result B) (l : list A) (r : list B) :
  mapM f l = Ok r → length r = length l.
Proof.
  revert r. induction l as [|x l IH]; intros r; cbn.
  - by intros [= <-].
  - destruct (f x); [|done]. cbn. destruct (mapM f l); [|done].
    cbn. intros [= <-]. cbn. f_equal. by apply IH.
Qed.

Lemma mapM_lookup {A B} (f : A → result B) (l : list A) (r : list B) i x :
  mapM f l = Ok r → l !! i = Some x → ∃ y, f x = Ok y ∧ r !! i = Some y.
Proof.
  revert r i. induction l as [|a l IH]; intros r i; cbn; [done|].
  destruct (f a) as [b|] eqn:Hb; [|done]. cbn.
  destruct (mapM f l) as [bs|]; [|done]. cbn. intros [= <-].
  destruct i as [|i]; cbn.
  - intros [= <-]. eauto.
  - intros Hi. by apply IH.
Qed.

Lemma foldM_deref {A St} (g : St → A → St) (l : list A) (acc : St) :
  foldM (λ acc p, x ← deref p; Ok (g acc x)) (Some <$> l) acc
  = Ok (foldl g acc l).
Proof.
  revert acc. induction l as [|x l IH]; intros acc; [done|].
  cbn. apply IH.
Qed.

(** The pointers of a slice that holds no nil pointer. *)
Lemma no_nil_elems {A} (s : slice (ptr A)) :
  no_nil s = true → ∃ l, elems s = Some <$> l.
Proof.
  unfold no_nil. induction (elems s) as [|p l IH]; cbn.
  - by exists [].
  - rewrite andb_true_iff, bool_decide_eq_true. intros [[x ->] Hl].
    destruct (IH Hl) as [l' ->]. by exists (x :: l').
Qed.

#[global] Instance prim_value_inj : Inj (=) (=) prim_value.
Proof. by intros [] [] [= ->]. Qed.

#[global] Instance selem_value_inj : Inj (=) (=) selem_value.
Proof.
  intros [s1|m1] [s2|m2]; cbn; try done.
  - by intros [= ->].
  - intros [= H]. f_equal. by apply (inj (fmap prim_value)) in H.
Qed.

#[global] Instance EString_inj : Inj (=) (=) EString.
Proof. by intros ?? [= ->]. Qed.

Lemma NoDup_Set_List (st : gset selem) : NoDup (Set_.List st).
Proof. apply (NoDup_fmap_2 _), NoDup_elements. Qed.

Lemma elem_of_Set_List (st : gset selem) (e : selem) :
  selem_value e ∈ Set_.List st ↔ e ∈ st.
Proof.
  unfold Set_.List. rewrite (list_elem_of_fmap_inj _). apply elem_of_elements.
Qed.

Lemma expandAppDomainSpec_strings (strs : list string) :
  expandAppDomainSpec (VString <$> strs)
  = Ok (Some (Some <$> (AppDomainSpec.mk <$> strs))).
Proof.
  unfold expandAppDomainSpec.
  rewrite (mapM_fmap _ VString (λ d, Some (AppDomainSpec.mk d))) by done.
  cbn. by rewrite <- list_fmap_compose.
Qed.

Lemma flattenAppDomainSpec_ptrs (spec : list AppDomainSpec.t) :
  flattenAppDomainSpec (Some (Some <$> spec))
  = Ok (add_all HashString
          ((λ d, EString (AppDomainSpec.Domain d)) <$> spec) ∅).
Proof.
  unfold flattenAppDomainSpec.
  rewrite (foldM_deref
             (λ result d, Set_.Add HashString (EString (AppDomainSpec.Domain d))
                            result)).
  by rewrite foldl_Add.
Qed.

Lemma distinct_hashes_codes (l : list string) :
  distinct_hashes l → distinct_codes HashString (EString <$> l).
Proof.
  intros Hl x y (d & -> & Hd)%list_elem_of_fmap (d' & -> & Hd')%list_elem_of_fmap.
  rewrite !code_HashString. intros Hc. f_equal. by apply Hl.
Qed.

Lemma flatten_domain_strings (strs : list string) :
  ∃ st, st = add_all HashString (EString <$> strs) ∅
        ∧ (∀ e, e ∈ st → ∃ d, e = EString d ∧ d ∈ strs)
        ∧ (∀ d, d ∈ strs →
                ∃ d', EString d' ∈ st ∧ hashcode_String d' = hashcode_String d)
        ∧ one_per_code HashString st
        ∧ (distinct_hashes strs → st = list_to_set (EString <$> strs)).
Proof.
  eexists. split; [done|]. split; [|split; [|split]].
  - intros e [He|He]%add_all_sub; [|by apply elem_of_empty in He].
    apply list_elem_of_fmap in He as (d & -> & Hd). by exists d.
  - intros d Hd.
    destruct (add_all_code HashString (EString <$> strs) ∅ (EString d))
      as (y & Hy & Hc); [by apply list_elem_of_fmap_2|].
    pose proof Hy as [Hy'|Hy']%add_all_sub; [|by apply elem_of_empty in Hy'].
    apply list_elem_of_fmap in Hy' as (d' & -> & _).
    exists d'. split; [done|]. by rewrite !code_HashString in Hc.
  - apply add_all_one_per_code, one_per_code_empty.
  - intros Hd. rewrite add_all_distinct.
    + by rewrite (right_id_L ∅ (∪)).
    + rewrite elements_empty, app_nil_r. by apply distinct_hashes_codes.
Qed.

(** C5. [expandAppDomainSpec] maps a list of strings to the domain specs of
    these strings, in order and of the same length.  [flattenAppDomainSpec]
    maps a list of domain specs to a set of their [Domain] strings that
    holds one string per hash code: every member is a [Domain] of the list,
    every [Domain] of the list has a member with its hash code, and the
    listing has no duplicates.  When the hash codes of the strings are
    pairwise distinct the set is exactly the set of the strings.  The same
    holds for flattening the expansion of a list of strings. *)
Theorem expand_flatten_domain_spec (strs : list string) (spec : list AppDomainSpec.t) :
  (∃ ds, expandAppDomainSpec (VString <$> strs) = Ok (Some ds)
         ∧ length ds = length strs
         ∧ ∀ i d, strs !! i = Some d →
                  ds !! i = Some (Some (AppDomainSpec.mk d)))
  ∧ (∃ st, flattenAppDomainSpec (Some (Some <$> spec)) = Ok st
           ∧ (∀ e, e ∈ st → ∃ d, e = EString d ∧ d ∈ AppDomainSpec.Domain <$> spec)
           ∧ (∀ d, d ∈ AppDomainSpec.Domain <$> spec →
                   ∃ d', EString d' ∈ st
                         ∧ hashcode_String d' = hashcode_String d)
           ∧ one_per_code HashString st
           ∧ NoDup (Set_.List st)
           ∧ (distinct_hashes (AppDomainSpec.Domain <$> spec) →
              ∀ e, e ∈ st ↔ ∃ d, e = EString d ∧ d ∈ AppDomainSpec.Domain <$> spec))
  ∧ (∃ ds st, expandAppDomainSpec (VString <$> strs) = Ok ds
              ∧ flattenAppDomainSpec ds = Ok st
              ∧ (∀ d, VString d ∈ Set_.List st → d ∈ strs)
              ∧ (∀ d, d ∈ strs →
                      ∃ d', VString d' ∈ Set_.List st
                            ∧ hashcode_String d' = hashcode_String d)
              ∧ (distinct_hashes strs →
                 st = list_to_set (EString <$> strs)
                 ∧ ∀ d, VString d ∈ Set_.List st ↔ d ∈ strs)).
Proof.
  split; [|split].
  - eexists. split; [apply expandAppDomainSpec_strings|].
    split; [by rewrite !length_fmap|].
    intros i d Hd. by rewrite !list_lookup_fmap, Hd.
  - destruct (flatten_domain_strings (AppDomainSpec.Domain <$> spec))
      as (st & Hst & Hsub & Hcode & Hone & Heq).
    exists st. split.
    { rewrite flattenAppDomainSpec_ptrs, Hst. by rewrite <- list_fmap_compose. }
    split; [done|]. split; [done|]. split; [done|].
    split; [apply NoDup_Set_List|].
    intros Hd e. split; [apply Hsub|].
    intros (d & -> & Hin). rewrite (Heq Hd).
    by apply elem_of_list_to_set, list_elem_of_fmap_2.
  - destruct (flatten_domain_strings strs)
      as (st & Hst & Hsub & Hcode & Hone & Heq).
    eexists _, st. split; [apply expandAppDomainSpec_strings|].
    split.
    { rewrite flattenAppDomainSpec_ptrs, Hst, <- !list_fmap_compose.
      do 2 f_equal. }
    split; [|split].
    + intros d. change (VString d) with (selem_value (EString d)).
      rewrite elem_of_Set_List. intros He.
      destruct (Hsub _ He) as (d' & [= <-] & Hd'). done.
    + intros d Hd. destruct (Hcode d Hd) as (d' & Hd' & Hc).
      exists d'. split; [|done].
      change (VString d') with (selem_value (EString d')).
      by apply elem_of_Set_List.
    + intros Hd. split; [by apply Heq|].
      intros d. change (VString d) with (selem_value (EString d)).
      rewrite elem_of_Set_List, (Heq Hd), elem_of_list_to_set.
      apply (list_elem_of_fmap_inj _).
Qed.

(** Two domains with the same CRC-32: the flattened set keeps the first. *)
Lemma flatten_domain_spec_collision :
  hashcode_String "plumless" = hashcode_String "buckeroo"
  ∧ flattenAppDomainSpec
      (Some [Some (AppDomainSpec.mk "plumless");
             Some (AppDomainSpec.mk "buckeroo")])
    = Ok {[ EString "plumless" ]}
  ∧ EString "buckeroo" ∉ ({[ EString "plumless" ]} : gset selem).
Proof.
  assert (Hc : hashcode_String "plumless" = hashcode_String "buckeroo")
    by (vm_compute; reflexivity).
  split; [exact Hc|]. split; [|by intros [=]%elem_of_singleton].
  etrans;
    [exact (flattenAppDomainSpec_ptrs
              [AppDomainSpec.mk "plumless"; AppDomainSpec.mk "buckeroo"])|].
  apply (f_equal Ok). unfold add_all.
  cbn [fmap list_fmap foldl AppDomainSpec.Domain].
  assert (H1 : Set_.Add HashString (EString "plumless") ∅
               = {[ EString "plumless" ]}).
  { destruct (Add_cases HashString (EString "plumless") ∅)
      as [[_ (x & Hx & _)]|[-> _]]; [by apply elem_of_empty in Hx|].
    by rewrite (right_id_L ∅ (∪)). }
  rewrite H1.
  destruct (Add_cases HashString (EString "buckeroo") {[ EString "plumless" ]})
    as [[-> _]|[_ Hnew]]; [done|].
  destruct (Hnew (EString "plumless")); [by apply elem_of_singleton|].
  by rewrite !code_HashString.
Qed.

Lemma foldM_from_insert {A B} (g : A → result B) (l : list A) (ys : list B)
    (i : nat) (acc : list B) :
  mapM g l = Ok ys → length acc = (i + length l)%nat →
  foldM_from (λ acc i x, r ← g x; Ok (<[i:=r]> acc)) i l acc
  = Ok (take i acc ++ ys).
Proof.
  revert ys i acc. induction l as [|x l IH]; intros ys i acc; cbn.
  - intros [= <-] Hlen. rewrite app_nil_r, take_ge; [done|lia].
  - destruct (g x) as [y|] eqn:Hy; [|done]. cbn.
    destruct (mapM g l) as [ys'|] eqn:Hys; [|done]. cbn.
    intros [= <-] Hlen.
    rewrite (IH ys' (S i) (<[i:=y]> acc)); [|done|rewrite length_insert; lia].
    f_equal.
    rewrite (take_S_r _ _ y) by (apply list_lookup_insert_eq; lia).
    rewrite take_insert_ge by lia. by rewrite <- app_assoc.
Qed.

Lemma flatten_loop {A} (g : ptr A → result (gmap string value))
    (s : slice (ptr A)) (ys : list (gmap string value)) :
  mapM g (elems s) = Ok ys →
  foldM_from (λ result i x, r ← g x; Ok (<[i:=r]> result)) 0%nat (elems s)
    (replicate (len s) ∅) = Ok ys.
Proof.
  intros Hys. rewrite (foldM_from_insert g _ ys); [done..|].
  by rewrite length_replicate.
Qed.

Lemma foldM_deref_elems {A St} (g : St → A → St) (s : slice (ptr A))
    (l : list A) (acc : St) :
  elems s = Some <$> l →
  match s with
  | Some l' => foldM (λ acc p, x ← deref p; Ok (g acc x)) l' acc
  | None => Ok acc
  end = Ok (foldl g acc l).
Proof.
  destruct s as [l'|]; cbn.
  - intros ->. apply foldM_deref.
  - destruct l; [done|]. done.
Qed.

Lemma foldl_snoc {A B} (f : A → B) (l : list A) (acc : list B) :
  foldl (λ acc x, acc ++ [f x]) acc l = acc ++ (f <$> l).
Proof.
  revert acc. induction l as [|x l IH]; intros acc; cbn.
  - by rewrite app_nil_r.
  - by rewrite IH, <- app_assoc.
Qed.

Lemma flattenAppRoutes_ok (routes : slice (ptr AppRouteSpec.t)) l :
  elems routes = Some <$> l →
  flattenAppRoutes routes = Ok (route_value <$> l).
Proof.
  intros Hl. unfold flattenAppRoutes.
  rewrite (foldM_deref_elems (λ result route, result ++ [route_value route]) _ l) by done.
  by rewrite foldl_snoc.
Qed.

Lemma flattenAppEnvs_ok (envs : slice (ptr AppVariableDefinition.t)) l :
  elems envs = Some <$> l →
  flattenAppEnvs envs
  = Ok (add_all (SetFunc_hash (HashResource appSpecEnvSchema))
          (env_elem <$> l) ∅).
Proof.
  intros Hl. unfold flattenAppEnvs.
  rewrite (foldM_deref_elems
             (λ result env,
                Set_.Add (SetFunc_hash (HashResource appSpecEnvSchema))
                  (env_elem env) result) _ l) by done.
  by rewrite foldl_Add.
Qed.

Lemma all_ok_lookup {A} (ok : A → bool) (s : slice (ptr A)) i p :
  all_ok ok s = true → elems s !! i = Some p → ∃ x, p = Some x ∧ ok x = true.
Proof.
  unfold all_ok. rewrite forallb_forall. intros Hall Hi.
  specialize (Hall p). destruct p as [x|]; cbn in Hall.
  - exists x. split; [done|]. apply Hall, list_elem_of_In, list_elem_of_lookup. eauto.
  - discriminate Hall. apply list_elem_of_In, list_elem_of_lookup. eauto.
Qed.

Lemma mapM_ok {A B} (f : A → result B) (l : list A) :
  (∀ x, x ∈ l → ∃ y, f x = Ok y) → ∃ ys, mapM f l = Ok ys.
Proof.
  induction l as [|x l IH]; intros Hf; cbn; [by eexists|].
  destruct (Hf x) as [y ->]; [by left|].
  destruct IH as [ys ->]; [|by eexists].
  intros z Hz. apply Hf. by right.
Qed.

Lemma flattenAppSpecServices_item_ok (s : AppServiceSpec.t) :
  service_ok s = true →
  ∃ routes envs,
    flattenAppRoutes (AppServiceSpec.Routes s) = Ok routes
    ∧ flattenAppEnvs (AppServiceSpec.Envs s) = Ok envs
    ∧ flattenAppSpecServices_item (Some s)
      = Ok (list_to_map
             [ ("name", VString (AppServiceSpec.Name s));
               ("run_command", VString (AppServiceSpec.RunCommand s));
               ("build_command", VString (AppServiceSpec.BuildCommand s));
               ("http_port", VInt (int (AppServiceSpec.HTTPPort s)));
               ("instance_size_slug", VString (AppServiceSpec.InstanceSizeSlug s));
               ("instance_count", VInt (int (AppServiceSpec.InstanceCount s)));
               ("source_dir", VString (AppServiceSpec.SourceDir s));
               ("environment_slug", VString (AppServiceSpec.EnvironmentSlug s));
               ("dockerfile_path", VString (AppServiceSpec.DockerfilePath s));
               ("github", VList (flattenAppGitHubSourceSpec (AppServiceSpec.GitHub s)));
               ("git", VList (flattenAppGitSourceSpec (AppServiceSpec.Git s)));
               ("routes", VList routes);
               ("env", VSet envs);
               ("health_check", VList (flattenAppHealthCheck (AppServiceSpec.HealthCheck s))) ]).
Proof.
  unfold service_ok. rewrite andb_true_iff. intros [He Hr].
  apply no_nil_elems in He as [le He], Hr as [lr Hr].
  eexists _, _. split; [by apply flattenAppRoutes_ok|].
  split; [by apply flattenAppEnvs_ok|].
  unfold flattenAppSpecServices_item. cbn.
  rewrite (flattenAppRoutes_ok _ lr), (flattenAppEnvs_ok _ le) by done. cbn.
  reflexivity.
Qed.

Lemma flattenAppSpecServices_item_map (s : AppServiceSpec.t) :
  service_ok s = true →
  ∃ routes envs,
    flattenAppRoutes (AppServiceSpec.Routes s) = Ok routes
    ∧ flattenAppEnvs (AppServiceSpec.Envs s) = Ok envs
    ∧ flattenAppSpecServices_item (Some s) = Ok (service_map s routes envs).
Proof. apply flattenAppSpecServices_item_ok. Qed.

Lemma flatten_loop_ok {A} (g : ptr A → result (gmap string value))
    (ok : A → bool) (s : slice (ptr A)) :
  (∀ x, ok x = true → is_ok (g (Some x)) = true) →
  all_ok ok s = true →
  ∃ ys, mapM g (elems s) = Ok ys
        ∧ foldM_from (λ result i x, r ← g x; Ok (<[i:=r]> result)) 0%nat
            (elems s) (replicate (len s) ∅) = Ok ys.
Proof.
  intros Hg Hall.
  destruct (mapM_ok g (elems s)) as [ys Hys].
  - intros p [i Hi]%list_elem_of_lookup.
    destruct (all_ok_lookup _ _ _ _ Hall Hi) as (x & -> & Hx).
    specialize (Hg x Hx). destruct (g (Some x)); cbn in Hg; [by eexists|done].
  - exists ys. split; [done|]. by apply flatten_loop.
Qed.

(** C3. On a slice of services (no nil pointer in it or in the routes and
    environment variables of a service), [flattenAppSpecServices] returns a
    list of the same length whose [i]-th map is that of the [i]-th service:
    its scalar fields under their keys, with [http_port] and
    [instance_count] converted by [int], and GitHub, Git, Routes, Envs and
    HealthCheck flattened by their own functions. *)
Theorem flattenAppSpecServices_fields (services : slice (ptr AppServiceSpec.t)) :
  all_ok service_ok services = true →
  ∃ r, flattenAppSpecServices services = Ok r
       ∧ length r = len services
       ∧ ∀ i, (i < len services)%nat →
           ∃ s routes envs,
             elems services !! i = Some (Some s)
             ∧ flattenAppRoutes (AppServiceSpec.Routes s) = Ok routes
             ∧ flattenAppEnvs (AppServiceSpec.Envs s) = Ok envs
             ∧ r !! i = Some (service_map s routes envs).
Proof.
  intros Hall.
  destruct (flatten_loop_ok flattenAppSpecServices_item service_ok services)
    as (r & Hmap & Hloop); [|done|].
  { intros s Hs.
    by destruct (flattenAppSpecServices_item_map s Hs) as (? & ? & _ & _ & ->). }
  exists r. split; [done|].
  split; [by apply mapM_length in Hmap|].
  intros i Hi. apply lookup_lt_is_Some_2 in Hi as [p Hp].
  destruct (all_ok_lookup _ _ _ _ Hall Hp) as (s & -> & Hs).
  destruct (flattenAppSpecServices_item_map s Hs) as (routes & envs & Hr & He & Hitem).
  destruct (mapM_lookup _ _ _ _ _ Hmap Hp) as (y & Hy & Hri).
  exists s, routes, envs. rewrite Hitem in Hy. injection Hy as <-. auto.
Qed.

Lemma flattenAppSpecServices_fields_witness :
  ∃ r, flattenAppSpecServices (Some [Some example_service]) = Ok r
       ∧ length r = 1%nat
       ∧ ∀ i, (i < 1)%nat →
           ∃ s routes envs,
             [Some example_service] !! i = Some (Some s)
             ∧ flattenAppRoutes (AppServiceSpec.Routes s) = Ok routes
             ∧ flattenAppEnvs (AppServiceSpec.Envs s) = Ok envs
             ∧ r !! i = Some (service_map s routes envs).
Proof.
  apply (flattenAppSpecServices_fields (Some [Some example_service])).
  reflexivity.
Defined.

(** * Reading a well-typed map *)

Section wt.
Context (strict : bool) (sch : gmap string Schema) (m : gmap string value).
Hypothesis Hwt : wt_elem strict (ElemResource (mkResource sch)) (VMap m).

Lemma wt_lookup k s :
  sch !! k = Some s → ∃ v, m !! k = Some v ∧ wt_value strict s v.
Proof using Hwt.
  intros Hk. inversion Hwt as [|r m' Hdom Hval]; subst. cbn in *.
  assert (Hin : k ∈ dom m) by (rewrite Hdom; by apply elem_of_dom_2 in Hk).
  apply elem_of_dom in Hin as [v Hv]. eauto.
Qed.

Lemma wt_lookup_None k : sch !! k = None → m !! k = None.
Proof using Hwt.
  intros Hk. inversion Hwt as [|r m' Hdom Hval]; subst. cbn in *.
  apply not_elem_of_dom. rewrite Hdom. by apply not_elem_of_dom.
Qed.

Lemma wt_string_at k :
  type_at sch k = Some TypeString → ∃ x, m !! k = Some (VString x).
Proof using Hwt.
  unfold type_at. destruct (sch !! k) as [s|] eqn:Hk; [|done].
  intros [= Ht]. destruct (wt_lookup k s Hk) as (v & Hv & Hwv).
  inversion Hwv; subst; try congruence. eauto.
Qed.

Lemma wt_bool_at k :
  type_at sch k = Some TypeBool → ∃ x, m !! k = Some (VBool x).
Proof using Hwt.
  unfold type_at. destruct (sch !! k) as [s|] eqn:Hk; [|done].
  intros [= Ht]. destruct (wt_lookup k s Hk) as (v & Hv & Hwv).
  inversion Hwv; subst; try congruence. eauto.
Qed.

Lemma wt_int_at k :
  type_at sch k = Some TypeInt → ∃ x, m !! k = Some (VInt x) ∧ in_int x.
Proof using Hwt.
  unfold type_at. destruct (sch !! k) as [s|] eqn:Hk; [|done].
  intros [= Ht]. destruct (wt_lookup k s Hk) as (v & Hv & Hwv).
  inversion Hwv; subst; try congruence. eauto.
Qed.

Lemma wt_list_at k :
  type_at sch k = Some TypeList →
  ∃ l, m !! k = Some (VList l)
       ∧ Forall (wt_elem strict (elem_at sch k)) l
       ∧ (strict = true → 0 < max_at sch k → Z.of_nat (length l) ≤ max_at sch k).
Proof using Hwt.
  unfold type_at, elem_at, max_at. destruct (sch !! k) as [s|] eqn:Hk; [|done].
  intros [= Ht]. destruct (wt_lookup k s Hk) as (v & Hv & Hwv).
  inversion Hwv; subst; try congruence. eauto.
Qed.

Lemma wt_set_at k :
  type_at sch k = Some TypeSet →
  ∃ st, m !! k = Some (VSet st)
        ∧ ∀ e, e ∈ st → wt_elem strict (elem_at sch k) (selem_value e).
Proof using Hwt.
  unfold type_at, elem_at. destruct (sch !! k) as [s|] eqn:Hk; [|done].
  intros [= Ht]. destruct (wt_lookup k s Hk) as (v & Hv & Hwv).
  inversion Hwv; subst; try congruence. eauto.
Qed.

Lemma wt_set_codes_at k st :
  m !! k = Some (VSet st) → strict = true → one_per_code (hash_at sch k) st.
Proof using Hwt.
  intros Hk Hstrict. unfold hash_at.
  destruct (sch !! k) as [s|] eqn:Hs.
  - destruct (wt_lookup k s Hs) as (v & Hv & Hwv).
    rewrite Hk in Hv. injection Hv as <-.
    inversion Hwv; subst; try congruence. cbn. auto.
  - apply wt_lookup_None in Hs. congruence.
Qed.

End wt.

Lemma index_lookup (m : gmap string value) k v : m !! k = Some v → index m k = v.
Proof. unfold index. by intros ->. Qed.

(** * The structs a well-typed configuration denotes *)

Ltac wt_inv H :=
  let v := fresh "m" in
  inversion H as [|? v ? ?]; subst; clear H.

Ltac wt_keys H :=
  repeat match goal with
  | |- context [index ?m ?k] =>
      let x := fresh "x" in let Hx := fresh "Hx" in
      first
        [ destruct (wt_string_at _ _ m H k ltac:(vm_compute; reflexivity)) as [x Hx]
        | destruct (wt_bool_at _ _ m H k ltac:(vm_compute; reflexivity)) as [x Hx]
        | destruct (wt_int_at _ _ m H k ltac:(vm_compute; reflexivity)) as (x & Hx & ?) ];
      rewrite (index_lookup _ _ _ Hx);
      unfold str, num, flag; rewrite ?Hx; cbn [mbind result_bind as_string as_int as_bool]
  end.

Section leaves.
Context (strict : bool).

Lemma expandAppGitHubSourceSpec_wt v l :
  wt_elem strict (ElemResource (mkResource appSpecGitHubSourceSchema)) v →
  expandAppGitHubSourceSpec (v :: l) = Ok (Some (github_of v)).
Proof.
  intros H. pose proof H as H'. wt_inv H'.
  unfold expandAppGitHubSourceSpec, github_of. cbn [first mbind result_bind as_map].
  wt_keys H. done.
Qed.

Lemma expandAppGitSourceSpec_wt v l :
  wt_elem strict (ElemResource (mkResource appSpecGitSourceSchema)) v →
  expandAppGitSourceSpec (v :: l) = Ok (Some (git_of v)).
Proof.
  intros H. pose proof H as H'. wt_inv H'.
  unfold expandAppGitSourceSpec, git_of. cbn [first mbind result_bind as_map].
  wt_keys H. done.
Qed.

Lemma expandAppHealthCheck_wt v l :
  wt_elem strict (ElemResource (mkResource appSpecHealthCheckSchema)) v →
  expandAppHealthCheck (v :: l) = Ok (Some (health_check_of v)).
Proof.
  intros H. pose proof H as H'. wt_inv H'.
  unfold expandAppHealthCheck, health_check_of. cbn [first mbind result_bind as_map].
  wt_keys H. done.
Qed.

Lemma expandAppRoutes_wt l :
  Forall (wt_elem strict (ElemResource (mkResource appSpecRouteSchema))) l →
  expandAppRoutes l = Ok (ptrs route_of l).
Proof.
  intros Hl. unfold expandAppRoutes, ptrs.
  rewrite <- (list_fmap_id l) at 1.
  rewrite (mapM_fmap _ id (λ v, Some (route_of v))); [done|].
  intros v Hv. rewrite Forall_forall in Hl. specialize (Hl v Hv).
  pose proof Hl as H'. wt_inv H'. unfold route_of, id.
  cbn [mbind result_bind as_map]. wt_keys Hl. done.
Qed.

Lemma expandAppEnvs_wt l :
  Forall (wt_elem strict (ElemResource appSpecEnvSchema)) l →
  expandAppEnvs l = Ok (ptrs env_of l).
Proof.
  intros Hl. unfold expandAppEnvs, ptrs.
  rewrite <- (list_fmap_id l) at 1.
  rewrite (mapM_fmap _ id (λ v, Some (env_of v))); [done|].
  intros v Hv. rewrite Forall_forall in Hl. specialize (Hl v Hv).
  pose proof Hl as H'. wt_inv H'. unfold env_of, id.
  cbn [mbind result_bind as_map]. wt_keys Hl. done.
Qed.

Lemma expandAppEnvs_wt_set st :
  (∀ e, e ∈ st → wt_elem strict (ElemResource appSpecEnvSchema) (selem_value e)) →
  expandAppEnvs (Set_.List st) = Ok (ptrs env_of (Set_.List st)).
Proof.
  intros Hst. apply expandAppEnvs_wt, Forall_forall.
  intros v (e & -> & He)%list_elem_of_fmap. apply Hst. by apply elem_of_elements.
Qed.

Lemma expandAppSpecDatabases_item_wt v :
  wt_elem strict (ElemResource appSpecDatabaseSchema) v →
  expandAppSpecDatabases_item v = Ok (Some (database_of v)).
Proof.
  intros H. pose proof H as H'. wt_inv H'.
  unfold expandAppSpecDatabases_item, database_of. cbn [mbind result_bind as_map].
  wt_keys H. done.
Qed.

End leaves.

Ltac wt_blocks H :=
  repeat match goal with
  | |- context [index ?m ?k] =>
      let x := fresh "l" in let Hx := fresh "Hl" in
      let Hall := fresh "Hall" in let Hmax := fresh "Hmax" in
      first
        [ destruct (wt_list_at _ _ m H k ltac:(vm_compute; reflexivity))
            as (x & Hx & Hall & Hmax)
        | destruct (wt_set_at _ _ m H k ltac:(vm_compute; reflexivity))
            as (x & Hx & Hall) ];
      rewrite (index_lookup _ _ _ Hx);
      unfold lst, set; rewrite ?Hx; cbn [mbind result_bind as_list as_set]
  end.

Section components.
Context (strict : bool).

Lemma expandAppSpecServices_item_wt v :
  wt_elem strict (ElemResource appSpecServicesSchema) v →
  expandAppSpecServices_item v = Ok (Some (service_of v)).
Proof.
  intros H. pose proof H as H'. wt_inv H'.
  unfold expandAppSpecServices_item, service_of. cbn [mbind result_bind as_map].
  wt_keys H. wt_blocks H.
  unfold envs_of. rewrite (expandAppEnvs_wt_set strict) by done.
  cbn [mbind result_bind].
  destruct l2 as [|g2 l2];
    [|apply Forall_cons in Hall2 as [Hg2 _];
      rewrite (expandAppGitHubSourceSpec_wt strict g2) by exact Hg2];
  (destruct l1 as [|g1 l1];
    [|apply Forall_cons in Hall1 as [Hg1 _];
      rewrite (expandAppGitSourceSpec_wt strict g1) by exact Hg1]);
  (destruct l0 as [|g0 l0];
    [|rewrite (expandAppRoutes_wt strict (g0 :: l0)) by exact Hall0]);
  (destruct l as [|g l];
    [|apply Forall_cons in Hall as [Hg _];
      rewrite (expandAppHealthCheck_wt strict g) by exact Hg]);
  reflexivity.
Qed.

Lemma expandAppSpecStaticSites_item_wt v :
  wt_elem strict (ElemResource appSpecStaticSiteSchema) v →
  expandAppSpecStaticSites_item v = Ok (Some (static_site_of v)).
Proof.
  intros H. pose proof H as H'. wt_inv H'.
  unfold expandAppSpecStaticSites_item, static_site_of.
  cbn [mbind result_bind as_map].
  wt_keys H. wt_blocks H.
  unfold envs_of. rewrite (expandAppEnvs_wt_set strict) by done.
  cbn [mbind result_bind].
  destruct l1 as [|g1 l1];
    [|apply Forall_cons in Hall1 as [Hg1 _];
      rewrite (expandAppGitHubSourceSpec_wt strict g1) by exact Hg1];
  (destruct l0 as [|g0 l0];
    [|apply Forall_cons in Hall0 as [Hg0 _];
      rewrite (expandAppGitSourceSpec_wt strict g0) by exact Hg0]);
  (destruct l as [|g l];
    [|rewrite (expandAppRoutes_wt strict (g :: l)) by exact Hall]);
  reflexivity.
Qed.

Lemma expandAppSpecWorkers_item_wt v :
  wt_elem strict (ElemResource appSpecWorkerSchema) v →
  expandAppSpecWorkers_item v = Ok (Some (worker_of v)).
Proof.
  intros H. pose proof H as H'. wt_inv H'.
  unfold expandAppSpecWorkers_item, worker_of.
  cbn [mbind result_bind as_map].
  wt_keys H. wt_blocks H.
  unfold envs_of. rewrite (expandAppEnvs_wt_set strict) by done.
  cbn [mbind result_bind].
  destruct l0 as [|g0 l0];
    [|apply Forall_cons in Hall0 as [Hg0 _];
      rewrite (expandAppGitHubSourceSpec_wt strict g0) by exact Hg0];
  (destruct l as [|g l];
    [|apply Forall_cons in Hall as [Hg _];
      rewrite (expandAppGitSourceSpec_wt strict g) by exact Hg]);
  reflexivity.
Qed.

End components.

Lemma int64_in_int z : in_int z → int64 z = z.
Proof.
  unfold in_int, int64, wrap, intBits. intros Hz.
  rewrite Z.mod_small; lia.
Qed.

Lemma int_in_int64 z : in_int64 z → int z = z.
Proof.
  unfold in_int64, int, wrap, intBits. intros Hz.
  rewrite Z.mod_small; lia.
Qed.

Lemma distinct_codes_b_sound F (st : gset selem) :
  distinct_codes_b F (elements st) = true → one_per_code F st.
Proof.
  unfold distinct_codes_b. rewrite forallb_forall. intros H x y Hx Hy Hc.
  specialize (H x). rewrite forallb_forall in H.
  specialize (H ltac:(by apply list_elem_of_In, elem_of_elements) y
                ltac:(by apply list_elem_of_In, elem_of_elements)).
  apply orb_true_iff in H as [H|H].
  - apply negb_true_iff, Z.eqb_neq in H. done.
  - by apply bool_decide_eq_true in H.
Qed.

Lemma wt_check_sound n strict e v :
  wt_check n strict e v = true → wt_elem strict e v.
Proof.
  revert e v. induction n as [|n IH]; intros e v; [done|].
  cbn [wt_check].
  set (check_value := λ (s : Schema) (v : value), match Type_ s, v with
        | TypeString, VString _ => true
        | TypeBool, VBool _ => true
        | TypeInt, VInt z => bool_decide (in_int z)
        | TypeList, VList l =>
            (negb strict || negb (0 <? MaxItems s)
             || (Z.of_nat (length l) <=? MaxItems s))
            && forallb (wt_check n strict (Elem s)) l
        | TypeSet, VSet st =>
            (negb strict || distinct_codes_b (set_hash s) (elements st))
            && forallb (λ x, wt_check n strict (Elem s) (selem_value x))
                 (elements st)
        | _, _ => false
        end).
  assert (Hvalue : ∀ s v, check_value s v = true → wt_value strict s v).
  { intros s w. unfold check_value.
    destruct (Type_ s) eqn:Ht, w; try done.
    - intros _. by apply wt_bool.
    - intros Hz%bool_decide_eq_true. by apply wt_int.
    - intros _. by apply wt_string.
    - rewrite andb_true_iff, forallb_forall. intros [Hmax Hl].
      apply wt_list; [done| |].
      + intros -> Hpos. cbn in Hmax.
        apply orb_true_iff in Hmax as [Hmax|Hmax]; [|lia].
        apply negb_true_iff, Z.ltb_ge in Hmax. lia.
      + apply Forall_forall. intros x Hx. by apply IH, Hl, list_elem_of_In.
    - rewrite andb_true_iff, forallb_forall. intros [Hcodes Hst].
      apply wt_set; [done| |].
      + intros ->. cbn in Hcodes. by apply distinct_codes_b_sound.
      + intros x Hx.
        by apply IH, Hst, list_elem_of_In, elem_of_elements. }
  destruct e as [|s|r]; [done| |].
  - intros H. by apply wt_elem_schema, Hvalue.
  - destruct v; try done.
    rewrite andb_true_iff, bool_decide_eq_true, forallb_forall.
    intros [Hdom Hm]. apply wt_elem_resource; [done|].
    intros k s w Hs Hw. apply Hvalue.
    specialize (Hm (k, w)). cbn in Hm. rewrite Hs in Hm.
    by apply Hm, list_elem_of_In, elem_of_map_to_list.
Qed.

Lemma example_service_config_wt :
  conforming (Schema_ appSpecServicesSchema) example_service_config.
Proof. apply (wt_check_sound depth). vm_compute. reflexivity. Qed.

(** * Optional blocks *)

Lemma agree_str ks m m' k :
  agree_outside ks m m' → bool_decide (k ∉ ks) = true → str m' k = str m k.
Proof. intros H Hk%bool_decide_eq_true. unfold str. by rewrite (H k). Qed.
Lemma agree_num ks m m' k :
  agree_outside ks m m' → bool_decide (k ∉ ks) = true → num m' k = num m k.
Proof. intros H Hk%bool_decide_eq_true. unfold num. by rewrite (H k). Qed.
Lemma agree_set ks m m' k :
  agree_outside ks m m' → bool_decide (k ∉ ks) = true → set m' k = set m k.
Proof. intros H Hk%bool_decide_eq_true. unfold set. by rewrite (H k). Qed.

Lemma is_Some_first_of {B} (f : value → B) l : is_Some (first_of f l) ↔ l ≠ [].
Proof. destruct l; cbn; [|by split]. split; [by intros [? [=]]|done]. Qed.

Lemma is_Some_routes_of l : is_Some (routes_of l) ↔ l ≠ [].
Proof. destruct l; cbn; [|by split]. split; [by intros [? [=]]|done]. Qed.

Lemma wt_lst strict sch m k :
  wt_elem strict (ElemResource (mkResource sch)) (VMap m) →
  type_at sch k = Some TypeList → m !! k = Some (VList (lst m k)).
Proof.
  intros H Hk. destruct (wt_list_at _ _ _ H k Hk) as (l & Hl & _).
  unfold lst. by rewrite Hl.
Qed.

Ltac agree H :=
  rewrite ?(agree_str _ _ _ _ H), ?(agree_num _ _ _ _ H),
    ?(agree_set _ _ _ _ H) by (by vm_compute).

(** C4. For a well-typed service map, [expandAppSpecServices] sets GitHub,
    Git, Routes and HealthCheck exactly when the lists under "github",
    "git", "routes" and "health_check" are non-empty, and leaves them nil
    otherwise; the fields of the struct literal do not depend on these
    lists.  The same holds for static sites (GitHub, Git, Routes) and for
    workers (GitHub, Git). *)
Theorem expand_optional_blocks (ms mt mw : gmap string value) :
  well_typed (Schema_ appSpecServicesSchema) ms →
  well_typed (Schema_ appSpecStaticSiteSchema) mt →
  well_typed (Schema_ appSpecWorkerSchema) mw →
  (∃ s github git routes checks,
      expandAppSpecServices [VMap ms] = Ok (Some [Some s])
      ∧ ms !! "github" = Some (VList github)
      ∧ ms !! "git" = Some (VList git)
      ∧ ms !! "routes" = Some (VList routes)
      ∧ ms !! "health_check" = Some (VList checks)
      ∧ (is_Some (AppServiceSpec.GitHub s) ↔ github ≠ [])
      ∧ (is_Some (AppServiceSpec.Git s) ↔ git ≠ [])
      ∧ (is_Some (AppServiceSpec.Routes s) ↔ routes ≠ [])
      ∧ (is_Some (AppServiceSpec.HealthCheck s) ↔ checks ≠ [])
      ∧ ∀ m', well_typed (Schema_ appSpecServicesSchema) m' →
              agree_outside ["github"; "git"; "routes"; "health_check"] ms m' →
              ∃ s', expandAppSpecServices [VMap m'] = Ok (Some [Some s'])
                    ∧ service_literal s' = service_literal s)
  ∧ (∃ s github git routes,
      expandAppSpecStaticSites [VMap mt] = Ok (Some [Some s])
      ∧ mt !! "github" = Some (VList github)
      ∧ mt !! "git" = Some (VList git)
      ∧ mt !! "routes" = Some (VList routes)
      ∧ (is_Some (AppStaticSiteSpec.GitHub s) ↔ github ≠ [])
      ∧ (is_Some (AppStaticSiteSpec.Git s) ↔ git ≠ [])
      ∧ (is_Some (AppStaticSiteSpec.Routes s) ↔ routes ≠ [])
      ∧ ∀ m', well_typed (Schema_ appSpecStaticSiteSchema) m' →
              agree_outside ["github"; "git"; "routes"] mt m' →
              ∃ s', expandAppSpecStaticSites [VMap m'] = Ok (Some [Some s'])
                    ∧ static_site_literal s' = static_site_literal s)
  ∧ (∃ s github git,
      expandAppSpecWorkers [VMap mw] = Ok (Some [Some s])
      ∧ mw !! "github" = Some (VList github)
      ∧ mw !! "git" = Some (VList git)
      ∧ (is_Some (AppWorkerSpec.GitHub s) ↔ github ≠ [])
      ∧ (is_Some (AppWorkerSpec.Git s) ↔ git ≠ [])
      ∧ ∀ m', well_typed (Schema_ appSpecWorkerSchema) m' →
              agree_outside ["github"; "git"] mw m' →
              ∃ s', expandAppSpecWorkers [VMap m'] = Ok (Some [Some s'])
                    ∧ worker_literal s' = worker_literal s).
Proof.
  intros Hs Ht Hw. split; [|split].
  - exists (service_of (VMap ms)), (lst ms "github"), (lst ms "git"),
      (lst ms "routes"), (lst ms "health_check").
    unfold expandAppSpecServices. cbn [mapM].
    rewrite (expandAppSpecServices_item_wt false) by done.
    split; [done|].
    do 4 (split; [by apply (wt_lst false _ _ _ Hs)|]).
    cbn [service_of AppServiceSpec.GitHub AppServiceSpec.Git
         AppServiceSpec.Routes AppServiceSpec.HealthCheck].
    do 3 (split; [apply is_Some_first_of || apply is_Some_routes_of|]).
    split; [apply is_Some_first_of|].
    intros m' Hm' Hagree. exists (service_of (VMap m')).
    cbn [mapM]. rewrite (expandAppSpecServices_item_wt false) by done.
    split; [done|].
    unfold service_literal, service_of. cbn. by agree Hagree.
  - exists (static_site_of (VMap mt)), (lst mt "github"), (lst mt "git"),
      (lst mt "routes").
    unfold expandAppSpecStaticSites. cbn [mapM].
    rewrite (expandAppSpecStaticSites_item_wt false) by done.
    split; [done|].
    do 3 (split; [by apply (wt_lst false _ _ _ Ht)|]).
    cbn [static_site_of AppStaticSiteSpec.GitHub AppStaticSiteSpec.Git
         AppStaticSiteSpec.Routes].
    do 3 (split; [apply is_Some_first_of || apply is_Some_routes_of|]).
    intros m' Hm' Hagree. exists (static_site_of (VMap m')).
    cbn [mapM]. rewrite (expandAppSpecStaticSites_item_wt false) by done.
    split; [done|].
    unfold static_site_literal, static_site_of. cbn. by agree Hagree.
  - exists (worker_of (VMap mw)), (lst mw "github"), (lst mw "git").
    unfold expandAppSpecWorkers. cbn [mapM].
    rewrite (expandAppSpecWorkers_item_wt false) by done.
    split; [done|].
    do 2 (split; [by apply (wt_lst false _ _ _ Hw)|]).
    cbn [worker_of AppWorkerSpec.GitHub AppWorkerSpec.Git].
    do 2 (split; [apply is_Some_first_of|]).
    intros m' Hm' Hagree. exists (worker_of (VMap m')).
    cbn [mapM]. rewrite (expandAppSpecWorkers_item_wt false) by done.
    split; [done|].
    unfold worker_literal, worker_of. cbn. by agree Hagree.
Qed.

Lemma example_static_site_config_wt :
  conforming (Schema_ appSpecStaticSiteSchema) example_static_site_config.
Proof. apply (wt_check_sound depth). vm_compute. reflexivity. Qed.

Lemma example_worker_config_wt :
  conforming (Schema_ appSpecWorkerSchema) example_worker_config.
Proof. apply (wt_check_sound depth). vm_compute. reflexivity. Qed.

Lemma expand_optional_blocks_witness :
  well_typed (Schema_ appSpecServicesSchema) example_service_config
  ∧ well_typed (Schema_ appSpecStaticSiteSchema) example_static_site_config
  ∧ well_typed (Schema_ appSpecWorkerSchema) example_worker_config
  ∧ (∃ s, expandAppSpecServices [VMap example_service_config] = Ok (Some [Some s])
          ∧ is_Some (AppServiceSpec.GitHub s)
          ∧ ¬ is_Some (AppServiceSpec.Git s))
  ∧ (∃ s, expandAppSpecStaticSites [VMap example_static_site_config]
          = Ok (Some [Some s])
          ∧ ¬ is_Some (AppStaticSiteSpec.GitHub s)
          ∧ is_Some (AppStaticSiteSpec.Git s))
  ∧ (∃ s, expandAppSpecWorkers [VMap example_worker_config] = Ok (Some [Some s])
          ∧ ¬ is_Some (AppWorkerSpec.GitHub s)).
Proof.
  assert (H1 : well_typed (Schema_ appSpecServicesSchema) example_service_config)
    by (apply (wt_check_sound depth); vm_compute; reflexivity).
  assert (H2 : well_typed (Schema_ appSpecStaticSiteSchema) example_static_site_config)
    by (apply (wt_check_sound depth); vm_compute; reflexivity).
  assert (H3 : well_typed (Schema_ appSpecWorkerSchema) example_worker_config)
    by (apply (wt_check_sound depth); vm_compute; reflexivity).
  do 3 (split; [assumption|]).
  destruct (expand_optional_blocks _ _ _ H1 H2 H3)
    as ((s & gh & g & r & c & Hs & Hgh & Hg & _ & _ & Igh & Ig & _)
        & (t & gh' & g' & r' & Ht & Hgh' & Hg' & _ & Igh' & Ig' & _)
        & (w & gh'' & g'' & Hw & Hgh'' & _ & Igh'' & _)).
  split; [|split].
  - exists s. split; [exact Hs|]. rewrite Igh, Ig.
    assert (Egh : ∃ x, example_service_config !! "github" = Some (VList [x]))
      by (eexists; vm_compute; reflexivity).
    assert (Eg : example_service_config !! "git" = Some (VList []))
      by (vm_compute; reflexivity).
    destruct Egh as [x Egh]. rewrite Egh in Hgh. rewrite Eg in Hg.
    injection Hgh as <-. injection Hg as <-.
    split; [discriminate|]. intros H. by apply H.
  - exists t. split; [exact Ht|]. rewrite Igh', Ig'.
    assert (Egh : example_static_site_config !! "github" = Some (VList []))
      by (vm_compute; reflexivity).
    assert (Eg : ∃ x, example_static_site_config !! "git" = Some (VList [x]))
      by (eexists; vm_compute; reflexivity).
    destruct Eg as [x Eg]. rewrite Egh in Hgh'. rewrite Eg in Hg'.
    injection Hgh' as <-. injection Hg' as <-.
    split; [|discriminate]. intros H. by apply H.
  - exists w. split; [exact Hw|]. rewrite Igh''.
    assert (Egh : example_worker_config !! "github" = Some (VList []))
      by (vm_compute; reflexivity).
    rewrite Egh in Hgh''. injection Hgh'' as <-. intros H. by apply H.
Defined.

(** * No validation in the expand functions *)

Lemma wt_insert_string strict sch m k x :
  wt_elem strict (ElemResource (mkResource sch)) (VMap m) →
  type_at sch k = Some TypeString →
  wt_elem strict (ElemResource (mkResource sch)) (VMap (<[k := VString x]> m)).
Proof.
  intros H Hk. pose proof H as H'.
  inversion H' as [|r m' Hdom Hval]; subst. cbn in *.
  destruct (wt_string_at _ _ _ H k Hk) as [y Hy].
  apply wt_elem_resource; cbn.
  - rewrite dom_insert_L, <- Hdom. apply elem_of_dom_2 in Hy. set_solver.
  - intros k' s v Hs. destruct (decide (k = k')) as [<-|Hne].
    + rewrite lookup_insert_eq. intros [= <-]. apply wt_string.
      unfold type_at in Hk. rewrite Hs in Hk. by injection Hk.
    + rewrite lookup_insert_ne by done. by apply Hval.
Qed.

(** C7. [expandAppEnvs] copies the "scope" and "type" strings of a
    well-typed environment-variable map into the struct as they are, and
    [expandAppSpecDatabases] does so for "engine": whatever strings are put
    under these keys come out unchanged, with no check against the values
    the schema's [ValidateFunc] declares. *)
Theorem expand_copies_unvalidated (env db : gmap string value) :
  well_typed (Schema_ appSpecEnvSchema) env →
  well_typed (Schema_ appSpecDatabaseSchema) db →
  (∃ e, expandAppEnvs [VMap env] = Ok (Some [Some e])
        ∧ env !! "scope" = Some (VString (AppVariableDefinition.Scope e))
        ∧ env !! "type" = Some (VString (AppVariableDefinition.Type_ e)))
  ∧ (∀ scope type : string,
       ∃ e, expandAppEnvs
              [VMap (<["scope" := VString scope]> (<["type" := VString type]> env))]
            = Ok (Some [Some e])
            ∧ AppVariableDefinition.Scope e = scope
            ∧ AppVariableDefinition.Type_ e = type)
  ∧ (∃ d, expandAppSpecDatabases [VMap db] = Ok (Some [Some d])
          ∧ db !! "engine" = Some (VString (AppDatabaseSpec.Engine d)))
  ∧ (∀ engine : string,
       ∃ d, expandAppSpecDatabases [VMap (<["engine" := VString engine]> db)]
            = Ok (Some [Some d])
            ∧ AppDatabaseSpec.Engine d = engine).
Proof.
  intros He Hd. split; [|split; [|split]].
  - exists (env_of (VMap env)).
    rewrite (expandAppEnvs_wt false) by (by apply Forall_singleton).
    split; [done|]. cbn. unfold str.
    destruct (wt_string_at _ _ _ He "scope" eq_refl) as [x ->].
    by destruct (wt_string_at _ _ _ He "type" eq_refl) as [y ->].
  - intros scope type. eexists.
    rewrite (expandAppEnvs_wt false).
    + split; [done|]. cbn. unfold str.
      rewrite lookup_insert_eq, lookup_insert_ne, lookup_insert_eq by done. done.
    + apply Forall_singleton.
      apply wt_insert_string; [|done]. by apply wt_insert_string.
  - exists (database_of (VMap db)).
    unfold expandAppSpecDatabases. cbn [mapM].
    rewrite (expandAppSpecDatabases_item_wt false) by done.
    split; [done|]. cbn. unfold str.
    by destruct (wt_string_at _ _ _ Hd "engine" eq_refl) as [x ->].
  - intros engine. eexists.
    unfold expandAppSpecDatabases. cbn [mapM].
    rewrite (expandAppSpecDatabases_item_wt false).
    + split; [done|]. cbn. unfold str. by rewrite lookup_insert_eq.
    + by apply wt_insert_string.
Qed.

Lemma expand_copies_unvalidated_witness :
  (well_typed (Schema_ appSpecEnvSchema) example_env_config
   ∧ well_typed (Schema_ appSpecDatabaseSchema) example_database_config)
  ∧ (∃ e, expandAppEnvs [VMap example_env_config] = Ok (Some [Some e])
          ∧ AppVariableDefinition.Scope e = "ANY_TIME"
          ∧ AppVariableDefinition.Type_ e = "PLAIN"
          ∧ ∃ s t, Schema_ appSpecEnvSchema !! "scope" = Some s
                   ∧ Schema_ appSpecEnvSchema !! "type" = Some t
                   ∧ "ANY_TIME" ∉ declared (ValidateFunc s)
                   ∧ "PLAIN" ∉ declared (ValidateFunc t))
  ∧ (∃ d, expandAppSpecDatabases [VMap example_database_config]
          = Ok (Some [Some d])
          ∧ AppDatabaseSpec.Engine d = "SQLITE"
          ∧ ∃ s, Schema_ appSpecDatabaseSchema !! "engine" = Some s
                 ∧ "SQLITE" ∉ declared (ValidateFunc s)).
Proof.
  assert (H1 : well_typed (Schema_ appSpecEnvSchema) example_env_config)
    by (apply (wt_check_sound depth); vm_compute; reflexivity).
  assert (H2 : well_typed (Schema_ appSpecDatabaseSchema) example_database_config)
    by (apply (wt_check_sound depth); vm_compute; reflexivity).
  split; [by split|].
  destruct (expand_copies_unvalidated _ _ H1 H2)
    as ((e & He & Hscope & Htype) & _ & (d & Hd & Hengine) & _).
  split.
  - exists e. split; [exact He|].
    assert (E1 : example_env_config !! "scope" = Some (VString "ANY_TIME"))
      by (vm_compute; reflexivity).
    assert (E2 : example_env_config !! "type" = Some (VString "PLAIN"))
      by (vm_compute; reflexivity).
    rewrite E1 in Hscope. rewrite E2 in Htype.
    injection Hscope as <-. injection Htype as <-.
    do 2 (split; [reflexivity|]).
    eexists _, _. split; [vm_compute; reflexivity|].
    split; [vm_compute; reflexivity|].
    split; apply (bool_decide_unpack _); vm_compute; reflexivity.
  - exists d. split; [exact Hd|].
    assert (E1 : example_database_config !! "engine" = Some (VString "SQLITE"))
      by (vm_compute; reflexivity).
    rewrite E1 in Hengine. injection Hengine as <-.
    split; [reflexivity|].
    eexists. split; [vm_compute; reflexivity|].
    apply (bool_decide_unpack _); vm_compute; reflexivity.
Defined.

(** * Totality of flatten on slices without nil pointers *)

Lemma flattenAppSpecStaticSites_item_ok (s : AppStaticSiteSpec.t) :
  static_site_ok s = true → is_ok (flattenAppSpecStaticSites_item (Some s)) = true.
Proof.
  unfold static_site_ok. rewrite andb_true_iff. intros [He Hr].
  apply no_nil_elems in He as [le He], Hr as [lr Hr].
  unfold flattenAppSpecStaticSites_item. cbn.
  by rewrite (flattenAppRoutes_ok _ lr), (flattenAppEnvs_ok _ le).
Qed.

Lemma flattenAppSpecWorkers_item_ok (w : AppWorkerSpec.t) :
  worker_ok w = true → is_ok (flattenAppSpecWorkers_item (Some w)) = true.
Proof.
  unfold worker_ok. intros He. apply no_nil_elems in He as [le He].
  unfold flattenAppSpecWorkers_item. cbn.
  by rewrite (flattenAppEnvs_ok _ le).
Qed.

Lemma no_nil_all_ok {A} (s : slice (ptr A)) :
  no_nil s = true → all_ok (λ _, true) s = true.
Proof.
  unfold no_nil, all_ok. rewrite !forallb_forall. intros H p Hp.
  specialize (H p Hp). apply bool_decide_eq_true in H as [x ->]. done.
Qed.

Lemma flattenAppSpec_ok (s : AppSpec.t) :
  app_spec_ok s = true → ∃ m, flattenAppSpec (Some s) = Ok [m].
Proof.
  unfold app_spec_ok. rewrite !andb_true_iff.
  intros ((((Hd & Hs) & Ht) & Hw) & Hdb).
  apply no_nil_elems in Hd as [ld Hd].
  destruct (flatten_loop_ok flattenAppSpecServices_item service_ok
              (AppSpec.Services s)) as (rs & _ & Hrs); [|done|].
  { intros x Hx.
    by destruct (flattenAppSpecServices_item_map x Hx) as (? & ? & _ & _ & ->). }
  destruct (flatten_loop_ok flattenAppSpecStaticSites_item static_site_ok
              (AppSpec.StaticSites s)) as (rt & _ & Hrt);
    [apply flattenAppSpecStaticSites_item_ok|done|].
  destruct (flatten_loop_ok flattenAppSpecWorkers_item worker_ok
              (AppSpec.Workers s)) as (rw & _ & Hrw);
    [apply flattenAppSpecWorkers_item_ok|done|].
  destruct (flatten_loop_ok flattenAppSpecDatabases_item (λ _, true)
              (AppSpec.Databases s)) as (rd & _ & Hrd);
    [done|by apply no_nil_all_ok|].
  unfold flattenAppSpec, flattenAppDomainSpec.
  rewrite (foldM_deref_elems
             (λ result d,
                Set_.Add HashString (EString (AppDomainSpec.Domain d)) result)
             _ ld) by done.
  cbn [mbind result_bind].
  unfold flattenAppSpecServices, flattenAppSpecStaticSites,
    flattenAppSpecWorkers, flattenAppSpecDatabases.
  rewrite Hrs, Hrt, Hrw, Hrd.
  repeat (match goal with |- context [if ?b then _ else _] => destruct b end;
          cbn [mbind result_bind]).
  all: by eexists.
Qed.

Lemma flattenAppSpec_length (s : AppSpec.t) r :
  flattenAppSpec (Some s) = Ok r → length r = 1%nat.
Proof.
  unfold flattenAppSpec. intros H.
  repeat (apply bind_Ok in H as (? & _ & H)).
  by injection H as <-.
Qed.

(** * Index guards *)

Lemma in_bounds_bind {A B} (r : result A) (f : A → result B) :
  in_bounds r → (∀ a, r = Ok a → in_bounds (f a)) → in_bounds (r ≫= f).
Proof.
  destruct r as [a|p]; [intros _ H; by apply H|].
  unfold in_bounds. cbn. intros H _ [= ->]. by apply H.
Qed.

Lemma in_bounds_Ok {A} (a : A) : in_bounds (Ok a).
Proof. done. Qed.

Lemma in_bounds_mapM {A B} (f : A → result B) (l : list A) :
  (∀ x, in_bounds (f x)) → in_bounds (mapM f l).
Proof.
  intros Hf. induction l as [|x l IH]; cbn; [done|].
  apply in_bounds_bind; [done|]. intros y _.
  apply in_bounds_bind; [done|]. done.
Qed.

Lemma in_bounds_as_string v : in_bounds (as_string v).
Proof. by destruct v. Qed.
Lemma in_bounds_as_int v : in_bounds (as_int v).
Proof. by destruct v. Qed.
Lemma in_bounds_as_bool v : in_bounds (as_bool v).
Proof. by destruct v. Qed.
Lemma in_bounds_as_list v : in_bounds (as_list v).
Proof. by destruct v. Qed.
Lemma in_bounds_as_map v : in_bounds (as_map v).
Proof. by destruct v. Qed.
Lemma in_bounds_as_set v : in_bounds (as_set v).
Proof. by destruct v. Qed.

Lemma in_bounds_first config : (0 < length config)%nat → in_bounds (first config).
Proof. destruct config; cbn; [lia|done]. Qed.

Create HintDb bounds.
#[local] Hint Resolve in_bounds_Ok in_bounds_as_string in_bounds_as_int
  in_bounds_as_bool in_bounds_as_list in_bounds_as_map in_bounds_as_set
  in_bounds_first : bounds.

Ltac bounds :=
  repeat first
    [ apply in_bounds_Ok
    | apply in_bounds_bind; [|intros ? ?]
    | apply in_bounds_mapM; intros ?
    | match goal with
      | |- in_bounds (if (0 <? length ?l)%nat then _ else _) =>
          let E := fresh "E" in
          destruct (0 <? length l)%nat eqn:E;
          [apply Nat.ltb_lt in E|]
      end
    | solve [auto with bounds] ].

Lemma in_bounds_github config :
  (0 < length config)%nat → in_bounds (expandAppGitHubSourceSpec config).
Proof. intros H. unfold expandAppGitHubSourceSpec. bounds. Qed.
Lemma in_bounds_git config :
  (0 < length config)%nat → in_bounds (expandAppGitSourceSpec config).
Proof. intros H. unfold expandAppGitSourceSpec. bounds. Qed.
Lemma in_bounds_health_check config :
  (0 < length config)%nat → in_bounds (expandAppHealthCheck config).
Proof. intros H. unfold expandAppHealthCheck. bounds. Qed.
Lemma in_bounds_envs config : in_bounds (expandAppEnvs config).
Proof. unfold expandAppEnvs. bounds. Qed.
Lemma in_bounds_routes config : in_bounds (expandAppRoutes config).
Proof. unfold expandAppRoutes. bounds. Qed.
Lemma in_bounds_domains config : in_bounds (expandAppDomainSpec config).
Proof. unfold expandAppDomainSpec. bounds. Qed.

#[local] Hint Resolve in_bounds_github in_bounds_git in_bounds_health_check
  in_bounds_envs in_bounds_routes in_bounds_domains : bounds.

Lemma in_bounds_services config : in_bounds (expandAppSpecServices config).
Proof. unfold expandAppSpecServices, expandAppSpecServices_item. bounds. Qed.
Lemma in_bounds_static_sites config : in_bounds (expandAppSpecStaticSites config).
Proof. unfold expandAppSpecStaticSites, expandAppSpecStaticSites_item. bounds. Qed.
Lemma in_bounds_workers config : in_bounds (expandAppSpecWorkers config).
Proof. unfold expandAppSpecWorkers, expandAppSpecWorkers_item. bounds. Qed.
Lemma in_bounds_databases config : in_bounds (expandAppSpecDatabases config).
Proof. unfold expandAppSpecDatabases, expandAppSpecDatabases_item. bounds. Qed.

#[local] Hint Resolve in_bounds_services in_bounds_static_sites
  in_bounds_workers in_bounds_databases : bounds.

Lemma in_bounds_app_spec config : in_bounds (expandAppSpec config).
Proof.
  unfold expandAppSpec.
  destruct config as [|c0 config]; [done|].
  cbn [length Nat.eqb orb lookup list_lookup default from_option].
  destruct (is_nil _); [done|]. cbn [first]. bounds.
Qed.

(** C9. [expandAppGitHubSourceSpec], [expandAppGitSourceSpec] and
    [expandAppHealthCheck] index [config[0]] unguarded: on the empty list
    they panic with an index out of range.  On a non-empty list the access
    is in bounds, and with a map at index 0 the map is the one read.  The
    component loops call them only after testing [len > 0], so
    [expandAppSpecServices], [expandAppSpecStaticSites],
    [expandAppSpecWorkers] and [expandAppSpec] never panic with an index
    out of range, on any configuration. *)
Theorem config_index_guarded (config : list value) :
  (0 < length config)%nat →
  (expandAppGitHubSourceSpec [] = Panic IndexOutOfRange
   ∧ expandAppGitSourceSpec [] = Panic IndexOutOfRange
   ∧ expandAppHealthCheck [] = Panic IndexOutOfRange)
  ∧ ((∃ c0, first config = Ok c0 ∧ config !! 0%nat = Some c0)
     ∧ expandAppGitHubSourceSpec config ≠ Panic IndexOutOfRange
     ∧ expandAppGitSourceSpec config ≠ Panic IndexOutOfRange
     ∧ expandAppHealthCheck config ≠ Panic IndexOutOfRange)
  ∧ (∀ any : list value,
       expandAppSpecServices any ≠ Panic IndexOutOfRange
       ∧ expandAppSpecStaticSites any ≠ Panic IndexOutOfRange
       ∧ expandAppSpecWorkers any ≠ Panic IndexOutOfRange
       ∧ expandAppSpec any ≠ Panic IndexOutOfRange).
Proof.
  intros Hlen. split; [done|]. split.
  - split; [destruct config; [cbn in Hlen; lia|by eexists]|].
    split; [by apply in_bounds_github|].
    split; [by apply in_bounds_git|by apply in_bounds_health_check].
  - intros any. split; [apply in_bounds_services|].
    split; [apply in_bounds_static_sites|].
    split; [apply in_bounds_workers|apply in_bounds_app_spec].
Qed.

Lemma config_index_guarded_witness :
  expandAppGitHubSourceSpec [VMap ∅] ≠ Panic IndexOutOfRange
  ∧ expandAppGitHubSourceSpec [VMap ∅] = Panic TypeAssertion.
Proof.
  split; [|reflexivity].
  refine (proj1 (proj2 (proj1 (proj2 (config_index_guarded [VMap ∅] _))))).
  cbn. lia.
Defined.

(** * The component schemas *)

Lemma copy_into_union (src dst : gmap string Schema) :
  copy_into src dst = src ∪ dst.
Proof.
  unfold copy_into.
  apply (map_fold_weak_ind (λ r m, r = m ∪ dst)).
  - by rewrite (left_id_L ∅ (∪)).
  - intros k s m r Hk ->. by rewrite insert_union_l.
Qed.

Lemma base_disjoint_services : appSpecComponentBase ##ₘ serviceSchema.
Proof.
  apply map_disjoint_dom. apply (bool_decide_unpack _). vm_compute. reflexivity.
Qed.
Lemma base_disjoint_static_sites : appSpecComponentBase ##ₘ staticSiteSchema.
Proof.
  apply map_disjoint_dom. apply (bool_decide_unpack _). vm_compute. reflexivity.
Qed.
Lemma base_disjoint_workers : appSpecComponentBase ##ₘ workerSchema.
Proof.
  apply map_disjoint_dom. apply (bool_decide_unpack _). vm_compute. reflexivity.
Qed.

Lemma copy_into_embeds (own : gmap string Schema) :
  appSpecComponentBase ##ₘ own →
  embeds_base own (copy_into appSpecComponentBase own).
Proof.
  intros Hdisj. rewrite copy_into_union. repeat split.
  - intros k s Hk. by apply lookup_union_Some_l.
  - intros k s Hk. apply lookup_union_Some_raw. right. split; [|done].
    by eapply map_disjoint_Some_r.
  - by rewrite dom_union_L.
  - by apply map_disjoint_dom.
Qed.

(** C6. The schemas of services, static sites and workers hold every
    attribute of [appSpecComponentBase] ("name", "git", "github",
    "dockerfile_path", "build_command", "env", "routes", "source_dir",
    "environment_slug") with the base's definition, next to the
    component's own attributes, none of which the base overwrites. *)
Theorem component_schemas_embed_base :
  dom appSpecComponentBase
  = list_to_set ["name"; "git"; "github"; "dockerfile_path"; "build_command";
                 "env"; "routes"; "source_dir"; "environment_slug"]
  ∧ embeds_base serviceSchema (Schema_ appSpecServicesSchema)
  ∧ embeds_base staticSiteSchema (Schema_ appSpecStaticSiteSchema)
  ∧ embeds_base workerSchema (Schema_ appSpecWorkerSchema).
Proof.
  split; [vm_compute; reflexivity|].
  split; [apply copy_into_embeds, base_disjoint_services|].
  split; [apply copy_into_embeds, base_disjoint_static_sites|].
  apply copy_into_embeds, base_disjoint_workers.
Qed.

(** * The sweeper *)

Section sweeper_facts.
Context (error : Type) (Error : error → string).
Context (NewSession : ptr Session.t * option error).
Context (ListBuckets : ListBucketsOutput.t * option error).
Context (GetBucketLocation : string → ptr GetBucketLocationOutput.t * option error).
Context (isAWSErr : option error → string → string → bool).
Context (deleteAllS3ObjectVersions : string → option error).

Notation sweepLoop := (sweepLoop error Error GetBucketLocation deleteAllS3ObjectVersions).
Notation sweep :=
  (testSweepS3BucketObjects error Error NewSession ListBuckets GetBucketLocation
     isAWSErr deleteAllS3ObjectVersions).
Notation bucketRegion := (testS3BucketRegion error GetBucketLocation).

Lemma hasPrefixLoop_true bucketName ps :
  hasPrefixLoop bucketName ps = true →
  ∃ p, p ∈ ps ∧ String.prefix p bucketName = true.
Proof.
  induction ps as [|p ps IH]; cbn; [done|].
  destruct (String.prefix p bucketName) eqn:Hp.
  - intros _. exists p. split; [left|done].
  - intros (q & Hq & Hpre)%IH. exists q. split; [by right|done].
Qed.

Lemma sweepLoop_delete region buckets bucket :
  CallDeleteAllS3ObjectVersions bucket ∈ (sweepLoop region buckets).1 →
  (∃ b, b ∈ buckets ∧ StringValue (Bucket.Name b) = bucket)
  ∧ hasPrefixLoop bucket prefixes = true
  ∧ bucketRegion bucket = (region, None).
Proof.
  induction buckets as [|b buckets IH]; cbn [sweepLoop].
  - intros H. by apply elem_of_nil in H.
  - assert (Hrest : CallDeleteAllS3ObjectVersions bucket ∈ (sweepLoop region buckets).1 →
      (∃ b0, b0 ∈ b :: buckets ∧ StringValue (Bucket.Name b0) = bucket)
      ∧ hasPrefixLoop bucket prefixes = true
      ∧ bucketRegion bucket = (region, None)).
    { intros ((b0 & Hb0 & Hn) & Hp & Hr)%IH.
      split; [|done]. exists b0. split; [by right|done]. }
    destruct (hasPrefixLoop (StringValue (Bucket.Name b)) prefixes) eqn:Hpre;
      cbn [negb]; [|done].
    destruct (bucketRegion (StringValue (Bucket.Name b))) as [r err] eqn:Hreg.
    destruct err as [e|].
    { destruct (sweepLoop region buckets) as [calls ret]. cbn in *.
      intros [[=]|H]%elem_of_cons. by apply Hrest. }
    destruct (String.eqb r region) eqn:Heq; cbn [negb].
    2:{ destruct (sweepLoop region buckets) as [calls ret]. cbn in *.
        intros [[=]|H]%elem_of_cons. by apply Hrest. }
    apply String.eqb_eq in Heq as ->.
    assert (Hhere : (∃ b0, b0 ∈ b :: buckets
                      ∧ StringValue (Bucket.Name b0) = StringValue (Bucket.Name b))
                    ∧ hasPrefixLoop (StringValue (Bucket.Name b)) prefixes = true
                    ∧ bucketRegion (StringValue (Bucket.Name b)) = (region, None)).
    { split; [|done]. exists b. split; [left|done]. }
    destruct (deleteAllS3ObjectVersions (StringValue (Bucket.Name b))) as [e|].
    + cbn. intros [[=]|[[= ->]|H%elem_of_nil]%elem_of_cons]%elem_of_cons; done.
    + destruct (sweepLoop region buckets) as [calls ret]. cbn in *.
      intros [[=]|[[= ->]|H]%elem_of_cons]%elem_of_cons; [done|by apply Hrest].
Qed.

(** C10. The sweeper calls [deleteAllS3ObjectVersions] on a bucket only if
    the bucket is one of the listing, its name starts with one of the six
    prefixes, and [testS3BucketRegion] resolves it to the region being
    swept; a bucket that fails one of these gets no deletion call. *)
Theorem sweep_deletes_only_in_scope (region bucket : string) :
  CallDeleteAllS3ObjectVersions bucket ∈ (sweep region).1 →
  (∃ b, b ∈ ListBucketsOutput.Buckets ListBuckets.1
        ∧ StringValue (Bucket.Name b) = bucket)
  ∧ (∃ p, p ∈ ["mybucket."; "mylogs."; "tf-acc"; "tf-object-test"; "tf-test";
               "tf-emr-bootstrap"]
          ∧ String.prefix p bucket = true)
  ∧ bucketRegion bucket = (region, None).
Proof.
  unfold testSweepS3BucketObjects.
  destruct NewSession as [[sesh|] [e|]]; cbn [s3_New deref];
    try (by intros ?%elem_of_nil).
  destruct ListBuckets as [output err]. cbn [fst].
  destruct (testSweepSkipSweepError _ _ _).
  { intros [[=]|?%elem_of_nil]%elem_of_cons. done. }
  destruct err.
  { intros [[=]|?%elem_of_nil]%elem_of_cons. done. }
  destruct (length _ =? 0)%nat.
  { intros [[=]|?%elem_of_nil]%elem_of_cons. done. }
  destruct (sweepLoop region (ListBucketsOutput.Buckets output))
    as [calls ret] eqn:Hloop.
  cbn. intros [[=]|H]%elem_of_cons.
  assert (H' : CallDeleteAllS3ObjectVersions bucket
               ∈ (sweepLoop region (ListBucketsOutput.Buckets output)).1)
    by (by rewrite Hloop).
  apply sweepLoop_delete in H' as (Hb & Hp & Hr).
  split; [done|]. split; [|done]. by apply hasPrefixLoop_true.
Qed.

End sweeper_facts.

Lemma example_sweep_calls :
  example_sweep "nyc3"
  = ([CallListBuckets; CallGetBucketLocation "tf-acc-1";
      CallDeleteAllS3ObjectVersions "tf-acc-1";
      CallGetBucketLocation "tf-test-fra"], Return None).
Proof. vm_compute. reflexivity. Qed.

Lemma sweep_deletes_only_in_scope_witness :
  CallDeleteAllS3ObjectVersions "tf-acc-1" ∈ (example_sweep "nyc3").1
  ∧ (∃ p, p ∈ ["mybucket."; "mylogs."; "tf-acc"; "tf-object-test"; "tf-test";
               "tf-emr-bootstrap"]
          ∧ String.prefix p "tf-acc-1" = true)
  ∧ testS3BucketRegion string example_location "tf-acc-1" = ("nyc3", None).
Proof.
  assert (H : CallDeleteAllS3ObjectVersions "tf-acc-1" ∈ (example_sweep "nyc3").1).
  { rewrite example_sweep_calls. cbn. do 2 right. left. }
  split; [exact H|].
  exact (proj2 (sweep_deletes_only_in_scope string id (Some Session.mk, None)
                  example_buckets
                  example_location (λ _ _ _, false) (λ _, None)
                  "nyc3" "tf-acc-1" H)).
Defined.

(** * The app spec a well-typed configuration denotes *)

Lemma mapM_wt {B} (P : value → Prop) (f : value → result (ptr B))
    (g : value → B) (l : list value) :
  (∀ v, P v → f v = Ok (Some (g v))) → Forall P l →
  mapM f l = Ok ((λ v, Some (g v)) <$> l).
Proof.
  intros Hf Hl. rewrite <- (list_fmap_id l) at 1.
  apply (mapM_fmap f id). intros v Hv. apply Hf.
  rewrite Forall_forall in Hl. by apply Hl.
Qed.

Lemma wt_string_elem strict s v :
  Type_ s = TypeString → wt_elem strict (ElemSchema s) v → ∃ x, v = VString x.
Proof.
  intros Ht H. inversion H as [? ? Hv|]; subst.
  inversion Hv; subst; try congruence. eauto.
Qed.

Lemma wt_string_selem strict s e :
  Type_ s = TypeString → wt_elem strict (ElemSchema s) (selem_value e) →
  ∃ x, e = EString x.
Proof.
  intros Ht [x Hx]%wt_string_elem; [|done].
  destruct e as [y|m]; [|done]. injection Hx as ->. eauto.
Qed.

Lemma expandAppDomainSpec_wt strict st :
  (∀ e, e ∈ st → wt_elem strict (ElemSchema (schema_of TypeString)) (selem_value e)) →
  expandAppDomainSpec (Set_.List st) = Ok (ptrs domain_of (Set_.List st)).
Proof.
  intros Hst. unfold expandAppDomainSpec, ptrs.
  rewrite (mapM_wt (λ v, ∃ x, v = VString x) _ domain_of); [done| |].
  - by intros v [x ->].
  - apply Forall_forall. intros v (e & -> & He)%list_elem_of_fmap.
    apply elem_of_elements in He.
    destruct (wt_string_selem strict (schema_of TypeString) e eq_refl (Hst e He))
      as [x ->]. by eexists.
Qed.

Lemma expandAppSpec_wt strict m :
  wt_elem strict (ElemResource (mkResource appSpecSchema)) (VMap m) →
  expandAppSpec [VMap m] = Ok (Some (app_spec_of (VMap m))).
Proof.
  intros H. unfold expandAppSpec, app_spec_of.
  cbn [length Nat.eqb orb lookup list_lookup default from_option is_nil first
       mbind result_bind as_map].
  wt_keys H. wt_blocks H.
  rewrite (expandAppDomainSpec_wt strict) by done. cbn [mbind result_bind].
  unfold expandAppSpecServices, expandAppSpecStaticSites, expandAppSpecWorkers,
    expandAppSpecDatabases.
  rewrite (mapM_wt _ _ service_of _ (expandAppSpecServices_item_wt strict))
    by done.
  cbn [mbind result_bind].
  rewrite (mapM_wt _ _ static_site_of _ (expandAppSpecStaticSites_item_wt strict))
    by done.
  cbn [mbind result_bind].
  rewrite (mapM_wt _ _ worker_of _ (expandAppSpecWorkers_item_wt strict))
    by done.
  cbn [mbind result_bind].
  rewrite (mapM_wt _ _ database_of _ (expandAppSpecDatabases_item_wt strict))
    by done.
  reflexivity.
Qed.

(** * Flatten after expand on the nested blocks *)

Lemma map_eq_keys {V} (m1 m2 : gmap string V) (ks : list string) :
  dom m1 = list_to_set ks → dom m2 = list_to_set ks →
  Forall (λ k, m1 !! k = m2 !! k) ks → m1 = m2.
Proof.
  intros H1 H2 Hks. apply map_eq. intros k.
  destruct (decide (k ∈ ks)) as [Hk|Hk].
  - rewrite Forall_forall in Hks. by apply Hks.
  - assert (m1 !! k = None) as ->.
    { apply not_elem_of_dom. rewrite H1. by rewrite elem_of_list_to_set. }
    symmetry. apply not_elem_of_dom. rewrite H2. by rewrite elem_of_list_to_set.
Qed.

(** Rewrites the reads of a well-typed map in the goal to what they hold. *)
Ltac wt_reads H m :=
  repeat match goal with
  | |- context [str m ?k] =>
      let x := fresh "x" in let Hx := fresh "Hx" in
      destruct (wt_string_at _ _ m H k ltac:(vm_compute; reflexivity)) as [x Hx];
      unfold str at 1; rewrite Hx
  | |- context [flag m ?k] =>
      let x := fresh "x" in let Hx := fresh "Hx" in
      destruct (wt_bool_at _ _ m H k ltac:(vm_compute; reflexivity)) as [x Hx];
      unfold flag at 1; rewrite Hx
  | |- context [num m ?k] =>
      let x := fresh "x" in let Hx := fresh "Hx" in
      destruct (wt_int_at _ _ m H k ltac:(vm_compute; reflexivity)) as (x & Hx & ?);
      unfold num at 1; rewrite Hx
  end.

(** Closes [literal = m] for a map [m] whose domain and entries are known. *)
Ltac map_literal Hdom ks :=
  apply (map_eq_keys _ _ ks);
  [ vm_compute; reflexivity
  | rewrite Hdom; vm_compute; reflexivity
  | repeat (apply Forall_cons; split;
            [ match goal with
              | Hx : ?m !! ?k = Some _ |- _ = ?m !! ?k => rewrite Hx; reflexivity
              end | ]);
    by apply Forall_nil ].

Section inverse.
Context (strict : bool).

Lemma route_value_of v :
  wt_elem strict (ElemResource (mkResource appSpecRouteSchema)) v →
  route_value (route_of v) = v.
Proof.
  intros H. pose proof H as H'. inversion H' as [|? m Hdom Hval]; subst.
  unfold route_value, route_of. cbn [AppRouteSpec.Path].
  wt_reads H m. f_equal. map_literal Hdom ["path"].
Qed.

Lemma flatten_github_of v :
  wt_elem strict (ElemResource (mkResource appSpecGitHubSourceSchema)) v →
  flattenAppGitHubSourceSpec (Some (github_of v)) = [v].
Proof.
  intros H. pose proof H as H'. inversion H' as [|? m Hdom Hval]; subst.
  unfold flattenAppGitHubSourceSpec, github_of.
  cbn [GitHubSourceSpec.Repo GitHubSourceSpec.Branch GitHubSourceSpec.DeployOnPush app].
  wt_reads H m. do 2 f_equal.
  map_literal Hdom ["repo"; "branch"; "deploy_on_push"].
Qed.

Lemma flatten_git_of v :
  wt_elem strict (ElemResource (mkResource appSpecGitSourceSchema)) v →
  flattenAppGitSourceSpec (Some (git_of v)) = [v].
Proof.
  intros H. pose proof H as H'. inversion H' as [|? m Hdom Hval]; subst.
  unfold flattenAppGitSourceSpec, git_of.
  cbn [GitSourceSpec.RepoCloneURL GitSourceSpec.Branch app].
  wt_reads H m. do 2 f_equal.
  map_literal Hdom ["repo_clone_url"; "branch"].
Qed.

Lemma flatten_health_check_of v :
  wt_elem strict (ElemResource (mkResource appSpecHealthCheckSchema)) v →
  flattenAppHealthCheck (Some (health_check_of v)) = [v].
Proof.
  intros H. pose proof H as H'. inversion H' as [|? m Hdom Hval]; subst.
  unfold flattenAppHealthCheck, health_check_of.
  cbn [AppServiceSpecHealthCheck.Path app].
  wt_reads H m. do 2 f_equal.
  map_literal Hdom ["path"].
Qed.

Lemma lookup_prim_string (pm : gmap string prim) k x :
  (prim_value <$> pm) !! k = Some (VString x) → pm !! k = Some (PString x).
Proof.
  rewrite lookup_fmap. destruct (pm !! k) as [[]|]; cbn; by intros [= ->].
Qed.

Lemma env_elem_of e :
  wt_elem strict (ElemResource appSpecEnvSchema) (selem_value e) →
  env_elem (env_of (selem_value e)) = e.
Proof.
  intros H. pose proof H as H'. destruct e as [s|pm]; cbn in H'.
  { inversion H'. }
  inversion H' as [|? m Hdom Hval]; subst. rewrite dom_fmap_L in Hdom.
  unfold env_elem, env_of. cbn [selem_value].
  cbn [AppVariableDefinition.Value AppVariableDefinition.Scope
       AppVariableDefinition.Key AppVariableDefinition.Type_].
  wt_reads H (prim_value <$> pm).
  repeat match goal with
  | Hx : (prim_value <$> pm) !! _ = Some _ |- _ => apply lookup_prim_string in Hx
  end.
  f_equal. map_literal Hdom ["value"; "scope"; "key"; "type"].
Qed.

Lemma flatten_routes_of l :
  Forall (wt_elem strict (ElemResource (mkResource appSpecRouteSchema))) l →
  flattenAppRoutes (routes_of l) = Ok l.
Proof.
  intros Hl. destruct l as [|v l]; [done|].
  unfold routes_of, ptrs.
  rewrite (flattenAppRoutes_ok _ (route_of <$> (v :: l)))
    by (cbn [elems default]; by rewrite <- list_fmap_compose).
  f_equal. rewrite <- list_fmap_compose.
  rewrite <- (list_fmap_id (v :: l)) at 2.
  apply Forall_fmap_ext_1. eapply Forall_impl; [exact Hl|].
  intros x Hx. by apply route_value_of.
Qed.

Lemma flatten_envs_of st :
  (∀ e, e ∈ st → wt_elem strict (ElemResource appSpecEnvSchema) (selem_value e)) →
  one_per_code (SetFunc_hash (HashResource appSpecEnvSchema)) st →
  flattenAppEnvs (envs_of st) = Ok st.
Proof.
  intros Hst Hcodes. unfold envs_of, ptrs.
  rewrite (flattenAppEnvs_ok _ (env_of <$> Set_.List st))
    by (cbn [elems default]; by rewrite <- list_fmap_compose).
  f_equal. unfold Set_.List. rewrite <- (list_fmap_compose selem_value env_of).
  apply add_all_fmap_elements; [|done].
  intros e He. by apply env_elem_of, Hst.
Qed.

Lemma flatten_domains_of st :
  (∀ e, e ∈ st → wt_elem strict (ElemSchema (schema_of TypeString)) (selem_value e)) →
  one_per_code HashString st →
  flattenAppDomainSpec (ptrs domain_of (Set_.List st)) = Ok st.
Proof.
  intros Hst Hcodes. unfold ptrs.
  rewrite (list_fmap_compose domain_of Some), flattenAppDomainSpec_ptrs.
  f_equal. unfold Set_.List. rewrite <- (list_fmap_compose selem_value domain_of).
  apply (add_all_fmap_elements HashString _
           (λ d, EString (AppDomainSpec.Domain d))); [|done].
  intros e He.
  by destruct (wt_string_selem strict (schema_of TypeString) e eq_refl (Hst e He))
    as [x ->].
Qed.

(** The sets of a conforming map hold one string per code of
    [HashString]. *)
Lemma wt_domains_codes st :
  (∀ e, e ∈ st → wt_elem strict (ElemSchema (schema_of TypeString)) (selem_value e)) →
  one_per_code (HashSchema (schema_of TypeString)) st →
  one_per_code HashString st.
Proof.
  intros Hst. apply one_per_code_strings; [done|].
  intros e He.
  destruct (wt_string_selem strict (schema_of TypeString) e eq_refl (Hst e He))
    as [x ->]. by exists x.
Qed.

(** A block list within its [MaxItems] of one: empty or a single block. *)
Lemma flatten_first_of {B} (f : value → B) (g : ptr B → list value)
    (P : value → Prop) (l : list value) :
  g None = [] → (∀ v, P v → g (Some (f v)) = [v]) →
  (Z.of_nat (length l) ≤ 1) → Forall P l →
  g (first_of f l) = l.
Proof.
  intros Hnil Hone Hlen Hl. destruct l as [|v [|w l]]; cbn in Hlen; [done| |lia].
  cbn. apply Hone. by apply Forall_cons in Hl as [? _].
Qed.

End inverse.

Lemma int_int64 x : in_int x → int (int64 x) = x.
Proof.
  intros Hx. rewrite (int64_in_int x Hx). apply int_in_int64.
  unfold in_int, intBits in Hx. unfold in_int64. lia.
Qed.

(** Names the block lists and sets a conforming map holds, with what is
    known of them. *)
Ltac wt_lists H m :=
  repeat match goal with
  | |- context [lst m ?k] =>
      let l := fresh "l" in let Hl := fresh "Hl" in
      let Hall := fresh "Hall" in let Hmax := fresh "Hmax" in
      destruct (wt_list_at _ _ m H k ltac:(vm_compute; reflexivity))
        as (l & Hl & Hall & Hmax);
      replace (lst m k) with l by (unfold lst; by rewrite Hl)
  | |- context [set m ?k] =>
      let l := fresh "st" in let Hl := fresh "Hst" in
      let Hall := fresh "Hall" in
      let Hcodes := fresh "Hcodes" in
      destruct (wt_set_at _ _ m H k ltac:(vm_compute; reflexivity))
        as (l & Hl & Hall);
      pose proof (wt_set_codes_at _ _ m H k l Hl eq_refl) as Hcodes;
      change (one_per_code (SetFunc_hash (HashResource appSpecEnvSchema)) l)
        in Hcodes;
      replace (set m k) with l by (unfold set; by rewrite Hl)
  end.

(** Rewrites the flattened optional blocks, routes and environment
    variables of a conforming component map to the lists and sets the map
    holds. *)
Ltac flatten_blocks :=
  repeat match goal with
  | Hmax : true = true → _ → _ |- _ => specialize (Hmax eq_refl eq_refl)
  end;
  repeat match goal with
  | |- context [flattenAppRoutes (routes_of ?l)] =>
      rewrite (flatten_routes_of true l) by done
  | |- context [flattenAppEnvs (envs_of ?st)] =>
      rewrite (flatten_envs_of true st) by done
  | |- context [flattenAppHealthCheck (first_of health_check_of ?l)] =>
      rewrite (flatten_first_of health_check_of flattenAppHealthCheck _ l
                 eq_refl (flatten_health_check_of true)) by done
  | |- context [flattenAppGitSourceSpec (first_of git_of ?l)] =>
      rewrite (flatten_first_of git_of flattenAppGitSourceSpec _ l eq_refl
                 (flatten_git_of true)) by done
  | |- context [flattenAppGitHubSourceSpec (first_of github_of ?l)] =>
      rewrite (flatten_first_of github_of flattenAppGitHubSourceSpec _ l
                 eq_refl (flatten_github_of true)) by done
  end;
  cbn [mbind result_bind];
  rewrite ?int_int64 by done.

Lemma flatten_service_of v :
  wt_elem true (ElemResource appSpecServicesSchema) v →
  ∃ m, v = VMap m ∧ flattenAppSpecServices_item (Some (service_of v)) = Ok m.
Proof.
  intros H. pose proof H as H'. inversion H' as [|? m Hdom Hval]; subst.
  exists m. split; [done|].
  unfold flattenAppSpecServices_item, service_of.
  cbn [deref mbind result_bind AppServiceSpec.Name AppServiceSpec.RunCommand
       AppServiceSpec.BuildCommand AppServiceSpec.HTTPPort
       AppServiceSpec.DockerfilePath AppServiceSpec.Envs
       AppServiceSpec.InstanceSizeSlug AppServiceSpec.InstanceCount
       AppServiceSpec.SourceDir AppServiceSpec.EnvironmentSlug
       AppServiceSpec.GitHub AppServiceSpec.Git AppServiceSpec.Routes
       AppServiceSpec.HealthCheck].
  wt_reads H m. wt_lists H m.
  flatten_blocks. f_equal.
  map_literal Hdom
    ["name"; "run_command"; "build_command"; "github"; "git"; "http_port";
     "routes"; "dockerfile_path"; "env"; "health_check"; "instance_size_slug";
     "instance_count"; "source_dir"; "environment_slug"].
Qed.

Lemma flatten_static_site_of v :
  wt_elem true (ElemResource appSpecStaticSiteSchema) v →
  ∃ m, v = VMap m ∧ flattenAppSpecStaticSites_item (Some (static_site_of v)) = Ok m.
Proof.
  intros H. pose proof H as H'. inversion H' as [|? m Hdom Hval]; subst.
  exists m. split; [done|].
  unfold flattenAppSpecStaticSites_item, static_site_of.
  cbn [deref mbind result_bind AppStaticSiteSpec.Name
       AppStaticSiteSpec.BuildCommand AppStaticSiteSpec.DockerfilePath
       AppStaticSiteSpec.Envs AppStaticSiteSpec.SourceDir
       AppStaticSiteSpec.OutputDir AppStaticSiteSpec.IndexDocument
       AppStaticSiteSpec.ErrorDocument AppStaticSiteSpec.EnvironmentSlug
       AppStaticSiteSpec.GitHub AppStaticSiteSpec.Git AppStaticSiteSpec.Routes].
  wt_reads H m. wt_lists H m. flatten_blocks. f_equal.
  map_literal Hdom
    ["name"; "build_command"; "github"; "git"; "routes"; "dockerfile_path";
     "env"; "source_dir"; "output_dir"; "index_document"; "error_document";
     "environment_slug"].
Qed.

(** Closes [literal = M] for [M] the map [m], [delete k m] or
    [<[k:=v]> m], from the domain and the entries of [m]. *)
Ltac map_patch Hdom ks :=
  apply (map_eq_keys _ _ ks);
  [ vm_compute; reflexivity
  | rewrite ?dom_delete_L, ?dom_insert_L, Hdom; vm_compute; reflexivity
  | repeat (apply Forall_cons; split;
            [ lazymatch goal with
              | |- _ = delete _ ?m !! _ => rewrite (lookup_delete_ne m) by done
              | |- _ = <[?k:=_]> ?m !! ?k => rewrite (lookup_insert_eq m)
              | |- _ = <[_:=_]> ?m !! _ => rewrite (lookup_insert_ne m) by done
              | |- _ => idtac
              end;
              first [ reflexivity
                    | match goal with
                      | Hx : ?m !! ?k = Some _ |- _ = ?m !! ?k =>
                          rewrite Hx; reflexivity
                      end ] | ]);
    by apply Forall_nil ].

Lemma flatten_worker_of v :
  wt_elem true (ElemResource appSpecWorkerSchema) v →
  ∃ m, v = VMap m
       ∧ flattenAppSpecWorkers_item (Some (worker_of v)) = Ok (delete "routes" m).
Proof.
  intros H. pose proof H as H'. inversion H' as [|? m Hdom Hval]; subst.
  exists m. split; [done|].
  unfold flattenAppSpecWorkers_item, worker_of.
  cbn [deref mbind result_bind AppWorkerSpec.Name AppWorkerSpec.RunCommand
       AppWorkerSpec.BuildCommand AppWorkerSpec.DockerfilePath
       AppWorkerSpec.Envs AppWorkerSpec.InstanceSizeSlug
       AppWorkerSpec.InstanceCount AppWorkerSpec.SourceDir
       AppWorkerSpec.EnvironmentSlug AppWorkerSpec.GitHub AppWorkerSpec.Git].
  wt_reads H m. wt_lists H m. flatten_blocks. f_equal.
  map_patch Hdom
    ["name"; "run_command"; "build_command"; "github"; "git";
     "dockerfile_path"; "env"; "instance_size_slug"; "instance_count";
     "source_dir"; "environment_slug"].
Qed.

Lemma flatten_database_of v :
  wt_elem true (ElemResource appSpecDatabaseSchema) v →
  ∃ m, v = VMap m
       ∧ flattenAppSpecDatabases_item (Some (database_of v))
         = Ok (<["engine" := VEngine (str m "engine")]> m).
Proof.
  intros H. pose proof H as H'. inversion H' as [|? m Hdom Hval]; subst.
  exists m. split; [done|].
  unfold flattenAppSpecDatabases_item, database_of.
  cbn [deref mbind result_bind AppDatabaseSpec.Name AppDatabaseSpec.Engine
       AppDatabaseSpec.Version AppDatabaseSpec.Production
       AppDatabaseSpec.ClusterName AppDatabaseSpec.DBName
       AppDatabaseSpec.DBUser].
  wt_reads H m.
  repeat match goal with
  | H1 : m !! ?k = Some _, H2 : m !! ?k = Some _ |- _ =>
      rewrite H1 in H2; injection H2 as <-
  end.
  f_equal.
  map_patch Hdom
    ["name"; "engine"; "version"; "production"; "cluster_name"; "db_name";
     "db_user"].
Qed.

(** * Flatten after expand on the components *)

(** The maps a flatten loop builds for the structs of a block list: one per
    block, [t m] for the block [VMap m]. *)
Lemma flatten_loop_of {B} (item : ptr B → result (gmap string value))
    (dec : value → B) (P : value → Prop)
    (t : gmap string value → gmap string value) (l : list value) :
  (∀ v, P v → ∃ m, v = VMap m ∧ item (Some (dec v)) = Ok (t m)) →
  Forall P l →
  ∃ ms, l = VMap <$> ms
        ∧ foldM_from (λ result i x, r ← item x; Ok (<[i:=r]> result)) 0%nat
            (elems (ptrs dec l)) (replicate (len (ptrs dec l)) ∅)
          = Ok (t <$> ms).
Proof.
  intros Hitem Hl.
  assert (∃ ms, l = VMap <$> ms
                ∧ mapM item (elems (ptrs dec l)) = Ok (t <$> ms)) as (ms & -> & Hms).
  { cbn [elems ptrs default]. induction Hl as [|v l Hv Hl IH].
    - by exists [].
    - destruct IH as (ms & -> & IH). destruct (Hitem v Hv) as (m & -> & Hm).
      exists (m :: ms). split; [done|]. cbn. rewrite Hm. cbn.
      cbn in IH. by rewrite IH. }
  exists ms. split; [done|]. by apply flatten_loop.
Qed.

Lemma len_ptrs {A B} (f : A → B) (l : list A) : len (ptrs f l) = length l.
Proof. unfold len, ptrs. cbn. by rewrite length_fmap. Qed.

Lemma Forall_VMap (P : value → Prop) (ms : list (gmap string value)) :
  Forall P (VMap <$> ms) → Forall (λ m, P (VMap m)) ms.
Proof. by rewrite Forall_fmap. Qed.

(** * The panics of expand and of flatten *)

Lemma panics_only_Ok {A} p (a : A) : panics_only p (Ok a).
Proof. by intros q. Qed.

Lemma panics_only_Panic {A} p : panics_only p (@Panic A p).
Proof. by intros q [= <-]. Qed.

Lemma panics_only_bind {A B} p (r : result A) (f : A → result B) :
  panics_only p r → (∀ a, r = Ok a → panics_only p (f a)) →
  panics_only p (r ≫= f).
Proof.
  destruct r as [a|q]; [intros _ H; by apply H|].
  intros H _ q' [= <-]. by apply H.
Qed.

Lemma panics_only_mapM {A B} p (f : A → result B) (l : list A) :
  (∀ x, panics_only p (f x)) → panics_only p (mapM f l).
Proof.
  intros Hf. induction l as [|x l IH]; cbn; [apply panics_only_Ok|].
  apply panics_only_bind; [done|]. intros y _.
  apply panics_only_bind; [done|]. intros ys _. apply panics_only_Ok.
Qed.

Lemma panics_only_foldM {A St} p (f : St → A → result St) (l : list A) acc :
  (∀ acc x, panics_only p (f acc x)) → panics_only p (foldM f l acc).
Proof.
  intros Hf. revert acc. induction l as [|x l IH]; intros acc; cbn;
    [apply panics_only_Ok|].
  apply panics_only_bind; [done|]. intros acc' _. apply IH.
Qed.

Lemma panics_only_foldM_from {A St} p (f : St → nat → A → result St)
    (l : list A) i acc :
  (∀ acc i x, panics_only p (f acc i x)) → panics_only p (foldM_from f i l acc).
Proof.
  intros Hf. revert i acc. induction l as [|x l IH]; intros i acc; cbn;
    [apply panics_only_Ok|].
  apply panics_only_bind; [done|]. intros acc' _. apply IH.
Qed.

Lemma panics_only_as_string v : panics_only TypeAssertion (as_string v).
Proof. destruct v; first [apply panics_only_Ok | apply panics_only_Panic]. Qed.
Lemma panics_only_as_int v : panics_only TypeAssertion (as_int v).
Proof. destruct v; first [apply panics_only_Ok | apply panics_only_Panic]. Qed.
Lemma panics_only_as_bool v : panics_only TypeAssertion (as_bool v).
Proof. destruct v; first [apply panics_only_Ok | apply panics_only_Panic]. Qed.
Lemma panics_only_as_list v : panics_only TypeAssertion (as_list v).
Proof. destruct v; first [apply panics_only_Ok | apply panics_only_Panic]. Qed.
Lemma panics_only_as_map v : panics_only TypeAssertion (as_map v).
Proof. destruct v; first [apply panics_only_Ok | apply panics_only_Panic]. Qed.
Lemma panics_only_as_set v : panics_only TypeAssertion (as_set v).
Proof. destruct v; first [apply panics_only_Ok | apply panics_only_Panic]. Qed.

Lemma panics_only_first p config :
  (0 < length config)%nat → panics_only p (first config).
Proof. destruct config; cbn; [lia|intros _; apply panics_only_Ok]. Qed.

Lemma panics_only_deref {A} (x : ptr A) : panics_only NilDereference (deref x).
Proof. destruct x; [apply panics_only_Ok|apply panics_only_Panic]. Qed.

Create HintDb panics.
#[local] Hint Resolve panics_only_as_string panics_only_as_int
  panics_only_as_bool panics_only_as_list panics_only_as_map
  panics_only_as_set panics_only_first panics_only_deref : panics.

Ltac panics :=
  repeat first
    [ apply panics_only_Ok
    | apply panics_only_bind; [|intros ? ?]
    | apply panics_only_mapM; intros ?
    | apply panics_only_foldM; intros ? ?
    | apply panics_only_foldM_from; intros ? ? ?
    | match goal with
      | |- panics_only _ (if (0 <? ?n)%nat then _ else _) =>
          let E := fresh "E" in
          destruct (0 <? n)%nat eqn:E; [apply Nat.ltb_lt in E|]
      | |- panics_only _ (match ?x with Some _ => _ | None => _ end) =>
          destruct x
      end
    | solve [auto with panics] ].

Lemma expand_github_panics config :
  (0 < length config)%nat →
  panics_only TypeAssertion (expandAppGitHubSourceSpec config).
Proof. intros H. unfold expandAppGitHubSourceSpec. panics. Qed.
Lemma expand_git_panics config :
  (0 < length config)%nat →
  panics_only TypeAssertion (expandAppGitSourceSpec config).
Proof. intros H. unfold expandAppGitSourceSpec. panics. Qed.
Lemma expand_health_check_panics config :
  (0 < length config)%nat →
  panics_only TypeAssertion (expandAppHealthCheck config).
Proof. intros H. unfold expandAppHealthCheck. panics. Qed.
Lemma expand_envs_panics config : panics_only TypeAssertion (expandAppEnvs config).
Proof. unfold expandAppEnvs. panics. Qed.
Lemma expand_routes_panics config : panics_only TypeAssertion (expandAppRoutes config).
Proof. unfold expandAppRoutes. panics. Qed.
Lemma expand_domains_panics config :
  panics_only TypeAssertion (expandAppDomainSpec config).
Proof. unfold expandAppDomainSpec. panics. Qed.

#[local] Hint Resolve expand_github_panics expand_git_panics
  expand_health_check_panics expand_envs_panics expand_routes_panics
  expand_domains_panics : panics.

Lemma expand_services_panics config :
  panics_only TypeAssertion (expandAppSpecServices config).
Proof. unfold expandAppSpecServices, expandAppSpecServices_item. panics. Qed.
Lemma expand_static_sites_panics config :
  panics_only TypeAssertion (expandAppSpecStaticSites config).
Proof. unfold expandAppSpecStaticSites, expandAppSpecStaticSites_item. panics. Qed.
Lemma expand_workers_panics config :
  panics_only TypeAssertion (expandAppSpecWorkers config).
Proof. unfold expandAppSpecWorkers, expandAppSpecWorkers_item. panics. Qed.
Lemma expand_databases_panics config :
  panics_only TypeAssertion (expandAppSpecDatabases config).
Proof. unfold expandAppSpecDatabases, expandAppSpecDatabases_item. panics. Qed.

#[local] Hint Resolve expand_services_panics expand_static_sites_panics
  expand_workers_panics expand_databases_panics : panics.

Lemma expand_app_spec_panics config :
  panics_only TypeAssertion (expandAppSpec config).
Proof.
  unfold expandAppSpec.
  destruct config as [|c0 config]; [apply panics_only_Ok|].
  cbn [length Nat.eqb orb lookup list_lookup default from_option].
  destruct (is_nil _); [apply panics_only_Ok|]. cbn [first]. panics.
Qed.

Lemma flatten_routes_panics routes :
  panics_only NilDereference (flattenAppRoutes routes).
Proof. unfold flattenAppRoutes. panics. Qed.
Lemma flatten_envs_panics envs :
  panics_only NilDereference (flattenAppEnvs envs).
Proof. unfold flattenAppEnvs. panics. Qed.
Lemma flatten_domains_panics spec :
  panics_only NilDereference (flattenAppDomainSpec spec).
Proof. unfold flattenAppDomainSpec. panics. Qed.

#[local] Hint Resolve flatten_routes_panics flatten_envs_panics
  flatten_domains_panics : panics.

Lemma flatten_services_panics s :
  panics_only NilDereference (flattenAppSpecServices s).
Proof. unfold flattenAppSpecServices, flattenAppSpecServices_item. panics. Qed.
Lemma flatten_static_sites_panics s :
  panics_only NilDereference (flattenAppSpecStaticSites s).
Proof. unfold flattenAppSpecStaticSites, flattenAppSpecStaticSites_item. panics. Qed.
Lemma flatten_workers_panics s :
  panics_only NilDereference (flattenAppSpecWorkers s).
Proof. unfold flattenAppSpecWorkers, flattenAppSpecWorkers_item. panics. Qed.
Lemma flatten_databases_panics s :
  panics_only NilDereference (flattenAppSpecDatabases s).
Proof. unfold flattenAppSpecDatabases, flattenAppSpecDatabases_item. panics. Qed.

#[local] Hint Resolve flatten_services_panics flatten_static_sites_panics
  flatten_workers_panics flatten_databases_panics : panics.

Lemma flatten_app_spec_panics spec :
  panics_only NilDereference (flattenAppSpec spec).
Proof. unfold flattenAppSpec. panics. Qed.

(** X1. The expand functions never dereference a pointer and never index
    out of range: whatever the configuration, [expandAppSpec] and the four
    component loops return or panic with a failed type assertion.  The
    flatten functions assert no type: whatever the spec, they return or
    panic with a nil dereference. *)
Theorem expand_flatten_panic_kinds (config : list value) (spec : ptr AppSpec.t)
    (p : panic) :
  (expandAppSpec config = Panic p → p = TypeAssertion)
  ∧ (expandAppSpecServices config = Panic p → p = TypeAssertion)
  ∧ (expandAppSpecStaticSites config = Panic p → p = TypeAssertion)
  ∧ (expandAppSpecWorkers config = Panic p → p = TypeAssertion)
  ∧ (expandAppSpecDatabases config = Panic p → p = TypeAssertion)
  ∧ (flattenAppSpec spec = Panic p → p = NilDereference).
Proof.
  split; [apply expand_app_spec_panics|].
  split; [apply expand_services_panics|].
  split; [apply expand_static_sites_panics|].
  split; [apply expand_workers_panics|].
  split; [apply expand_databases_panics|apply flatten_app_spec_panics].
Qed.

(** * Flatten returns exactly on specs without nil pointers *)

Lemma is_ok_bind {A B} (r : result A) (f : A → result B) :
  is_ok (r ≫= f) = match r with Ok a => is_ok (f a) | Panic _ => false end.
Proof. by destruct r. Qed.

Lemma is_ok_foldM_deref {A St} (g : St → A → St) (l : list (ptr A)) (acc : St) :
  is_ok (foldM (λ acc p, x ← deref p; Ok (g acc x)) l acc)
  = forallb (λ p : ptr A, bool_decide (is_Some p)) l.
Proof.
  revert acc. induction l as [|[x|] l IH]; intros acc; cbn; [done| |done].
  by rewrite IH.
Qed.

Lemma is_ok_deref_slice {A St} (g : St → A → St) (s : slice (ptr A)) (acc : St) :
  is_ok (match s with
         | Some l => foldM (λ acc p, x ← deref p; Ok (g acc x)) l acc
         | None => Ok acc
         end) = no_nil s.
Proof. destruct s as [l|]; [apply is_ok_foldM_deref|done]. Qed.

Lemma is_ok_flattenAppRoutes routes : is_ok (flattenAppRoutes routes) = no_nil routes.
Proof.
  unfold flattenAppRoutes.
  apply (is_ok_deref_slice (λ result route, result ++ [route_value route])).
Qed.

Lemma is_ok_flattenAppEnvs envs : is_ok (flattenAppEnvs envs) = no_nil envs.
Proof.
  unfold flattenAppEnvs.
  apply (is_ok_deref_slice
           (λ result env,
              Set_.Add (SetFunc_hash (HashResource appSpecEnvSchema))
                (env_elem env) result)).
Qed.

Lemma is_ok_flattenAppDomainSpec spec :
  is_ok (flattenAppDomainSpec spec) = no_nil spec.
Proof.
  unfold flattenAppDomainSpec.
  apply (is_ok_deref_slice
           (λ result d,
              Set_.Add HashString (EString (AppDomainSpec.Domain d)) result)).
Qed.

Lemma is_ok_flatten_loop {A} (item : ptr A → result (gmap string value))
    (l : list (ptr A)) i (acc : list (gmap string value)) :
  is_ok (foldM_from (λ result i x, r ← item x; Ok (<[i:=r]> result)) i l acc)
  = forallb (λ p, is_ok (item p)) l.
Proof.
  revert i acc. induction l as [|p l IH]; intros i acc; cbn; [done|].
  destruct (item p); cbn; [apply IH|done].
Qed.

Lemma forallb_pointwise {A} (f g : A → bool) (l : list A) :
  (∀ x, f x = g x) → forallb f l = forallb g l.
Proof. intros H. induction l as [|x l IH]; cbn; [done|]. by rewrite H, IH. Qed.

Lemma is_ok_services_item p :
  is_ok (flattenAppSpecServices_item p) = from_option service_ok false p.
Proof.
  destruct p as [s|]; [|done]. unfold flattenAppSpecServices_item, service_ok.
  cbn [deref mbind result_bind from_option].
  rewrite is_ok_bind. pose proof (is_ok_flattenAppRoutes (AppServiceSpec.Routes s)) as Hr.
  destruct (flattenAppRoutes _); cbn in Hr; rewrite <- Hr; [|by rewrite andb_false_r].
  rewrite is_ok_bind. pose proof (is_ok_flattenAppEnvs (AppServiceSpec.Envs s)) as He.
  destruct (flattenAppEnvs _); cbn in He; by rewrite <- He.
Qed.

Lemma is_ok_static_sites_item p :
  is_ok (flattenAppSpecStaticSites_item p) = from_option static_site_ok false p.
Proof.
  destruct p as [s|]; [|done]. unfold flattenAppSpecStaticSites_item, static_site_ok.
  cbn [deref mbind result_bind from_option].
  rewrite is_ok_bind. pose proof (is_ok_flattenAppRoutes (AppStaticSiteSpec.Routes s)) as Hr.
  destruct (flattenAppRoutes _); cbn in Hr; rewrite <- Hr; [|by rewrite andb_false_r].
  rewrite is_ok_bind. pose proof (is_ok_flattenAppEnvs (AppStaticSiteSpec.Envs s)) as He.
  destruct (flattenAppEnvs _); cbn in He; by rewrite <- He.
Qed.

Lemma is_ok_workers_item p :
  is_ok (flattenAppSpecWorkers_item p) = from_option worker_ok false p.
Proof.
  destruct p as [s|]; [|done]. unfold flattenAppSpecWorkers_item, worker_ok.
  cbn [deref mbind result_bind from_option].
  rewrite is_ok_bind. pose proof (is_ok_flattenAppEnvs (AppWorkerSpec.Envs s)) as He.
  destruct (flattenAppEnvs _); cbn in He; by rewrite <- He.
Qed.

Lemma is_ok_databases_item (p : ptr AppDatabaseSpec.t) :
  is_ok (flattenAppSpecDatabases_item p) = bool_decide (is_Some p).
Proof. by destruct p. Qed.

Lemma is_ok_flattenAppSpecServices s :
  is_ok (flattenAppSpecServices s) = all_ok service_ok s.
Proof.
  unfold flattenAppSpecServices, all_ok. rewrite is_ok_flatten_loop.
  apply forallb_pointwise. intros p. apply is_ok_services_item.
Qed.
Lemma is_ok_flattenAppSpecStaticSites s :
  is_ok (flattenAppSpecStaticSites s) = all_ok static_site_ok s.
Proof.
  unfold flattenAppSpecStaticSites, all_ok. rewrite is_ok_flatten_loop.
  apply forallb_pointwise. intros p. apply is_ok_static_sites_item.
Qed.
Lemma is_ok_flattenAppSpecWorkers s :
  is_ok (flattenAppSpecWorkers s) = all_ok worker_ok s.
Proof.
  unfold flattenAppSpecWorkers, all_ok. rewrite is_ok_flatten_loop.
  apply forallb_pointwise. intros p. apply is_ok_workers_item.
Qed.
Lemma is_ok_flattenAppSpecDatabases s :
  is_ok (flattenAppSpecDatabases s) = no_nil s.
Proof.
  unfold flattenAppSpecDatabases, no_nil. rewrite is_ok_flatten_loop.
  apply forallb_pointwise. intros p. apply is_ok_databases_item.
Qed.

Lemma all_ok_nil {A} (ok : A → bool) (s : slice (ptr A)) :
  len s = 0%nat → all_ok ok s = true.
Proof. unfold len, all_ok. by destruct (elems s). Qed.

Lemma no_nil_nil {A} (s : slice (ptr A)) : len s = 0%nat → no_nil s = true.
Proof. unfold len, no_nil. by destruct (elems s). Qed.

Lemma is_ok_flattenAppSpec (s : AppSpec.t) :
  is_ok (flattenAppSpec (Some s)) = app_spec_ok s.
Proof.
  unfold flattenAppSpec, app_spec_ok.
  rewrite is_ok_bind. pose proof (is_ok_flattenAppDomainSpec (AppSpec.Domains s)) as Hd.
  destruct (flattenAppDomainSpec _); cbn in Hd; rewrite <- Hd; [|done].
  cbn [andb].
  pose proof (is_ok_flattenAppSpecServices (AppSpec.Services s)) as Hs.
  pose proof (is_ok_flattenAppSpecStaticSites (AppSpec.StaticSites s)) as Ht.
  pose proof (is_ok_flattenAppSpecWorkers (AppSpec.Workers s)) as Hw.
  pose proof (is_ok_flattenAppSpecDatabases (AppSpec.Databases s)) as Hdb.
  pose proof (all_ok_nil service_ok (AppSpec.Services s)) as Ns.
  pose proof (all_ok_nil static_site_ok (AppSpec.StaticSites s)) as Nt.
  pose proof (all_ok_nil worker_ok (AppSpec.Workers s)) as Nw.
  pose proof (no_nil_nil (AppSpec.Databases s)) as Ndb.
  destruct (0 <? len (AppSpec.Services s))%nat eqn:Es;
    [|apply Nat.ltb_ge in Es; rewrite Ns by lia];
    [destruct (flattenAppSpecServices _); cbn in Hs; rewrite <- Hs; [|done]|];
  cbn [mbind result_bind andb];
  (destruct (0 <? len (AppSpec.StaticSites s))%nat eqn:Et;
    [|apply Nat.ltb_ge in Et; rewrite Nt by lia];
    [destruct (flattenAppSpecStaticSites _); cbn in Ht; rewrite <- Ht; [|done]|]);
  cbn [mbind result_bind andb];
  (destruct (0 <? len (AppSpec.Workers s))%nat eqn:Ew;
    [|apply Nat.ltb_ge in Ew; rewrite Nw by lia];
    [destruct (flattenAppSpecWorkers _); cbn in Hw; rewrite <- Hw; [|done]|]);
  cbn [mbind result_bind andb];
  (destruct (0 <? len (AppSpec.Databases s))%nat eqn:Edb;
    [|apply Nat.ltb_ge in Edb; rewrite Ndb by lia];
    [destruct (flattenAppSpecDatabases _); cbn in Hdb; rewrite <- Hdb; [|done]|]);
  done.
Qed.

(** X2. [flattenAppSpec] returns on a spec exactly when no slice of the
    spec, down to the routes and environment variables of a component,
    holds a nil pointer; on any other spec it panics with a nil
    dereference. *)
Theorem flattenAppSpec_returns_iff (s : AppSpec.t) :
  ((∃ m, flattenAppSpec (Some s) = Ok [m]) ↔ app_spec_ok s = true)
  ∧ (flattenAppSpec (Some s) = Panic NilDereference ↔ app_spec_ok s = false).
Proof.
  pose proof (is_ok_flattenAppSpec s) as Hok.
  pose proof (flatten_app_spec_panics (Some s)) as Hp.
  split; split.
  - intros [m Hm]. by rewrite Hm in Hok.
  - apply flattenAppSpec_ok.
  - intros E. by rewrite E in Hok.
  - intros Hno. rewrite Hno in Hok.
    destruct (flattenAppSpec (Some s)) as [r|p] eqn:E; [done|].
    by rewrite (Hp p).
Qed.

(** * Expand on well-typed and on ill-typed configuration *)

Lemma no_nil_ptrs {A B} (f : A → B) (l : list A) : no_nil (ptrs f l) = true.
Proof.
  unfold no_nil, ptrs. cbn. induction l as [|x l IH]; cbn; [done|].
  by rewrite IH.
Qed.

Lemma all_ok_ptrs {A B} (f : A → B) (ok : B → bool) (l : list A) :
  (∀ x, ok (f x) = true) → all_ok ok (ptrs f l) = true.
Proof.
  intros H. unfold all_ok, ptrs. cbn. induction l as [|x l IH]; cbn; [done|].
  by rewrite H, IH.
Qed.

Lemma no_nil_routes_of l : no_nil (routes_of l) = true.
Proof. destruct l; [done|]. apply no_nil_ptrs. Qed.

Lemma app_spec_of_ok v : app_spec_ok (app_spec_of v) = true.
Proof.
  destruct v; try done. unfold app_spec_ok, app_spec_of.
  cbn [AppSpec.Domains AppSpec.Services AppSpec.StaticSites AppSpec.Workers
       AppSpec.Databases].
  rewrite !no_nil_ptrs. rewrite !all_ok_ptrs; [done|..].
  - intros [] ; try done. unfold worker_ok, worker_of, envs_of.
    cbn [AppWorkerSpec.Envs]. apply no_nil_ptrs.
  - intros []; try done. unfold static_site_ok, static_site_of, envs_of.
    cbn [AppStaticSiteSpec.Envs AppStaticSiteSpec.Routes].
    by rewrite no_nil_ptrs, no_nil_routes_of.
  - intros []; try done. unfold service_ok, service_of, envs_of.
    cbn [AppServiceSpec.Envs AppServiceSpec.Routes].
    by rewrite no_nil_ptrs, no_nil_routes_of.
Qed.

(** X3. On configuration that is well typed for [appSpecSchema],
    [expandAppSpec] returns: it does not panic.  The spec has the "name"
    and "region" of the map, one domain per member of the "domains" set,
    one service, static site, worker and database per configured block,
    and no nil pointer, so that [flattenAppSpec] returns on it. *)
Theorem expandAppSpec_well_typed (m : gmap string value) :
  well_typed appSpecSchema m →
  ∃ s domains service static_site worker database,
    expandAppSpec [VMap m] = Ok (Some s)
    ∧ m !! "name" = Some (VString (AppSpec.Name s))
    ∧ m !! "region" = Some (VString (AppSpec.Region s))
    ∧ m !! "domains" = Some (VSet domains)
    ∧ m !! "service" = Some (VList service)
    ∧ m !! "static_site" = Some (VList static_site)
    ∧ m !! "worker" = Some (VList worker)
    ∧ m !! "database" = Some (VList database)
    ∧ len (AppSpec.Domains s) = size domains
    ∧ len (AppSpec.Services s) = length service
    ∧ len (AppSpec.StaticSites s) = length static_site
    ∧ len (AppSpec.Workers s) = length worker
    ∧ len (AppSpec.Databases s) = length database
    ∧ app_spec_ok s = true.
Proof.
  intros H.
  destruct (wt_string_at _ _ _ H "name" eq_refl) as [name Hname].
  destruct (wt_string_at _ _ _ H "region" eq_refl) as [region Hregion].
  destruct (wt_set_at _ _ _ H "domains" eq_refl) as (st & Hst & _).
  destruct (wt_list_at _ _ _ H "service" eq_refl) as (l1 & Hl1 & _).
  destruct (wt_list_at _ _ _ H "static_site" eq_refl) as (l2 & Hl2 & _).
  destruct (wt_list_at _ _ _ H "worker" eq_refl) as (l3 & Hl3 & _).
  destruct (wt_list_at _ _ _ H "database" eq_refl) as (l4 & Hl4 & _).
  exists (app_spec_of (VMap m)), st, l1, l2, l3, l4.
  split; [by apply (expandAppSpec_wt false)|].
  unfold app_spec_of.
  cbn [AppSpec.Name AppSpec.Region AppSpec.Domains AppSpec.Services
       AppSpec.StaticSites AppSpec.Workers AppSpec.Databases].
  unfold str, lst, set. rewrite Hname, Hregion, Hst, Hl1, Hl2, Hl3, Hl4.
  rewrite !len_ptrs. unfold Set_.List. rewrite length_fmap.
  repeat (split; [done|]).
  pose proof (app_spec_of_ok (VMap m)) as Hok. unfold app_spec_of in Hok.
  unfold str, lst, set in Hok.
  by rewrite Hname, Hregion, Hst, Hl1, Hl2, Hl3, Hl4 in Hok.
Qed.

Lemma example_app_config_wt : conforming appSpecSchema example_app_config.
Proof. apply (wt_check_sound depth). vm_compute. reflexivity. Qed.

Lemma expandAppSpec_well_typed_witness :
  well_typed appSpecSchema example_app_config
  ∧ ∃ s, expandAppSpec [VMap example_app_config] = Ok (Some s)
         ∧ app_spec_ok s = true.
Proof.
  assert (H : well_typed appSpecSchema example_app_config)
    by (apply (wt_check_sound depth); vm_compute; reflexivity).
  split; [exact H|].
  destruct (expandAppSpec_well_typed _ H)
    as (s & ? & ? & ? & ? & ? & Hs & Hrest).
  exists s. split; [exact Hs|]. apply Hrest.
Defined.

(** Takes a successful run of binds apart into its steps. *)
Ltac unbind E :=
  cbv zeta in E;
  repeat match goal with
  | H : _ ≫= _ = Ok _ |- _ =>
      let H1 := fresh "Hstep" in
      apply bind_Ok in H as (? & H1 & H); cbv zeta in H
  end.

Ltac missing Hnone :=
  unfold index in *; rewrite Hnone in *;
  repeat match goal with H : _ (default VNil None) = Ok _ |- _ => by cbn in H end.

Ltac in_keys Hk :=
  repeat (apply elem_of_cons in Hk as [->|Hk]); [..|by apply elem_of_nil in Hk].

(** X4. [expandAppSpec] reads every key of the map: when one of "name",
    "region", "domains", "service", "static_site", "worker", "database" is
    absent it panics with a failed type assertion.  An attribute the
    schema declares optional is not optional for [expandAppSpec]; the same
    holds for every key the component loops read. *)
Theorem expand_missing_key (m : gmap string value) (k : string) :
  m !! k = None →
  (k ∈ ["name"; "region"; "domains"; "service"; "static_site"; "worker";
        "database"] →
   expandAppSpec [VMap m] = Panic TypeAssertion)
  ∧ (k ∈ ["name"; "run_command"; "build_command"; "http_port";
          "dockerfile_path"; "env"; "instance_size_slug"; "instance_count";
          "source_dir"; "environment_slug"; "github"; "git"; "routes";
          "health_check"] →
     expandAppSpecServices [VMap m] = Panic TypeAssertion)
  ∧ (k ∈ ["name"; "build_command"; "dockerfile_path"; "env"; "source_dir";
          "output_dir"; "index_document"; "error_document";
          "environment_slug"; "github"; "git"; "routes"] →
     expandAppSpecStaticSites [VMap m] = Panic TypeAssertion)
  ∧ (k ∈ ["name"; "run_command"; "build_command"; "dockerfile_path"; "env";
          "instance_size_slug"; "instance_count"; "source_dir";
          "environment_slug"; "github"; "git"] →
     expandAppSpecWorkers [VMap m] = Panic TypeAssertion)
  ∧ (k ∈ ["name"; "engine"; "version"; "production"; "cluster_name";
          "db_name"; "db_user"] →
     expandAppSpecDatabases [VMap m] = Panic TypeAssertion).
Proof.
  intros Hnone. split; [|split; [|split; [|split]]]; intros Hk.
  - destruct (expandAppSpec [VMap m]) as [r|p] eqn:E;
      [exfalso|by rewrite (expand_app_spec_panics _ p E)].
    unfold expandAppSpec in E.
    cbn -[expandAppDomainSpec expandAppSpecServices expandAppSpecStaticSites
          expandAppSpecWorkers expandAppSpecDatabases Set_.List index] in E.
    unbind E. in_keys Hk; missing Hnone.
  - destruct (expandAppSpecServices [VMap m]) as [r|p] eqn:E;
      [exfalso|by rewrite (expand_services_panics _ p E)].
    unfold expandAppSpecServices, expandAppSpecServices_item in E.
    cbn [mapM mbind result_bind as_map] in E.
    unbind E. in_keys Hk; missing Hnone.
  - destruct (expandAppSpecStaticSites [VMap m]) as [r|p] eqn:E;
      [exfalso|by rewrite (expand_static_sites_panics _ p E)].
    unfold expandAppSpecStaticSites, expandAppSpecStaticSites_item in E.
    cbn [mapM mbind result_bind as_map] in E.
    unbind E. in_keys Hk; missing Hnone.
  - destruct (expandAppSpecWorkers [VMap m]) as [r|p] eqn:E;
      [exfalso|by rewrite (expand_workers_panics _ p E)].
    unfold expandAppSpecWorkers, expandAppSpecWorkers_item in E.
    cbn [mapM mbind result_bind as_map] in E.
    unbind E. in_keys Hk; missing Hnone.
  - destruct (expandAppSpecDatabases [VMap m]) as [r|p] eqn:E;
      [exfalso|by rewrite (expand_databases_panics _ p E)].
    unfold expandAppSpecDatabases, expandAppSpecDatabases_item in E.
    cbn [mapM mbind result_bind as_map] in E.
    unbind E. in_keys Hk; missing Hnone.
Qed.

Lemma expand_missing_key_witness :
  delete "service" example_app_config !! "service" = None
  ∧ expandAppSpec [VMap (delete "service" example_app_config)]
    = Panic TypeAssertion.
Proof.
  assert (H : delete "service" example_app_config !! "service" = None)
    by apply lookup_delete_eq.
  split; [exact H|].
  apply (proj1 (expand_missing_key _ "service" H)).
  apply (bool_decide_unpack _). vm_compute. reflexivity.
Defined.

(** * Expand after flatten on the nested blocks *)

Lemma env_of_elem x : env_of (selem_value (env_elem x)) = x.
Proof. by destruct x. Qed.

Lemma route_of_value x : route_of (route_value x) = x.
Proof. by destruct x. Qed.

Lemma expandAppRoutes_values (routes : list AppRouteSpec.t) :
  expandAppRoutes (route_value <$> routes) = Ok (Some (Some <$> routes)).
Proof.
  unfold expandAppRoutes.
  rewrite (mapM_fmap _ route_value Some); [done|].
  intros x _. by destruct x.
Qed.

Lemma kept_per_code_distinct {A} (code : A → Z) (l l' : list A) :
  kept_per_code code l l' → codes_distinct code l → ∀ x, x ∈ l' ↔ x ∈ l.
Proof.
  intros (_ & Hsub & Hcode & _) Hd x. split; [apply Hsub|].
  intros Hx. destruct (Hcode x Hx) as (y & Hy & Hc).
  by rewrite <- (Hd y x (Hsub y Hy) Hx Hc).
Qed.

Lemma kept_per_code_ext {A} (code code' : A → Z) (l l' : list A) :
  (∀ x, code x = code' x) → kept_per_code code l l' → kept_per_code code' l l'.
Proof.
  intros Hc (Hnd & Hsub & Hcode & Hone).
  split; [done|]. split; [done|]. split.
  - intros x Hx. destruct (Hcode x Hx) as (y & Hy & Heq).
    exists y. split; [done|]. by rewrite <- !Hc.
  - intros x y Hx Hy. rewrite <- !Hc. by apply Hone.
Qed.

(** The listing of a set built by adding the images of [items], read back
    with a left inverse [f] of [g]. *)
Lemma set_listing {A} F (g : A → selem) (f : selem → A) (items : list A) :
  (∀ x, f (g x) = x) →
  kept_per_code (λ x, Set_.code F (g x)) items
    (f <$> elements (add_all F (g <$> items) ∅)).
Proof.
  intros Hfg. set (st := add_all F (g <$> items) ∅).
  assert (Hst : ∀ e, e ∈ st → ∃ x, e = g x ∧ x ∈ items).
  { intros e [He|He]%add_all_sub; [|by apply elem_of_empty in He].
    apply list_elem_of_fmap in He as (x & -> & Hx). by exists x. }
  assert (Hone : one_per_code F st)
    by apply add_all_one_per_code, one_per_code_empty.
  split; [|split; [|split]].
  - apply NoDup_fmap_2_strong; [|apply NoDup_elements].
    intros e1 e2 H1%elem_of_elements H2%elem_of_elements Heq.
    destruct (Hst e1 H1) as (x1 & -> & _), (Hst e2 H2) as (x2 & -> & _).
    rewrite !Hfg in Heq. by subst.
  - intros x (e & -> & He%elem_of_elements)%list_elem_of_fmap.
    destruct (Hst e He) as (y & -> & Hy). by rewrite Hfg.
  - intros x Hx.
    destruct (add_all_code F (g <$> items) ∅ (g x)) as (e & He & Hc);
      [by apply list_elem_of_fmap_2|].
    destruct (Hst e He) as (y & -> & Hy). exists y. split; [|done].
    apply list_elem_of_fmap. exists (g y). split; [by rewrite Hfg|].
    by apply elem_of_elements.
  - intros x y (e1 & -> & H1%elem_of_elements)%list_elem_of_fmap
      (e2 & -> & H2%elem_of_elements)%list_elem_of_fmap.
    destruct (Hst e1 H1) as (x1 & Hx1 & _), (Hst e2 H2) as (x2 & Hx2 & _).
    intros Hc. f_equal. apply (Hone e1 e2 H1 H2).
    by rewrite Hx1, Hx2, <- (Hfg x1), <- (Hfg x2), <- Hx1, <- Hx2.
Qed.

Lemma expandAppEnvs_elems (st : gset selem) :
  (∀ e, e ∈ st → ∃ x, e = env_elem x) →
  expandAppEnvs (Set_.List st) = Ok (ptrs env_of (Set_.List st)).
Proof.
  intros Hst. unfold expandAppEnvs, ptrs.
  rewrite <- (list_fmap_id (Set_.List _)) at 1.
  rewrite (mapM_fmap _ id (λ v, Some (env_of v))); [done|].
  intros v (e & -> & He%elem_of_elements)%list_elem_of_fmap.
  destruct (Hst e He) as (x & ->). by destruct x.
Qed.

(** The variables an environment set lists: one of [envs] per hash code. *)
Lemma env_add_all_listing (envs : list AppVariableDefinition.t) :
  ∃ l, expandAppEnvs
         (Set_.List (add_all (SetFunc_hash (HashResource appSpecEnvSchema))
                       (env_elem <$> envs) ∅))
       = Ok (Some (Some <$> l))
       ∧ kept_per_code env_code envs l.
Proof.
  set (F := SetFunc_hash (HashResource appSpecEnvSchema)).
  set (st := add_all F (env_elem <$> envs) ∅).
  exists ((λ e, env_of (selem_value e)) <$> elements st). split.
  - rewrite expandAppEnvs_elems.
    + unfold ptrs, Set_.List. by rewrite <- !list_fmap_compose.
    + intros e [He|He]%add_all_sub; [|by apply elem_of_empty in He].
      apply list_elem_of_fmap in He as (x & -> & _). by exists x.
  - apply (set_listing F env_elem (λ e, env_of (selem_value e))).
    apply env_of_elem.
Qed.

Lemma env_set_listing (envs : list AppVariableDefinition.t) :
  ∃ st l, flattenAppEnvs (Some (Some <$> envs)) = Ok st
          ∧ expandAppEnvs (Set_.List st) = Ok (Some (Some <$> l))
          ∧ kept_per_code env_code envs l.
Proof.
  destruct (env_add_all_listing envs) as (l & Hl & Hk).
  eexists _, l. split; [by apply (flattenAppEnvs_ok _ envs)|]. done.
Qed.

Lemma domain_set_listing (domains : list AppDomainSpec.t) :
  ∃ st l, flattenAppDomainSpec (Some (Some <$> domains)) = Ok st
          ∧ expandAppDomainSpec (Set_.List st) = Ok (Some (Some <$> l))
          ∧ kept_per_code domain_code domains l.
Proof.
  set (g := λ d, EString (AppDomainSpec.Domain d)).
  set (st := add_all HashString (g <$> domains) ∅).
  exists st, ((λ e, domain_of (selem_value e)) <$> elements st).
  split; [apply flattenAppDomainSpec_ptrs|]. split.
  - unfold expandAppDomainSpec, Set_.List.
    rewrite (mapM_fmap _ selem_value (λ e, Some (domain_of (selem_value e)))).
    + cbn. by rewrite <- list_fmap_compose.
    + intros e [He|He]%elem_of_elements%add_all_sub;
        [|by apply elem_of_empty in He].
      by apply list_elem_of_fmap in He as (x & -> & _).
  - apply (kept_per_code_ext (λ d, Set_.code HashString (g d))).
    + intros d. apply code_HashString.
    + apply (set_listing HashString g (λ e, domain_of (selem_value e))).
      intros d. by destruct d.
Qed.

(** X5. Flattening a GitHub source, a Git source or a health check and
    expanding the result gives the struct back.  Routes come back in
    order, a nil slice of routes as an empty one.  Environment variables
    and domains go through a set that keeps one item per hash code: what
    comes back has no duplicates, holds only items that went in, holds for
    every item that went in one with the same hash code, and holds no two
    items with the same hash code.  When the hash codes of the items that
    went in are pairwise distinct, exactly these items come back. *)
Theorem expand_flatten_blocks (github : GitHubSourceSpec.t)
    (git : GitSourceSpec.t) (check : AppServiceSpecHealthCheck.t)
    (routes : list AppRouteSpec.t) (envs : list AppVariableDefinition.t)
    (domains : list AppDomainSpec.t) :
  expandAppGitHubSourceSpec (flattenAppGitHubSourceSpec (Some github))
  = Ok (Some github)
  ∧ expandAppGitSourceSpec (flattenAppGitSourceSpec (Some git)) = Ok (Some git)
  ∧ expandAppHealthCheck (flattenAppHealthCheck (Some check)) = Ok (Some check)
  ∧ (∃ l, flattenAppRoutes (Some (Some <$> routes)) = Ok l
          ∧ expandAppRoutes l = Ok (Some (Some <$> routes)))
  ∧ (∃ l, flattenAppRoutes None = Ok l ∧ expandAppRoutes l = Ok (Some []))
  ∧ (∃ st l, flattenAppEnvs (Some (Some <$> envs)) = Ok st
             ∧ expandAppEnvs (Set_.List st) = Ok (Some (Some <$> l))
             ∧ kept_per_code env_code envs l
             ∧ (codes_distinct env_code envs → ∀ x, x ∈ l ↔ x ∈ envs))
  ∧ (∃ st l, flattenAppDomainSpec (Some (Some <$> domains)) = Ok st
             ∧ expandAppDomainSpec (Set_.List st) = Ok (Some (Some <$> l))
             ∧ kept_per_code domain_code domains l
             ∧ (codes_distinct domain_code domains → ∀ x, x ∈ l ↔ x ∈ domains)).
Proof.
  split; [by destruct github|].
  split; [by destruct git|].
  split; [by destruct check|].
  split.
  { eexists. split; [by apply (flattenAppRoutes_ok _ routes)|].
    apply expandAppRoutes_values. }
  split; [by eexists|].
  split.
  { destruct (env_set_listing envs) as (st & l & Hf & He & Hk).
    exists st, l. split; [done|]. split; [done|]. split; [done|].
    by apply kept_per_code_distinct. }
  destruct (domain_set_listing domains) as (st & l & Hf & He & Hk).
  exists st, l. split; [done|]. split; [done|]. split; [done|].
  by apply kept_per_code_distinct.
Qed.

(** * Flatten after expand on the nested blocks *)

Lemma flatten_expand_routes strict l :
  Forall (wt_elem strict (ElemResource (mkResource appSpecRouteSchema))) l →
  flattenAppRoutes (ptrs route_of l) = Ok l.
Proof.
  intros Hl. unfold ptrs.
  rewrite (flattenAppRoutes_ok _ (route_of <$> l))
    by (cbn [elems default]; by rewrite <- list_fmap_compose).
  f_equal. rewrite <- list_fmap_compose.
  rewrite <- (list_fmap_id l) at 2.
  apply Forall_fmap_ext_1. eapply Forall_impl; [exact Hl|].
  intros x Hx. by apply (route_value_of strict).
Qed.

(** X6. Expanding a well-typed GitHub, Git or health-check block and
    flattening the struct gives the block back; so does a list of
    well-typed route blocks, in order, and a set of well-typed environment
    variables, which as a set holds one item per hash code. *)
Theorem flatten_expand_blocks (github git check : gmap string value)
    (routes : list (gmap string value)) (envs : gset selem) :
  well_typed appSpecGitHubSourceSchema github →
  well_typed appSpecGitSourceSchema git →
  well_typed appSpecHealthCheckSchema check →
  Forall (well_typed appSpecRouteSchema) routes →
  (∀ e, e ∈ envs → ∃ m, selem_value e = VMap m
                        ∧ well_typed (Schema_ appSpecEnvSchema) m) →
  one_per_code (SetFunc_hash (HashResource appSpecEnvSchema)) envs →
  (∃ p, expandAppGitHubSourceSpec [VMap github] = Ok p
        ∧ flattenAppGitHubSourceSpec p = [VMap github])
  ∧ (∃ p, expandAppGitSourceSpec [VMap git] = Ok p
          ∧ flattenAppGitSourceSpec p = [VMap git])
  ∧ (∃ p, expandAppHealthCheck [VMap check] = Ok p
          ∧ flattenAppHealthCheck p = [VMap check])
  ∧ (∃ s, expandAppRoutes (VMap <$> routes) = Ok s
          ∧ flattenAppRoutes s = Ok (VMap <$> routes))
  ∧ (∃ s, expandAppEnvs (Set_.List envs) = Ok s
          ∧ flattenAppEnvs s = Ok envs).
Proof.
  intros Hgh Hg Hc Hr He Hone.
  split; [|split; [|split; [|split]]].
  - eexists. split; [by apply (expandAppGitHubSourceSpec_wt false)|].
    by apply (flatten_github_of false).
  - eexists. split; [by apply (expandAppGitSourceSpec_wt false)|].
    by apply (flatten_git_of false).
  - eexists. split; [by apply (expandAppHealthCheck_wt false)|].
    by apply (flatten_health_check_of false).
  - assert (Hr' : Forall (wt_elem false (ElemResource (mkResource appSpecRouteSchema)))
                    (VMap <$> routes)) by (by apply Forall_fmap).
    eexists. split; [by apply (expandAppRoutes_wt false)|].
    by apply (flatten_expand_routes false).
  - assert (He' : ∀ e, e ∈ envs →
               wt_elem false (ElemResource appSpecEnvSchema) (selem_value e)).
    { intros e Hin. destruct (He e Hin) as (m & -> & Hm). exact Hm. }
    eexists. split; [by apply (expandAppEnvs_wt_set false)|].
    by apply (flatten_envs_of false).
Qed.

Lemma flatten_expand_blocks_witness :
  (∃ p, expandAppGitHubSourceSpec [VMap example_github_config] = Ok p
        ∧ flattenAppGitHubSourceSpec p = [VMap example_github_config])
  ∧ (∃ p, expandAppGitSourceSpec [VMap example_git_config] = Ok p
          ∧ flattenAppGitSourceSpec p = [VMap example_git_config])
  ∧ (∃ p, expandAppHealthCheck [VMap {[ "path" := VString "/healthz" ]}] = Ok p
          ∧ flattenAppHealthCheck p = [VMap {[ "path" := VString "/healthz" ]}])
  ∧ (∃ s, expandAppRoutes (VMap <$> example_route_configs) = Ok s
          ∧ flattenAppRoutes s = Ok (VMap <$> example_route_configs))
  ∧ (∃ s, expandAppEnvs (Set_.List {[ example_env ]}) = Ok s
          ∧ flattenAppEnvs s = Ok {[ example_env ]}).
Proof.
  apply flatten_expand_blocks.
  - apply (wt_check_sound depth). vm_compute. reflexivity.
  - apply (wt_check_sound depth). vm_compute. reflexivity.
  - apply (wt_check_sound depth). vm_compute. reflexivity.
  - repeat apply Forall_cons_2; [..|by apply Forall_nil_2];
      apply (wt_check_sound depth); vm_compute; reflexivity.
  - intros e ->%elem_of_singleton. eexists. split; [reflexivity|].
    apply (wt_check_sound depth). vm_compute. reflexivity.
  - by intros x y ->%elem_of_singleton ->%elem_of_singleton _.
Defined.

(** * Flatten after expand on the components *)

#[global] Instance VMap_inj : Inj (=) (=) VMap.
Proof. by intros ?? [= ->]. Qed.

Lemma flatten_expand_loop {B}
    (expand_item : value → result (ptr B))
    (flatten_item : ptr B → result (gmap string value))
    (dec : value → B) (P : value → Prop)
    (t : gmap string value → gmap string value)
    (ms : list (gmap string value)) :
  (∀ v, P v → expand_item v = Ok (Some (dec v))) →
  (∀ v, P v → ∃ m, v = VMap m ∧ flatten_item (Some (dec v)) = Ok (t m)) →
  Forall (λ m, P (VMap m)) ms →
  ∃ s, (appItems ← mapM expand_item (VMap <$> ms); Ok (Some appItems)) = Ok s
       ∧ foldM_from (λ result i x, r ← flatten_item x; Ok (<[i:=r]> result))
           0%nat (elems s) (replicate (len s) ∅)
         = Ok (t <$> ms).
Proof.
  intros He Hf Hms.
  assert (Hl : Forall P (VMap <$> ms)) by (by apply Forall_fmap).
  exists (ptrs dec (VMap <$> ms)). split.
  - by rewrite (mapM_wt P _ dec _ He Hl).
  - destruct (flatten_loop_of flatten_item dec P t _ Hf Hl) as (ms' & Heq & ->).
    by apply (inj (fmap VMap)) in Heq as ->.
Qed.

(** X7. On configured blocks that conform to their schema, flattening what
    the expand function returned gives: the service blocks and the
    static-site blocks unchanged; the worker blocks without their "routes"
    key, which neither function of the workers touches; the database blocks
    with "engine" stored as a [godo.AppDatabaseSpecEngine], no longer a
    string. *)
Theorem flatten_expand_components
    (services static_sites workers databases : list (gmap string value)) :
  Forall (conforming (Schema_ appSpecServicesSchema)) services →
  Forall (conforming (Schema_ appSpecStaticSiteSchema)) static_sites →
  Forall (conforming (Schema_ appSpecWorkerSchema)) workers →
  Forall (conforming (Schema_ appSpecDatabaseSchema)) databases →
  (∃ s, expandAppSpecServices (VMap <$> services) = Ok s
        ∧ flattenAppSpecServices s = Ok services)
  ∧ (∃ s, expandAppSpecStaticSites (VMap <$> static_sites) = Ok s
          ∧ flattenAppSpecStaticSites s = Ok static_sites)
  ∧ (∃ s, expandAppSpecWorkers (VMap <$> workers) = Ok s
          ∧ flattenAppSpecWorkers s = Ok (delete "routes" <$> workers))
  ∧ (∃ s, expandAppSpecDatabases (VMap <$> databases) = Ok s
          ∧ flattenAppSpecDatabases s = Ok (engine_typed <$> databases)).
Proof.
  intros Hs Hst Hw Hd.
  split; [|split; [|split]].
  - destruct (flatten_expand_loop _ _ service_of
                (wt_elem true (ElemResource appSpecServicesSchema)) id services
                (expandAppSpecServices_item_wt true) flatten_service_of Hs)
      as (s & He & Hf).
    rewrite list_fmap_id in Hf. by exists s.
  - destruct (flatten_expand_loop _ _ static_site_of
                (wt_elem true (ElemResource appSpecStaticSiteSchema)) id
                static_sites (expandAppSpecStaticSites_item_wt true)
                flatten_static_site_of Hst)
      as (s & He & Hf).
    rewrite list_fmap_id in Hf. by exists s.
  - apply (flatten_expand_loop _ _ worker_of
             (wt_elem true (ElemResource appSpecWorkerSchema))).
    + apply expandAppSpecWorkers_item_wt.
    + apply flatten_worker_of.
    + exact Hw.
  - apply (flatten_expand_loop _ _ database_of
             (wt_elem true (ElemResource appSpecDatabaseSchema))).
    + apply expandAppSpecDatabases_item_wt.
    + apply flatten_database_of.
    + exact Hd.
Qed.

Lemma flatten_expand_components_witness :
  (∃ s, expandAppSpecServices (VMap <$> [example_service_config]) = Ok s
        ∧ flattenAppSpecServices s = Ok [example_service_config])
  ∧ (∃ s, expandAppSpecStaticSites (VMap <$> [example_static_site_config]) = Ok s
          ∧ flattenAppSpecStaticSites s = Ok [example_static_site_config])
  ∧ (∃ s, expandAppSpecWorkers (VMap <$> [example_worker_config]) = Ok s
          ∧ flattenAppSpecWorkers s
            = Ok (delete "routes" <$> [example_worker_config]))
  ∧ (∃ s, expandAppSpecDatabases (VMap <$> [example_postgres_config]) = Ok s
          ∧ flattenAppSpecDatabases s
            = Ok (engine_typed <$> [example_postgres_config])).
Proof.
  apply flatten_expand_components;
    (apply Forall_cons_2; [|by apply Forall_nil_2]);
    apply (wt_check_sound depth); vm_compute; reflexivity.
Defined.

(** * Flatten after expand on the app spec *)

Lemma lookup_set_component_ne k k' l r :
  k ≠ k' → set_component k l r !! k' = r !! k'.
Proof. intros Hk. destruct l; [done|]. by apply lookup_insert_ne. Qed.

Lemma lookup_set_component k l r :
  r !! k = None → set_component k l r !! k = component_list l.
Proof. intros Hk. destruct l; [done|]. by apply lookup_insert_eq. Qed.

Lemma flatten_component_ok {A}
    (f : slice (ptr A) → result (list (gmap string value)))
    (x : slice (ptr A)) k (r : gmap string value) l :
  f x = Ok l → length l = len x →
  (if (0 <? len x)%nat then y ← f x; Ok (<[k := VMapList y]> r) else Ok r)
  = Ok (set_component k l r).
Proof.
  intros Hf Hlen. rewrite Hf, <- Hlen. by destruct l.
Qed.

(** X8. For configuration that conforms to [appSpecSchema], [expandAppSpec]
    followed by [flattenAppSpec] returns one map.  It has the "name",
    "region" and "domains" of the configuration.  A component key is absent
    when the configuration has no block of that kind; otherwise it holds a
    list of maps: the service and static-site blocks as configured, the
    worker blocks without "routes", the database blocks with a typed
    "engine". *)
Theorem flatten_expand_app_spec (m : gmap string value) :
  conforming appSpecSchema m →
  ∃ s r services static_sites workers databases,
    expandAppSpec [VMap m] = Ok (Some s)
    ∧ flattenAppSpec (Some s) = Ok [r]
    ∧ m !! "service" = Some (VList (VMap <$> services))
    ∧ m !! "static_site" = Some (VList (VMap <$> static_sites))
    ∧ m !! "worker" = Some (VList (VMap <$> workers))
    ∧ m !! "database" = Some (VList (VMap <$> databases))
    ∧ r !! "name" = m !! "name"
    ∧ r !! "region" = m !! "region"
    ∧ r !! "domains" = m !! "domains"
    ∧ r !! "service" = component_list services
    ∧ r !! "static_site" = component_list static_sites
    ∧ r !! "worker" = component_list (delete "routes" <$> workers)
    ∧ r !! "database" = component_list (engine_typed <$> databases).
Proof.
  intros H.
  destruct (wt_string_at _ _ _ H "name" eq_refl) as [name Hname].
  destruct (wt_string_at _ _ _ H "region" eq_refl) as [region Hregion].
  destruct (wt_set_at _ _ _ H "domains" eq_refl) as (st & Hst & Hwst).
  pose proof (wt_set_codes_at _ _ _ H "domains" st Hst eq_refl) as Hcodes.
  change (one_per_code (HashSchema (schema_of TypeString)) st) in Hcodes.
  apply (wt_domains_codes true st Hwst) in Hcodes.
  destruct (wt_list_at _ _ _ H "service" eq_refl) as (l1 & Hl1 & Hw1 & _).
  destruct (wt_list_at _ _ _ H "static_site" eq_refl) as (l2 & Hl2 & Hw2 & _).
  destruct (wt_list_at _ _ _ H "worker" eq_refl) as (l3 & Hl3 & Hw3 & _).
  destruct (wt_list_at _ _ _ H "database" eq_refl) as (l4 & Hl4 & Hw4 & _).
  destruct (flatten_loop_of flattenAppSpecServices_item service_of _ id l1
              flatten_service_of Hw1) as (services & -> & Hf1).
  destruct (flatten_loop_of flattenAppSpecStaticSites_item static_site_of _ id l2
              flatten_static_site_of Hw2) as (static_sites & -> & Hf2).
  destruct (flatten_loop_of flattenAppSpecWorkers_item worker_of _ _ l3
              flatten_worker_of Hw3) as (workers & -> & Hf3).
  destruct (flatten_loop_of flattenAppSpecDatabases_item database_of _ _ l4
              flatten_database_of Hw4) as (databases & -> & Hf4).
  rewrite list_fmap_id in Hf1, Hf2.
  eexists (app_spec_of (VMap m)), _, services, static_sites, workers, databases.
  split; [by apply (expandAppSpec_wt true)|].
  split.
  { unfold flattenAppSpec, app_spec_of.
    cbn [AppSpec.Name AppSpec.Region AppSpec.Domains AppSpec.Services
         AppSpec.StaticSites AppSpec.Workers AppSpec.Databases].
    unfold str, lst, set. rewrite Hname, Hregion, Hst, Hl1, Hl2, Hl3, Hl4.
    rewrite (flatten_domains_of true) by (first [exact Hwst | exact Hcodes]).
    cbn [mbind result_bind].
    rewrite (flatten_component_ok flattenAppSpecServices _ "service" _ services)
      by (first [exact Hf1 | by rewrite len_ptrs, length_fmap]).
    cbn [mbind result_bind].
    rewrite (flatten_component_ok flattenAppSpecStaticSites _ "static_site" _
               static_sites)
      by (first [exact Hf2 | by rewrite len_ptrs, length_fmap]).
    cbn [mbind result_bind].
    rewrite (flatten_component_ok flattenAppSpecWorkers _ "worker" _
               (delete "routes" <$> workers))
      by (first [exact Hf3 | by rewrite len_ptrs, !length_fmap]).
    cbn [mbind result_bind].
    rewrite (flatten_component_ok flattenAppSpecDatabases _ "database" _
               (engine_typed <$> databases))
      by (first [exact Hf4 | by rewrite len_ptrs, !length_fmap]).
    reflexivity. }
  rewrite Hname, Hregion, Hst.
  do 4 (split; [done|]).
  repeat split.
  all: repeat first
    [ rewrite lookup_set_component_ne by done
    | rewrite lookup_set_component
    | rewrite lookup_insert_ne by done
    | rewrite lookup_insert_eq
    | rewrite lookup_empty ]; done.
Qed.

Lemma flatten_expand_app_spec_witness :
  conforming appSpecSchema example_app_config
  ∧ ∃ s r, expandAppSpec [VMap example_app_config] = Ok (Some s)
           ∧ flattenAppSpec (Some s) = Ok [r]
           ∧ r !! "name" = example_app_config !! "name"
           ∧ r !! "domains" = example_app_config !! "domains".
Proof.
  assert (H : conforming appSpecSchema example_app_config)
    by (apply (wt_check_sound depth); vm_compute; reflexivity).
  split; [exact H|].
  destruct (flatten_expand_app_spec example_app_config H)
    as (s & r & l1 & l2 & l3 & l4 & He & Hf & _ & _ & _ & _ & Hn & _ & Hd & _).
  exists s, r. split; [exact He|]. split; [exact Hf|]. split; assumption.
Defined.

(** * Expand on the maps flatten returns *)

Lemma flatten_component_keys {A}
    (f : slice (ptr A) → result (list (gmap string value)))
    (x : slice (ptr A)) k (r r' : gmap string value) :
  (if (0 <? len x)%nat then y ← f x; Ok (<[k := VMapList y]> r) else Ok r)
  = Ok r' →
  (∀ k', k ≠ k' → r' !! k' = r !! k')
  ∧ (r' !! k = r !! k ∨ ∃ l, r' !! k = Some (VMapList l)).
Proof.
  destruct (0 <? len x)%nat.
  - intros (y & _ & [= <-])%bind_Ok. split.
    + intros k' Hk. by apply lookup_insert_ne.
    + right. exists y. by apply lookup_insert_eq.
  - intros [= <-]. by split; [|left].
Qed.

Lemma flattenAppDomainSpec_strings spec st :
  flattenAppDomainSpec spec = Ok st → ∃ strs, Set_.List st = VString <$> strs.
Proof.
  intros H.
  assert (Hok : no_nil spec = true)
    by (by rewrite <- is_ok_flattenAppDomainSpec, H).
  apply no_nil_elems in Hok as [l Hl].
  assert (Hadd : flattenAppDomainSpec spec
                 = Ok (add_all HashString
                         ((λ d, EString (AppDomainSpec.Domain d)) <$> l) ∅)).
  { destruct spec as [sl|]; unfold elems in Hl; cbn [default] in Hl.
    - cbn in Hl. rewrite Hl. apply flattenAppDomainSpec_ptrs.
    - by destruct l. }
  rewrite Hadd in H. injection H as <-.
  set (st := add_all _ _ _).
  assert (Hst : ∀ e, e ∈ elements st → ∃ x, selem_value e = VString x).
  { intros e [He|He]%elem_of_elements%add_all_sub;
      [|by apply elem_of_empty in He].
    apply list_elem_of_fmap in He as (d & -> & _). by eexists. }
  unfold Set_.List. induction (elements st) as [|e es IH].
  - by exists [].
  - destruct (Hst e) as [x Hx]; [by left|].
    destruct IH as [xs Hxs]; [intros e' He'; apply Hst; by right|].
    exists (x :: xs). cbn. by rewrite Hx, Hxs.
Qed.

(** X9. [expandAppSpec] cannot read what [flattenAppSpec] returns: on the
    list of maps flattened from any spec it panics on a type assertion.
    The "service" key is either absent from the map or holds a
    [[]map[string]interface{}], and [expandAppSpec] asserts it to be a
    [[]interface{}]. *)
Theorem expand_flattened_panics (s : AppSpec.t)
    (r : list (gmap string value)) :
  flattenAppSpec (Some s) = Ok r →
  expandAppSpec (VMap <$> r) = Panic TypeAssertion.
Proof.
  unfold flattenAppSpec. cbv zeta. intros H.
  apply bind_Ok in H as (d & Hd & H).
  apply bind_Ok in H as (r1 & H1 & H).
  apply bind_Ok in H as (r2 & H2 & H).
  apply bind_Ok in H as (r3 & H3 & H).
  apply bind_Ok in H as (r4 & H4 & H).
  injection H as <-.
  apply flatten_component_keys in H1 as [N1 S1].
  apply flatten_component_keys in H2 as [N2 _].
  apply flatten_component_keys in H3 as [N3 _].
  apply flatten_component_keys in H4 as [N4 _].
  assert (Hname : r4 !! "name" = Some (VString (AppSpec.Name s)))
    by (by rewrite N4, N3, N2, N1).
  assert (Hregion : r4 !! "region" = Some (VString (AppSpec.Region s)))
    by (by rewrite N4, N3, N2, N1).
  assert (Hdomains : r4 !! "domains" = Some (VSet d))
    by (by rewrite N4, N3, N2, N1).
  assert (Hservice : r4 !! "service" = None
                     ∨ ∃ l, r4 !! "service" = Some (VMapList l)).
  { rewrite N4, N3, N2 by done. destruct S1 as [->|?]; [by left|by right]. }
  destruct (flattenAppDomainSpec_strings _ _ Hd) as [strs Hstrs].
  unfold expandAppSpec.
  cbn [app fmap list_fmap length Nat.eqb orb lookup list_lookup default
       from_option is_nil first mbind result_bind as_map].
  unfold index. rewrite Hname, Hregion, Hdomains.
  cbn [default from_option id is_nil as_string as_set mbind result_bind].
  rewrite Hstrs, expandAppDomainSpec_strings.
  cbn [mbind result_bind].
  by destruct Hservice as [->|[l ->]].
Qed.

Lemma expand_flattened_panics_witness :
  ∃ m, flattenAppSpec (Some example_app_spec) = Ok [m]
       ∧ expandAppSpec (VMap <$> [m]) = Panic TypeAssertion.
Proof.
  destruct (flattenAppSpec_ok example_app_spec) as [m Hm];
    [vm_compute; reflexivity|].
  exists m. split; [exact Hm|]. exact (expand_flattened_panics _ _ Hm).
Defined.

(** * Expand on the maps the component flatteners return *)

Lemma flatten_loop_inv {A} (item : ptr A → result (gmap string value))
    (s : slice (ptr A)) (r : list (gmap string value)) :
  foldM_from (λ result i x, y ← item x; Ok (<[i:=y]> result)) 0%nat (elems s)
    (replicate (len s) ∅) = Ok r →
  mapM item (elems s) = Ok r.
Proof.
  intros H.
  destruct (mapM_ok item (elems s)) as [ys Hys].
  - intros p Hp.
    assert (Hok : forallb (λ p, is_ok (item p)) (elems s) = true)
      by (by rewrite <- (is_ok_flatten_loop item _ 0%nat (replicate (len s) ∅)), H).
    rewrite forallb_forall in Hok. specialize (Hok p).
    destruct (item p); [by eexists|].
    discriminate Hok. by apply list_elem_of_In.
  - pose proof (flatten_loop item s ys Hys) as H'. congruence.
Qed.

Lemma expandAppSpecDatabases_item_flattened db m :
  flattenAppSpecDatabases_item db = Ok m →
  expandAppSpecDatabases_item (VMap m) = Panic TypeAssertion.
Proof.
  destruct db as [db|]; [|done]. intros [= <-]. reflexivity.
Qed.

(** X10. [expandAppSpecDatabases] cannot read what [flattenAppSpecDatabases]
    returns, unless that is the empty list: the flattened "engine" is a
    [godo.AppDatabaseSpecEngine] and the type assertion to [string]
    panics. *)
Theorem expand_flattened_databases (dbs : slice (ptr AppDatabaseSpec.t))
    (r : list (gmap string value)) :
  flattenAppSpecDatabases dbs = Ok r →
  expandAppSpecDatabases (VMap <$> r)
  = match r with [] => Ok (Some []) | _ => Panic TypeAssertion end.
Proof.
  intros H%flatten_loop_inv.
  destruct (elems dbs) as [|p ps]; cbn in H.
  - by injection H as <-.
  - apply bind_Ok in H as (y & Hy & H). apply bind_Ok in H as (ys & _ & [= <-]).
    unfold expandAppSpecDatabases. cbn [fmap list_fmap mapM].
    by rewrite (expandAppSpecDatabases_item_flattened p y Hy).
Qed.

Lemma expand_flattened_databases_witness :
  ∃ r, flattenAppSpecDatabases example_databases = Ok r
       ∧ expandAppSpecDatabases (VMap <$> r) = Panic TypeAssertion.
Proof.
  destruct (flattenAppSpecDatabases example_databases) as [r|] eqn:H;
    [|discriminate H].
  exists r. split; [reflexivity|].
  rewrite (expand_flattened_databases _ _ H).
  destruct r; [discriminate H|reflexivity].
Defined.

(** * Expand after flatten on the services *)

Lemma int64_int x : in_int64 x → int64 (int x) = x.
Proof.
  intros Hx. rewrite (int_in_int64 x Hx).
  unfold in_int64 in Hx. unfold int64, wrap. rewrite Z.mod_small; lia.
Qed.

Ltac lookups :=
  unfold index;
  repeat first [ rewrite lookup_insert_eq
               | rewrite lookup_insert_ne by done ];
  cbn [default from_option id].

Lemma first_block {B St} (expand : list value → result (ptr B))
    (flatten : ptr B → list value) (upd : ptr B → St → St) (p : ptr B)
    (s0 : St) :
  (∀ x, expand (flatten (Some x)) = Ok (Some x)) →
  flatten None = [] →
  (∀ x, (0 <? length (flatten (Some x)))%nat = true) →
  (if (0 <? length (flatten p))%nat
   then x ← expand (flatten p); Ok (upd x s0)
   else Ok s0)
  = Ok (match p with Some _ => upd p s0 | None => s0 end).
Proof.
  intros He Hnil Hlen. destruct p as [x|].
  - by rewrite Hlen, He.
  - by rewrite Hnil.
Qed.

Lemma routes_block (lr : list AppRouteSpec.t) (s0 : AppServiceSpec.t) :
  (if (0 <? length (route_value <$> lr))%nat
   then x ← expandAppRoutes (route_value <$> lr);
        Ok (AppServiceSpec.with_Routes x s0)
   else Ok s0)
  = Ok (match lr with
        | [] => s0
        | _ => AppServiceSpec.with_Routes (Some (Some <$> lr)) s0
        end).
Proof. rewrite expandAppRoutes_values. by destruct lr. Qed.

Ltac fields :=
  cbn [AppServiceSpec.GitHub AppServiceSpec.Git AppServiceSpec.HealthCheck
       AppServiceSpec.Name AppServiceSpec.RunCommand AppServiceSpec.BuildCommand
       AppServiceSpec.HTTPPort AppServiceSpec.DockerfilePath
       AppServiceSpec.InstanceSizeSlug AppServiceSpec.InstanceCount
       AppServiceSpec.SourceDir AppServiceSpec.EnvironmentSlug
       AppServiceSpec.Envs AppServiceSpec.Routes
       AppServiceSpec.with_Routes AppServiceSpec.with_GitHub
       AppServiceSpec.with_Git AppServiceSpec.with_HealthCheck] in *.

Lemma expandAppSpecServices_item_flattened (s : AppServiceSpec.t) :
  service_in_range s →
  ∃ m s', flattenAppSpecServices_item (Some s) = Ok m
          ∧ expandAppSpecServices_item (VMap m) = Ok (Some s')
          ∧ same_service s s'.
Proof.
  intros (Hok & Hport & Hcount).
  unfold service_ok in Hok. apply andb_true_iff in Hok as [He Hr].
  apply no_nil_elems in He as [le Hle]. apply no_nil_elems in Hr as [lr Hlr].
  destruct (env_add_all_listing le) as (le' & Hle' & Hkept).
  unfold flattenAppSpecServices_item. cbn [deref mbind result_bind].
  rewrite (flattenAppRoutes_ok _ lr Hlr), (flattenAppEnvs_ok _ le Hle).
  cbn [mbind result_bind]. eexists _, _. split; [reflexivity|].
  unfold expandAppSpecServices_item. cbn [as_map mbind result_bind].
  lookups. cbn [as_string as_int as_set as_list mbind result_bind].
  rewrite Hle'. cbn [mbind result_bind].
  rewrite !int64_int by done.
  rewrite (first_block expandAppGitHubSourceSpec flattenAppGitHubSourceSpec
             AppServiceSpec.with_GitHub);
    [|by intros []|done|done].
  cbn [mbind result_bind].
  rewrite (first_block expandAppGitSourceSpec flattenAppGitSourceSpec
             AppServiceSpec.with_Git);
    [|by intros []|done|done].
  cbn [mbind result_bind].
  rewrite routes_block. cbn [mbind result_bind].
  rewrite (first_block expandAppHealthCheck flattenAppHealthCheck
             AppServiceSpec.with_HealthCheck);
    [|by intros []|done|done].
  cbn [mbind result_bind].
  split; [reflexivity|].
  unfold same_service.
  destruct s as [n rc bc hp dp envs iss ic sd es gh g routes hc]. fields.
  assert (Hlen : len routes = length lr)
    by (unfold len; by rewrite Hlr, length_fmap).
  destruct gh, g, hc, lr; fields;
    (repeat (split; [reflexivity|]));
    (split; [by rewrite Hlr|]);
    (split; [by rewrite Hlen|]);
    by exists le, le'.
Qed.

Lemma expand_flatten_services_items (l : list AppServiceSpec.t) :
  Forall service_in_range l →
  ∃ ms l', mapM flattenAppSpecServices_item (Some <$> l) = Ok ms
           ∧ mapM expandAppSpecServices_item (VMap <$> ms) = Ok (Some <$> l')
           ∧ Forall2 same_service l l'.
Proof.
  induction 1 as [|s l Hs _ (ms & l' & Hf & He & Hall)].
  - by exists [], [].
  - destruct (expandAppSpecServices_item_flattened s Hs)
      as (m & s' & Hm & Hs' & Hsame).
    exists (m :: ms), (s' :: l'). cbn [fmap list_fmap mapM].
    rewrite Hm. cbn [mbind result_bind]. rewrite Hf. cbn [mbind result_bind].
    split; [done|].
    rewrite Hs'. cbn [mbind result_bind]. rewrite He. cbn [mbind result_bind].
    split; [done|]. by constructor.
Qed.

(** X11. Flattening a slice of services and expanding the maps gives back
    as many services, each with the same fields, GitHub and Git source,
    health check and routes.  Two things change: an empty slice of routes
    comes back nil, and the environment variables come back through a set
    that keeps one variable per hash code: no duplicates, only variables of
    the service, for every variable of the service one with the same hash
    code, and no two with the same hash code, in the order the set lists
    them.  The slices must hold no nil pointer. *)
Theorem expand_flatten_services (l : list AppServiceSpec.t) :
  Forall service_in_range l →
  ∃ ms l', flattenAppSpecServices (Some (Some <$> l)) = Ok ms
           ∧ expandAppSpecServices (VMap <$> ms) = Ok (Some (Some <$> l'))
           ∧ Forall2 same_service l l'.
Proof.
  intros Hl.
  destruct (expand_flatten_services_items l Hl) as (ms & l' & Hf & He & Hall).
  exists ms, l'. split; [|split; [|done]].
  - by apply (flatten_loop flattenAppSpecServices_item (Some (Some <$> l))).
  - unfold expandAppSpecServices. by rewrite He.
Qed.

Lemma expand_flatten_services_witness :
  ∃ ms l', flattenAppSpecServices (Some (Some <$> [example_service])) = Ok ms
           ∧ expandAppSpecServices (VMap <$> ms) = Ok (Some (Some <$> l'))
           ∧ Forall2 same_service [example_service] l'.
Proof.
  apply expand_flatten_services.
  apply Forall_cons_2; [|by apply Forall_nil_2].
  split; [vm_compute; reflexivity|].
  split; unfold in_int64; cbn; lia.
Defined.

(** * The sweeper: which buckets it reaches, and in which order *)

Section sweeper_runs.
Context (error : Type) (Error : error → string).
Context (NewSession : ptr Session.t * option error).
Context (ListBuckets : ListBucketsOutput.t * option error).
Context (GetBucketLocation : string → ptr GetBucketLocationOutput.t * option error).
Context (isAWSErr : option error → string → string → bool).
Context (deleteAllS3ObjectVersions : string → option error).

Notation sweepLoop := (sweepLoop error Error GetBucketLocation deleteAllS3ObjectVersions).
Notation sweep :=
  (testSweepS3BucketObjects error Error NewSession ListBuckets GetBucketLocation
     isAWSErr deleteAllS3ObjectVersions).
Notation bucketRegion := (testS3BucketRegion error GetBucketLocation).
Notation skip := (testSweepSkipSweepError error isAWSErr).

Lemma hasPrefixLoop_prefix bucketName ps p :
  p ∈ ps → String.prefix p bucketName = true →
  hasPrefixLoop bucketName ps = true.
Proof.
  induction ps as [|q ps IH]; cbn; [by intros ?%elem_of_nil|].
  intros [->|Hp]%elem_of_cons Hpre; [by rewrite Hpre|].
  destruct (String.prefix q bucketName); [done|by apply IH].
Qed.

(** The three ways one round of the loop goes for a bucket: skipped for its
    name, located but left alone, or in scope and deleted. *)
Lemma sweepLoop_round region b buckets :
  let name := StringValue (Bucket.Name b) in
  (hasPrefixLoop name prefixes = false
   ∧ sweepLoop region (b :: buckets) = sweepLoop region buckets)
  ∨ (hasPrefixLoop name prefixes = true
     ∧ bucketRegion name ≠ (region, None)
     ∧ sweepLoop region (b :: buckets)
       = (CallGetBucketLocation name :: (sweepLoop region buckets).1,
          (sweepLoop region buckets).2))
  ∨ (hasPrefixLoop name prefixes = true
     ∧ bucketRegion name = (region, None)
     ∧ match deleteAllS3ObjectVersions name with
       | Some e =>
           sweepLoop region (b :: buckets)
           = ([CallGetBucketLocation name; CallDeleteAllS3ObjectVersions name],
              Some ("error listing S3 Bucket (" +:+ name +:+ ") Objects: "
                    +:+ Error e))
       | None =>
           sweepLoop region (b :: buckets)
           = (CallGetBucketLocation name
              :: CallDeleteAllS3ObjectVersions name
              :: (sweepLoop region buckets).1,
              (sweepLoop region buckets).2)
       end).
Proof.
  intros name. cbn [sweepLoop]. fold name.
  destruct (hasPrefixLoop name prefixes) eqn:Hpre; cbn [negb]; [|by left].
  right.
  destruct (bucketRegion name) as [r err] eqn:Hreg.
  destruct err as [e|].
  { left. split; [done|]. split; [done|].
    by destruct (sweepLoop region buckets). }
  destruct (String.eqb r region) eqn:Heq; cbn [negb].
  - apply String.eqb_eq in Heq as ->. right. split; [done|]. split; [done|].
    destruct (deleteAllS3ObjectVersions name); [done|].
    by destruct (sweepLoop region buckets).
  - apply String.eqb_neq in Heq. left. split; [done|].
    split; [by intros [= ->]|]. by destruct (sweepLoop region buckets).
Qed.

Lemma sweepLoop_calls region buckets :
  paired (sweepLoop region buckets).1
  ∧ (CallListBuckets ∉ (sweepLoop region buckets).1)
  ∧ ∀ bucket, CallGetBucketLocation bucket ∈ (sweepLoop region buckets).1 →
      hasPrefixLoop bucket prefixes = true
      ∧ ∃ b, b ∈ buckets ∧ StringValue (Bucket.Name b) = bucket.
Proof.
  induction buckets as [|b buckets (([IH0 IHS] & IHl) & IHg)%and_assoc].
  { split; [by split|]. split; [by intros ?%elem_of_nil|].
    by intros ? ?%elem_of_nil. }
  assert (Hrest : ∀ bucket,
    CallGetBucketLocation bucket ∈ (sweepLoop region buckets).1 →
    hasPrefixLoop bucket prefixes = true
    ∧ ∃ b0, b0 ∈ b :: buckets ∧ StringValue (Bucket.Name b0) = bucket).
  { intros bucket (Hp & b0 & Hb0 & Hn)%IHg. split; [done|].
    exists b0. split; [by right|done]. }
  assert (Hhere : ∀ bucket,
    hasPrefixLoop (StringValue (Bucket.Name b)) prefixes = true →
    CallGetBucketLocation bucket = CallGetBucketLocation (StringValue (Bucket.Name b)) →
    hasPrefixLoop bucket prefixes = true
    ∧ ∃ b0, b0 ∈ b :: buckets ∧ StringValue (Bucket.Name b0) = bucket).
  { intros bucket Hp [= ->]. split; [done|]. exists b. split; [left|done]. }
  destruct (sweepLoop_round region b buckets)
    as [[Hp ->]|[(Hp & Hr & ->)|(Hp & Hr & Hd)]].
  - split; [by split|]. split; [done|]. exact Hrest.
  - cbn [fst]. split; [split|split].
    + by intros bucket [=].
    + intros [|i] bucket; cbn; [by intros ?%IH0|apply IHS].
    + by intros [[=]|?]%elem_of_cons.
    + intros bucket [?|?]%elem_of_cons; [by apply Hhere|by apply Hrest].
  - destruct (deleteAllS3ObjectVersions (StringValue (Bucket.Name b)));
      rewrite Hd; cbn [fst].
    + split; [split|split].
      * by intros bucket [=].
      * intros [|[|i]] bucket; cbn; [by intros [= ->]|done..].
      * by intros [[=]|[[=]|?%elem_of_nil]%elem_of_cons]%elem_of_cons.
      * intros bucket [?|[[=]|?%elem_of_nil]%elem_of_cons]%elem_of_cons;
          [by apply Hhere|done].
    + split; [split|split].
      * by intros bucket [=].
      * intros [|[|i]] bucket; cbn;
          [by intros [= ->]|by intros ?%IH0|apply IHS].
      * by intros [[=]|[[=]|?]%elem_of_cons]%elem_of_cons.
      * intros bucket [?|[[=]|?]%elem_of_cons]%elem_of_cons;
          [by apply Hhere|by apply Hrest].
Qed.

Lemma sweepLoop_nil region buckets b :
  (sweepLoop region buckets).2 = None →
  b ∈ buckets →
  hasPrefixLoop (StringValue (Bucket.Name b)) prefixes = true →
  bucketRegion (StringValue (Bucket.Name b)) = (region, None) →
  CallDeleteAllS3ObjectVersions (StringValue (Bucket.Name b))
    ∈ (sweepLoop region buckets).1
  ∧ deleteAllS3ObjectVersions (StringValue (Bucket.Name b)) = None.
Proof.
  induction buckets as [|b0 buckets IH]; [by intros _ ?%elem_of_nil|].
  intros Hret Hb Hp Hr.
  destruct (sweepLoop_round region b0 buckets)
    as [[Hp0 Heq]|[(Hp0 & Hr0 & Heq)|(Hp0 & Hr0 & Hd)]].
  - rewrite Heq in Hret |- *.
    apply elem_of_cons in Hb as [->|Hb]; [congruence|by apply IH].
  - rewrite Heq in Hret |- *. cbn [fst snd] in *.
    apply elem_of_cons in Hb as [->|Hb]; [congruence|].
    destruct (IH Hret Hb Hp Hr) as [Hin Hnone]. split; [by right|done].
  - destruct (deleteAllS3ObjectVersions (StringValue (Bucket.Name b0)))
      as [e|] eqn:Hdel; rewrite Hd in Hret |- *; cbn [fst snd] in *; [done|].
    apply elem_of_cons in Hb as [->|Hb].
    + split; [right; left|done].
    + destruct (IH Hret Hb Hp Hr) as [Hin Hnone].
      split; [by do 2 right|done].
Qed.

Lemma sweepLoop_error region buckets msg :
  (sweepLoop region buckets).2 = Some msg →
  ∃ pre b post e,
    buckets = pre ++ b :: post
    ∧ (sweepLoop region pre).2 = None
    ∧ hasPrefixLoop (StringValue (Bucket.Name b)) prefixes = true
    ∧ bucketRegion (StringValue (Bucket.Name b)) = (region, None)
    ∧ deleteAllS3ObjectVersions (StringValue (Bucket.Name b)) = Some e
    ∧ msg = "error listing S3 Bucket (" +:+ StringValue (Bucket.Name b)
            +:+ ") Objects: " +:+ Error e
    ∧ (sweepLoop region buckets).1
      = (sweepLoop region pre).1
        ++ [CallGetBucketLocation (StringValue (Bucket.Name b));
            CallDeleteAllS3ObjectVersions (StringValue (Bucket.Name b))].
Proof.
  induction buckets as [|b0 buckets IH]; [done|]. intros Hret.
  destruct (sweepLoop_round region b0 buckets)
    as [[Hp0 Heq]|[(Hp0 & Hr0 & Heq)|(Hp0 & Hr0 & Hd)]].
  - rewrite Heq in Hret |- *.
    destruct (IH Hret) as (pre & b & post & e & -> & Hn & Hp & Hr & He & Hm & Hc).
    exists (b0 :: pre), b, post, e.
    destruct (sweepLoop_round region b0 pre) as [[_ Heq']|[(Hx & _)|(Hx & _)]];
      [|congruence..].
    rewrite Heq'. done.
  - rewrite Heq in Hret |- *. cbn [fst snd] in *.
    destruct (IH Hret) as (pre & b & post & e & -> & Hn & Hp & Hr & He & Hm & Hc).
    exists (b0 :: pre), b, post, e.
    destruct (sweepLoop_round region b0 pre)
      as [[Hx _]|[(_ & _ & Heq')|(_ & Hx & _)]]; [congruence| |congruence].
    rewrite Heq'. cbn [fst snd]. rewrite Hc. done.
  - destruct (deleteAllS3ObjectVersions (StringValue (Bucket.Name b0)))
      as [e|] eqn:Hdel; rewrite Hd in Hret |- *; cbn [fst snd] in *.
    + injection Hret as <-. by exists [], b0, buckets, e.
    + destruct (IH Hret)
        as (pre & b & post & e & -> & Hn & Hp & Hr & He & Hm & Hc).
      exists (b0 :: pre), b, post, e.
      destruct (sweepLoop_round region b0 pre)
        as [[Hx _]|[(_ & Hx & _)|(_ & _ & Heq')]]; [congruence..|].
      rewrite Hdel in Heq'. rewrite Heq'. cbn [fst snd]. rewrite Hc. done.
Qed.

(** The ways a sweep ends without reaching the loop, and the way it
    reaches it. *)
Lemma sweep_short region :
  (NewSession.1 = None ∧ sweep region = ([], Panics NilDereference))
  ∨ (∃ conn e, NewSession = (Some conn, Some e) ∧ sweep region = ([], Fatal))
  ∨ ((∃ conn, NewSession = (Some conn, None)) ∧ skip ListBuckets.2 = true
     ∧ sweep region = ([CallListBuckets], Return None))
  ∨ ((∃ conn, NewSession = (Some conn, None)) ∧ skip ListBuckets.2 = false
     ∧ ∃ e, ListBuckets.2 = Some e
            ∧ sweep region
              = ([CallListBuckets],
                 Return (Some ("error listing S3 Bucket Objects: " +:+ Error e))))
  ∨ ((∃ conn, NewSession = (Some conn, None)) ∧ skip None = false
     ∧ ListBuckets.2 = None
     ∧ sweep region
       = (CallListBuckets
          :: (sweepLoop region (ListBucketsOutput.Buckets ListBuckets.1)).1,
          Return (sweepLoop region (ListBucketsOutput.Buckets ListBuckets.1)).2)).
Proof.
  unfold testSweepS3BucketObjects.
  destruct NewSession as [[conn|] [e|]]; cbn [s3_New deref fst];
    [right; left; by exists conn, e|..|by left|by left].
  do 2 right.
  assert (Hs : ∃ conn0, (Some conn, None) = (Some conn0, @None error))
    by (by exists conn).
  destruct (skip ListBuckets.2) eqn:Hskip.
  { left. split; [done|]. split; [done|].
    destruct ListBuckets. cbn [snd] in Hskip. by rewrite Hskip. }
  right. destruct ListBuckets.2 as [e|] eqn:Herr.
  { left. split; [done|]. split; [done|]. exists e. split; [done|].
    destruct ListBuckets. cbn [snd] in *. subst. by rewrite Hskip. }
  right. split; [done|]. split; [done|]. split; [done|].
  destruct ListBuckets as [output err]. cbn [fst snd] in *. subst err.
  rewrite Hskip.
  destruct (ListBucketsOutput.Buckets output) as [|b bs]; [done|].
  cbn [length Nat.eqb].
  by destruct (sweepLoop region (b :: bs)).
Qed.

(** X12. When the listing succeeded and the sweep returns nil, every listed
    bucket in scope (a name with one of the prefixes, located in the region
    being swept) got its deletion call, and that call succeeded. *)
Theorem sweep_nil_deletes_all_in_scope (region : string) (b : Bucket.t)
    (p : string) :
  skip ListBuckets.2 = false →
  (sweep region).2 = Return None →
  b ∈ ListBucketsOutput.Buckets ListBuckets.1 →
  p ∈ ["mybucket."; "mylogs."; "tf-acc"; "tf-object-test"; "tf-test";
       "tf-emr-bootstrap"] →
  String.prefix p (StringValue (Bucket.Name b)) = true →
  bucketRegion (StringValue (Bucket.Name b)) = (region, None) →
  CallDeleteAllS3ObjectVersions (StringValue (Bucket.Name b)) ∈ (sweep region).1
  ∧ deleteAllS3ObjectVersions (StringValue (Bucket.Name b)) = None.
Proof.
  intros Hskip Hret Hb Hp Hpre Hr.
  destruct (sweep_short region)
    as [[_ Heq]|[(c & e & _ & Heq)|[(_ & Hs & _)|[(_ & _ & e & _ & Heq)
       |(_ & _ & _ & Heq)]]]];
    [by rewrite Heq in Hret..|congruence|by rewrite Heq in Hret|].
  rewrite Heq in Hret |- *. cbn [fst snd] in *. injection Hret as Hret.
  destruct (sweepLoop_nil region _ b Hret Hb) as [Hin Hnone];
    [by apply (hasPrefixLoop_prefix _ _ p)|done|].
  split; [by right|done].
Qed.

(** X13. A sweep that returns an error after a successful listing stopped at
    the first bucket in scope whose deletion failed: the error names that
    bucket, the deletion is the last call made, and the buckets listed
    after it are not touched. *)
Theorem sweep_stops_at_first_failure (region msg : string) :
  ListBuckets.2 = None →
  (sweep region).2 = Return (Some msg) →
  ∃ pre b post e,
    ListBucketsOutput.Buckets ListBuckets.1 = pre ++ b :: post
    ∧ deleteAllS3ObjectVersions (StringValue (Bucket.Name b)) = Some e
    ∧ bucketRegion (StringValue (Bucket.Name b)) = (region, None)
    ∧ msg = "error listing S3 Bucket (" +:+ StringValue (Bucket.Name b)
            +:+ ") Objects: " +:+ Error e
    ∧ (sweepLoop region pre).2 = None
    ∧ (sweep region).1
      = CallListBuckets :: (sweepLoop region pre).1
        ++ [CallGetBucketLocation (StringValue (Bucket.Name b));
            CallDeleteAllS3ObjectVersions (StringValue (Bucket.Name b))].
Proof.
  intros Herr Hret.
  destruct (sweep_short region)
    as [[_ Heq]|[(c & e & _ & Heq)|[(_ & _ & Heq)|[(_ & _ & e & He & _)
       |(_ & _ & _ & Heq)]]]];
    [by rewrite Heq in Hret..|congruence|].
  rewrite Heq in Hret |- *. cbn [fst snd] in *. injection Hret as Hret.
  destruct (sweepLoop_error region _ msg Hret)
    as (pre & b & post & e & Hb & Hn & _ & Hr & He & Hm & Hc).
  exists pre, b, post, e. by rewrite Hc.
Qed.

(** X14. The order of the calls of a sweep.  [s3.New] runs on the session
    before the session error is looked at: with a nil session the sweep
    panics on a nil dereference before any call, whatever the error.  With
    a session and a session error it ends in [log.Fatal] before any call.
    With a session and no error the buckets are listed once, first.  Every
    deletion comes directly after the location call for the same bucket,
    and a location is only asked for a listed bucket whose name has one of
    the prefixes. *)
Theorem sweep_call_order (region : string) :
  (∀ p, (sweep region).2 = Panics p ↔ NewSession.1 = None ∧ p = NilDereference)
  ∧ ((sweep region).2 = Fatal ↔ is_Some NewSession.1 ∧ is_Some NewSession.2)
  ∧ (NewSession.1 = None ∨ is_Some NewSession.2 → (sweep region).1 = [])
  ∧ (is_Some NewSession.1 → NewSession.2 = None →
     ∃ rest, (sweep region).1 = CallListBuckets :: rest
             ∧ CallListBuckets ∉ rest)
  ∧ (∀ i bucket,
       (sweep region).1 !! S i = Some (CallDeleteAllS3ObjectVersions bucket) →
       (sweep region).1 !! i = Some (CallGetBucketLocation bucket))
  ∧ (∀ bucket,
       CallGetBucketLocation bucket ∈ (sweep region).1 →
       (∃ p, p ∈ ["mybucket."; "mylogs."; "tf-acc"; "tf-object-test";
                  "tf-test"; "tf-emr-bootstrap"]
             ∧ String.prefix p bucket = true)
       ∧ ∃ b, b ∈ ListBucketsOutput.Buckets ListBuckets.1
              ∧ StringValue (Bucket.Name b) = bucket).
Proof.
  destruct (sweepLoop_calls region (ListBucketsOutput.Buckets ListBuckets.1))
    as ([H0 HS] & Hl & Hg).
  assert (Hno : ¬ @is_Some error None) by (by intros []).
  assert (Hno' : ¬ @is_Some Session.t None) by (by intros []).
  destruct (sweep_short region)
    as [[Hs Heq]|[(c & e & Hs & Heq)|[([c Hs] & _ & Heq)
       |[([c Hs] & _ & e & _ & Heq)|([c Hs] & _ & _ & Heq)]]]];
    rewrite Heq; [|rewrite Hs..]; cbn [fst snd].
  - rewrite Hs. split; [intros p; split; [by intros [= <-]|by intros [_ ->]]|].
    split; [split; [done|by intros [[]%Hno' _]]|]. split; [done|].
    split; [by intros []%Hno'|]. split; [done|]. by intros ? ?%elem_of_nil.
  - split; [intros p; split; [done|by intros [[=] _]]|].
    split; [done|]. split; [done|]. split; [done|]. split; [done|].
    by intros ? ?%elem_of_nil.
  - split; [intros p; split; [done|by intros [[=] _]]|].
    split; [split; [done|by intros [_ []%Hno]]|].
    split; [by intros [[=]|[]%Hno]|].
    split; [intros _ _; exists []; split; [done|by intros ?%elem_of_nil]|].
    split; [by intros [|i]|].
    by intros bucket [[=]|?%elem_of_nil]%elem_of_cons.
  - split; [intros p; split; [done|by intros [[=] _]]|].
    split; [split; [done|by intros [_ []%Hno]]|].
    split; [by intros [[=]|[]%Hno]|].
    split; [intros _ _; exists []; split; [done|by intros ?%elem_of_nil]|].
    split; [by intros [|i]|].
    by intros bucket [[=]|?%elem_of_nil]%elem_of_cons.
  - split; [intros p; split; [done|by intros [[=] _]]|].
    split; [split; [done|by intros [_ []%Hno]]|].
    split; [by intros [[=]|[]%Hno]|].
    split; [intros _ _; by eexists|].
    split.
    + intros [|i] bucket; cbn; [by intros ?%H0|apply HS].
    + intros bucket [[=]|(Hp & Hb)%Hg]%elem_of_cons.
      split; [by apply hasPrefixLoop_true|done].
Qed.

(** X17. A bucket is deleted only if [GetBucketLocation] answered for it
    without error and the region being swept is the bucket's location
    constraint, where a missing answer or a missing constraint counts as
    "nyc3". *)
Theorem sweep_deletes_by_location (region bucket : string) :
  CallDeleteAllS3ObjectVersions bucket
    ∈ (testSweepS3BucketObjects error Error NewSession ListBuckets
         GetBucketLocation isAWSErr deleteAllS3ObjectVersions region).1 →
  ∃ output,
    GetBucketLocation bucket = (output, None)
    ∧ region = match output with
               | Some o =>
                   default "nyc3" (GetBucketLocationOutput.LocationConstraint o)
               | None => "nyc3"
               end.
Proof.
  intros H.
  assert (Hloop : CallDeleteAllS3ObjectVersions bucket
                  ∈ (sweepLoop region (ListBucketsOutput.Buckets ListBuckets.1)).1).
  { destruct (sweep_short region)
      as [[_ Heq]|[(c & e & _ & Heq)|[(_ & _ & Heq)|[(_ & _ & e & _ & Heq)
         |(_ & _ & _ & Heq)]]]];
      rewrite Heq in H; cbn [fst] in H.
    - by apply elem_of_nil in H.
    - by apply elem_of_nil in H.
    - by apply elem_of_cons in H as [[=]|?%elem_of_nil].
    - by apply elem_of_cons in H as [[=]|?%elem_of_nil].
    - by apply elem_of_cons in H as [[=]|?]. }
  apply sweepLoop_delete in Hloop as (_ & _ & Hr).
  unfold testS3BucketRegion in Hr.
  destruct (GetBucketLocation bucket) as [output [e|]]; [done|].
  exists output. split; [done|].
  destruct output as [[[c|]]|]; by injection Hr as <-.
Qed.

End sweeper_runs.

Lemma sweep_nil_deletes_all_in_scope_witness :
  (example_sweep "nyc3").2 = Return None
  ∧ CallDeleteAllS3ObjectVersions "tf-acc-1" ∈ (example_sweep "nyc3").1.
Proof.
  assert (H : (example_sweep "nyc3").2 = Return None) by reflexivity.
  split; [exact H|].
  refine (proj1 (sweep_nil_deletes_all_in_scope string id (Some Session.mk, None) example_buckets
                   example_location (λ _ _ _, false) (λ _, None) "nyc3"
                   (Bucket.mk (Some "tf-acc-1")) "tf-acc" eq_refl H _ _
                   eq_refl eq_refl)).
  - left.
  - do 2 right. left.
Defined.

Lemma sweep_stops_at_first_failure_witness :
  (example_failing_sweep "nyc3").2
  = Return (Some "error listing S3 Bucket (tf-acc-1) Objects: denied")
  ∧ ∃ pre b post,
      ListBucketsOutput.Buckets example_buckets.1 = pre ++ b :: post
      ∧ (example_failing_sweep "nyc3").1
        = CallListBuckets
          :: (sweepLoop string id example_location
                (λ bucket, if String.eqb bucket "tf-acc-1" then Some "denied"
                           else None) "nyc3" pre).1
          ++ [CallGetBucketLocation (StringValue (Bucket.Name b));
              CallDeleteAllS3ObjectVersions (StringValue (Bucket.Name b))].
Proof.
  assert (H : (example_failing_sweep "nyc3").2
              = Return (Some "error listing S3 Bucket (tf-acc-1) Objects: denied"))
    by reflexivity.
  split; [exact H|].
  destruct (sweep_stops_at_first_failure string id (Some Session.mk, None) example_buckets
              example_location (λ _ _ _, false)
              (λ bucket, if String.eqb bucket "tf-acc-1" then Some "denied"
                         else None)
              "nyc3" _ eq_refl H)
    as (pre & b & post & e & Hb & _ & _ & _ & _ & Hc).
  by exists pre, b, post.
Defined.

Lemma sweep_deletes_by_location_witness :
  CallDeleteAllS3ObjectVersions "tf-acc-1" ∈ (example_sweep "nyc3").1
  ∧ ∃ output, example_location "tf-acc-1" = (output, None)
              ∧ "nyc3" = match output with
                         | Some o =>
                             default "nyc3"
                               (GetBucketLocationOutput.LocationConstraint o)
                         | None => "nyc3"
                         end.
Proof.
  assert (H : CallDeleteAllS3ObjectVersions "tf-acc-1" ∈ (example_sweep "nyc3").1).
  { rewrite example_sweep_calls. cbn. do 2 right. left. }
  split; [exact H|].
  exact (sweep_deletes_by_location string id (Some Session.mk, None) example_buckets
           example_location (λ _ _ _, false) (λ _, None) "nyc3" "tf-acc-1" H).
Defined.

(** * Expand after flatten on the static sites and the workers *)

Lemma expand_flatten_items {A} (flat : ptr A → result (gmap string value))
    (exp : value → result (ptr A)) (R : A → A → Prop) (P : A → Prop)
    (l : list A) :
  (∀ s, P s → ∃ m s', flat (Some s) = Ok m ∧ exp (VMap m) = Ok (Some s')
                      ∧ R s s') →
  Forall P l →
  ∃ ms l', mapM flat (Some <$> l) = Ok ms
           ∧ mapM exp (VMap <$> ms) = Ok (Some <$> l')
           ∧ Forall2 R l l'.
Proof.
  intros Hitem. induction 1 as [|s l Hs _ (ms & l' & Hf & He & Hall)].
  - by exists [], [].
  - destruct (Hitem s Hs) as (m & s' & Hm & Hs' & Hsame).
    exists (m :: ms), (s' :: l'). cbn [fmap list_fmap mapM].
    rewrite Hm. cbn [mbind result_bind]. rewrite Hf. cbn [mbind result_bind].
    split; [done|].
    rewrite Hs'. cbn [mbind result_bind]. rewrite He. cbn [mbind result_bind].
    split; [done|]. by constructor.
Qed.

Lemma static_site_routes_block (lr : list AppRouteSpec.t)
    (s0 : AppStaticSiteSpec.t) :
  (if (0 <? length (route_value <$> lr))%nat
   then x ← expandAppRoutes (route_value <$> lr);
        Ok (AppStaticSiteSpec.with_Routes x s0)
   else Ok s0)
  = Ok (match lr with
        | [] => s0
        | _ => AppStaticSiteSpec.with_Routes (Some (Some <$> lr)) s0
        end).
Proof. rewrite expandAppRoutes_values. by destruct lr. Qed.

Ltac site_fields :=
  cbn [AppStaticSiteSpec.GitHub AppStaticSiteSpec.Git AppStaticSiteSpec.Name
       AppStaticSiteSpec.BuildCommand AppStaticSiteSpec.DockerfilePath
       AppStaticSiteSpec.SourceDir AppStaticSiteSpec.OutputDir
       AppStaticSiteSpec.IndexDocument AppStaticSiteSpec.ErrorDocument
       AppStaticSiteSpec.EnvironmentSlug AppStaticSiteSpec.Envs
       AppStaticSiteSpec.Routes AppStaticSiteSpec.with_Routes
       AppStaticSiteSpec.with_GitHub AppStaticSiteSpec.with_Git] in *.

Lemma expandAppSpecStaticSites_item_flattened (s : AppStaticSiteSpec.t) :
  static_site_ok s = true →
  ∃ m s', flattenAppSpecStaticSites_item (Some s) = Ok m
          ∧ expandAppSpecStaticSites_item (VMap m) = Ok (Some s')
          ∧ same_static_site s s'.
Proof.
  intros Hok.
  unfold static_site_ok in Hok. apply andb_true_iff in Hok as [He Hr].
  apply no_nil_elems in He as [le Hle]. apply no_nil_elems in Hr as [lr Hlr].
  destruct (env_add_all_listing le) as (le' & Hle' & Hkept).
  unfold flattenAppSpecStaticSites_item. cbn [deref mbind result_bind].
  rewrite (flattenAppRoutes_ok _ lr Hlr), (flattenAppEnvs_ok _ le Hle).
  cbn [mbind result_bind]. eexists _, _. split; [reflexivity|].
  unfold expandAppSpecStaticSites_item. cbn [as_map mbind result_bind].
  lookups. cbn [as_string as_int as_set as_list mbind result_bind].
  rewrite Hle'. cbn [mbind result_bind].
  rewrite (first_block expandAppGitHubSourceSpec flattenAppGitHubSourceSpec
             AppStaticSiteSpec.with_GitHub);
    [|by intros []|done|done].
  cbn [mbind result_bind].
  rewrite (first_block expandAppGitSourceSpec flattenAppGitSourceSpec
             AppStaticSiteSpec.with_Git);
    [|by intros []|done|done].
  cbn [mbind result_bind].
  rewrite static_site_routes_block. cbn [mbind result_bind].
  split; [reflexivity|].
  unfold same_static_site, same_routes.
  destruct s as [n bc dp envs sd od idoc edoc es gh g routes]. site_fields.
  assert (Hlen : len routes = length lr)
    by (unfold len; by rewrite Hlr, length_fmap).
  destruct gh, g, lr; site_fields; eexists _, _;
    (split; [reflexivity|]);
    (split; [by exists le, le'|]);
    (split; [by rewrite Hlr|by rewrite Hlen]).
Qed.

Ltac worker_fields :=
  cbn [AppWorkerSpec.GitHub AppWorkerSpec.Git AppWorkerSpec.Name
       AppWorkerSpec.RunCommand AppWorkerSpec.BuildCommand
       AppWorkerSpec.DockerfilePath AppWorkerSpec.InstanceSizeSlug
       AppWorkerSpec.InstanceCount AppWorkerSpec.SourceDir
       AppWorkerSpec.EnvironmentSlug AppWorkerSpec.Envs
       AppWorkerSpec.with_GitHub AppWorkerSpec.with_Git] in *.

Lemma expandAppSpecWorkers_item_flattened (w : AppWorkerSpec.t) :
  worker_in_range w →
  ∃ m w', flattenAppSpecWorkers_item (Some w) = Ok m
          ∧ expandAppSpecWorkers_item (VMap m) = Ok (Some w')
          ∧ same_worker w w'.
Proof.
  intros [Hok Hcount].
  unfold worker_ok in Hok. apply no_nil_elems in Hok as [le Hle].
  destruct (env_add_all_listing le) as (le' & Hle' & Hkept).
  unfold flattenAppSpecWorkers_item. cbn [deref mbind result_bind].
  rewrite (flattenAppEnvs_ok _ le Hle).
  cbn [mbind result_bind]. eexists _, _. split; [reflexivity|].
  unfold expandAppSpecWorkers_item. cbn [as_map mbind result_bind].
  lookups. cbn [as_string as_int as_set as_list mbind result_bind].
  rewrite Hle'. cbn [mbind result_bind].
  rewrite !int64_int by done.
  rewrite (first_block expandAppGitHubSourceSpec flattenAppGitHubSourceSpec
             AppWorkerSpec.with_GitHub);
    [|by intros []|done|done].
  cbn [mbind result_bind].
  rewrite (first_block expandAppGitSourceSpec flattenAppGitSourceSpec
             AppWorkerSpec.with_Git);
    [|by intros []|done|done].
  cbn [mbind result_bind].
  split; [reflexivity|].
  unfold same_worker.
  destruct w as [n rc bc dp envs iss ic sd es gh g]. worker_fields.
  destruct gh, g; worker_fields; eexists;
    (split; [reflexivity|]); by exists le, le'.
Qed.

(** X15. Flattening a slice of static sites, or of workers, and expanding
    the maps gives back as many structs with the same fields and the same
    GitHub and Git source.  The environment variables come back through a
    set that keeps one variable per hash code: no duplicates, only
    variables of the struct, for every variable of the struct one with the
    same hash code, and no two with the same hash code.  The routes of a
    static site come back in order, an empty slice as nil.  The slices must
    hold no nil pointer. *)
Theorem expand_flatten_static_sites_workers
    (sites : list AppStaticSiteSpec.t) (workers : list AppWorkerSpec.t) :
  Forall (λ s, static_site_ok s = true) sites →
  Forall worker_in_range workers →
  (∃ ms l', flattenAppSpecStaticSites (Some (Some <$> sites)) = Ok ms
            ∧ expandAppSpecStaticSites (VMap <$> ms) = Ok (Some (Some <$> l'))
            ∧ Forall2 same_static_site sites l')
  ∧ (∃ ms l', flattenAppSpecWorkers (Some (Some <$> workers)) = Ok ms
              ∧ expandAppSpecWorkers (VMap <$> ms) = Ok (Some (Some <$> l'))
              ∧ Forall2 same_worker workers l').
Proof.
  intros Hs Hw. split.
  - destruct (expand_flatten_items _ _ _ _ sites
                expandAppSpecStaticSites_item_flattened Hs)
      as (ms & l' & Hf & He & Hall).
    exists ms, l'. split; [|split; [|done]].
    + by apply (flatten_loop flattenAppSpecStaticSites_item
                  (Some (Some <$> sites))).
    + unfold expandAppSpecStaticSites. by rewrite He.
  - destruct (expand_flatten_items _ _ _ _ workers
                expandAppSpecWorkers_item_flattened Hw)
      as (ms & l' & Hf & He & Hall).
    exists ms, l'. split; [|split; [|done]].
    + by apply (flatten_loop flattenAppSpecWorkers_item
                  (Some (Some <$> workers))).
    + unfold expandAppSpecWorkers. by rewrite He.
Qed.

Lemma expand_flatten_static_sites_workers_witness :
  (∃ ms l', flattenAppSpecStaticSites (Some (Some <$> [example_static_site]))
            = Ok ms
            ∧ expandAppSpecStaticSites (VMap <$> ms) = Ok (Some (Some <$> l'))
            ∧ Forall2 same_static_site [example_static_site] l')
  ∧ (∃ ms l', flattenAppSpecWorkers (Some (Some <$> [example_worker])) = Ok ms
              ∧ expandAppSpecWorkers (VMap <$> ms) = Ok (Some (Some <$> l'))
              ∧ Forall2 same_worker [example_worker] l').
Proof.
  apply expand_flatten_static_sites_workers.
  - apply Forall_cons_2; [|by apply Forall_nil_2]. vm_compute. reflexivity.
  - apply Forall_cons_2; [|by apply Forall_nil_2].
    split; [vm_compute; reflexivity|]. unfold in_int64; cbn; lia.
Defined.

(** * The keys flatten writes and the keys the schemas declare *)

Lemma mapM_Forall2 {A B} (f : A → result B) (l : list A) (r : list B) :
  mapM f l = Ok r → Forall2 (λ x y, f x = Ok y) l r.
Proof.
  revert r. induction l as [|x l IH]; intros r; cbn.
  - intros [= <-]. constructor.
  - intros (y & Hy & H)%bind_Ok. apply bind_Ok in H as (ys & Hys & [= <-]).
    constructor; [done|by apply IH].
Qed.

Lemma flatten_loop_Forall {A} (item : ptr A → result (gmap string value))
    (P : gmap string value → Prop) (s : slice (ptr A))
    (r : list (gmap string value)) :
  (∀ p m, item p = Ok m → P m) →
  foldM_from (λ result i x, y ← item x; Ok (<[i:=y]> result)) 0%nat (elems s)
    (replicate (len s) ∅) = Ok r →
  Forall P r.
Proof.
  intros Hitem H%flatten_loop_inv%mapM_Forall2.
  induction H as [|p m ps ms Hm _ IH]; constructor; [by eapply Hitem|done].
Qed.

Ltac keys := apply (bool_decide_unpack _); vm_compute; reflexivity.

Lemma flattenAppSpecServices_item_keys p m :
  flattenAppSpecServices_item p = Ok m →
  dom m = dom (Schema_ appSpecServicesSchema).
Proof.
  destruct p as [s|]; [|done]. unfold flattenAppSpecServices_item.
  cbn [deref mbind result_bind]. intros (routes & _ & H)%bind_Ok.
  apply bind_Ok in H as (envs & _ & [= <-]). keys.
Qed.

Lemma flattenAppSpecStaticSites_item_keys p m :
  flattenAppSpecStaticSites_item p = Ok m →
  dom m = dom (Schema_ appSpecStaticSiteSchema).
Proof.
  destruct p as [s|]; [|done]. unfold flattenAppSpecStaticSites_item.
  cbn [deref mbind result_bind]. intros (routes & _ & H)%bind_Ok.
  apply bind_Ok in H as (envs & _ & [= <-]). keys.
Qed.

Lemma flattenAppSpecWorkers_item_keys p m :
  flattenAppSpecWorkers_item p = Ok m →
  dom m = dom (Schema_ appSpecWorkerSchema) ∖ {["routes"]}.
Proof.
  destruct p as [s|]; [|done]. unfold flattenAppSpecWorkers_item.
  cbn [deref mbind result_bind]. intros (envs & _ & [= <-])%bind_Ok. keys.
Qed.

Lemma flattenAppSpecDatabases_item_keys p m :
  flattenAppSpecDatabases_item p = Ok m →
  dom m = dom (Schema_ appSpecDatabaseSchema).
Proof.
  destruct p as [s|]; [|done]. unfold flattenAppSpecDatabases_item.
  cbn [deref mbind result_bind]. intros [= <-]. keys.
Qed.

(** X16. Every map the component flatteners return has exactly the keys
    the component's schema declares, with one exception: the maps of
    [flattenAppSpecWorkers] lack "routes", which the worker schema declares
    (it comes with the shared base).  The map of [flattenAppSpec] has
    "name", "region" and "domains" and otherwise only keys of
    [appSpecSchema]. *)
Theorem flatten_keys_match_schema :
  (∀ x r, flattenAppSpecServices x = Ok r →
          Forall (λ m, dom m = dom (Schema_ appSpecServicesSchema)) r)
  ∧ (∀ x r, flattenAppSpecStaticSites x = Ok r →
            Forall (λ m, dom m = dom (Schema_ appSpecStaticSiteSchema)) r)
  ∧ (∀ x r, flattenAppSpecWorkers x = Ok r →
            Forall (λ m, dom m = dom (Schema_ appSpecWorkerSchema) ∖ {["routes"]}) r)
  ∧ "routes" ∈ dom (Schema_ appSpecWorkerSchema)
  ∧ (∀ x r, flattenAppSpecDatabases x = Ok r →
            Forall (λ m, dom m = dom (Schema_ appSpecDatabaseSchema)) r)
  ∧ (∀ x r, flattenAppSpec x = Ok r →
            Forall (λ m, {["name"; "region"; "domains"]} ⊆ dom m
                         ∧ dom m ⊆ dom appSpecSchema) r).
Proof.
  split; [|split; [|split; [|split; [|split]]]].
  - intros x r. apply flatten_loop_Forall, flattenAppSpecServices_item_keys.
  - intros x r. apply flatten_loop_Forall, flattenAppSpecStaticSites_item_keys.
  - intros x r. apply flatten_loop_Forall, flattenAppSpecWorkers_item_keys.
  - keys.
  - intros x r. apply flatten_loop_Forall, flattenAppSpecDatabases_item_keys.
  - intros [s|] r; [|by intros [= <-]].
    unfold flattenAppSpec. cbv zeta. intros H.
    apply bind_Ok in H as (d & Hd & H).
    apply bind_Ok in H as (r1 & H1 & H).
    apply bind_Ok in H as (r2 & H2 & H).
    apply bind_Ok in H as (r3 & H3 & H).
    apply bind_Ok in H as (r4 & H4 & H).
    injection H as <-.
    apply flatten_component_keys in H1 as [N1 _].
    apply flatten_component_keys in H2 as [N2 _].
    apply flatten_component_keys in H3 as [N3 _].
    apply flatten_component_keys in H4 as [N4 _].
    apply Forall_cons_2; [|by apply Forall_nil_2]. split.
    + intros k Hk. apply elem_of_dom.
      assert (Hin : k = "name" ∨ k = "region" ∨ k = "domains") by set_solver.
      destruct Hin as [-> | [-> | ->]]; rewrite N4, N3, N2, N1 by done; by eexists.
    + intros k [v Hk]%elem_of_dom.
      destruct (decide (k = "database")) as [->|?]; [keys|].
      destruct (decide (k = "worker")) as [->|?]; [keys|].
      destruct (decide (k = "static_site")) as [->|?]; [keys|].
      destruct (decide (k = "service")) as [->|?]; [keys|].
      rewrite N4, N3, N2, N1 in Hk by done.
      destruct (decide (k = "domains")) as [->|?]; [keys|].
      destruct (decide (k = "region")) as [->|?]; [keys|].
      destruct (decide (k = "name")) as [->|?]; [keys|].
      by rewrite !lookup_insert_ne in Hk by done.
Qed.

(** * The checks of the acceptance tests *)

(** ** The order of strings *)

Lemma ascii_compare_Lt_trans a b c :
  Ascii.compare a b = Lt → Ascii.compare b c = Lt → Ascii.compare a c = Lt.
Proof.
  unfold Ascii.compare. rewrite !N.compare_lt_iff. lia.
Qed.

Lemma string_compare_Lt_trans s1 s2 s3 :
  String.compare s1 s2 = Lt → String.compare s2 s3 = Lt →
  String.compare s1 s3 = Lt.
Proof.
  revert s2 s3. induction s1 as [|a s1 IH]; intros [|b s2] [|c s3]; cbn;
    try done.
  destruct (Ascii.compare a b) eqn:Hab; [|clear IH|done];
    destruct (Ascii.compare b c) eqn:Hbc; try done.
  - apply Ascii.compare_eq_iff in Hab as ->. rewrite Hbc. apply IH.
  - apply Ascii.compare_eq_iff in Hab as ->. by rewrite Hbc.
  - apply Ascii.compare_eq_iff in Hbc as <-. by rewrite Hab.
  - by rewrite (ascii_compare_Lt_trans a b c).
Qed.

Lemma string_compare_refl s : String.compare s s = Eq.
Proof.
  induction s as [|a s IH]; cbn; [done|].
  unfold Ascii.compare. by rewrite N.compare_refl.
Qed.

#[global] Instance string_le_trans : Transitive string_le.
Proof.
  intros s1 s2 s3. unfold string_le, String.leb.
  destruct (String.compare s1 s2) eqn:H12; [| |done].
  - apply String.compare_eq_iff in H12 as ->. done.
  - destruct (String.compare s2 s3) eqn:H23; [| |done]; intros _ _.
    + apply String.compare_eq_iff in H23 as <-. by rewrite H12.
    + by rewrite (string_compare_Lt_trans s1 s2 s3).
Qed.

#[global] Instance string_le_total : Total string_le.
Proof. intros s1 s2. apply String.leb_total. Qed.

#[global] Instance string_le_antisym : AntiSymm (=) string_le.
Proof. intros s1 s2. apply String.leb_antisym. Qed.

(** Sorting forgets the order of the input. *)
Lemma merge_sort_strings_perm (l1 l2 : list string) :
  l1 ≡ₚ l2 → merge_sort string_le l1 = merge_sort string_le l2.
Proof.
  intros Hp. apply (Sorted_unique string_le).
  - apply Sorted_merge_sort, _.
  - apply Sorted_merge_sort, _.
  - by rewrite !merge_sort_Permutation.
Qed.

Lemma merge_sort_strings_sorted (l : list string) :
  Sorted string_le l → merge_sort string_le l = l.
Proof.
  intros Hl. apply (Sorted_unique string_le).
  - apply Sorted_merge_sort, _.
  - done.
  - apply merge_sort_Permutation.
Qed.

(** ** The version checks *)

Section version_checks.
Context (error : Type) (String_ : ptr GetObjectOutput.t → string).

Notation differs :=
  (testAccCheckAWSS3BucketObjectVersionIdDiffers error String_).
Notation equals :=
  (testAccCheckAWSS3BucketObjectVersionIdEquals error String_).


End version_checks.

(** ** The ACL check *)

Lemma collect_permissions (grants : list (ptr Grant.t)) (acc : slice string) :
  foldM (λ (perms : slice string) v,
           v ← deref v;
           p ← deref (Grant.Permission v);
           Ok (Some (elems perms ++ [p]))) grants acc
  = match permissions grants with
    | Some [] => Ok acc
    | Some ps => Ok (Some (elems acc ++ ps))
    | None => Panic NilDereference
    end.
Proof.
  revert acc. induction grants as [|[[[p|]]|] grants IH]; intros acc; cbn;
    try done.
  rewrite IH. destruct (permissions grants) as [[|q ps]|]; cbn; [|  |done].
  - done.
  - by rewrite <- app_assoc.
Qed.

Lemma permissions_perm (g1 g2 : list (ptr Grant.t)) :
  g1 ≡ₚ g2 →
  match permissions g1, permissions g2 with
  | Some a, Some b => a ≡ₚ b
  | None, None => True
  | _, _ => False
  end.
Proof.
  induction 1 as [|g l1 l2 _ IH|g g' l|l1 l2 l3 _ IH1 _ IH2]; cbn.
  - done.
  - destruct g as [[[p|]]|]; destruct (permissions l1), (permissions l2);
      try done. by constructor.
  - destruct g as [[[p|]]|], g' as [[[p'|]]|], (permissions l); try done.
    apply perm_swap.
  - destruct (permissions l1), (permissions l2), (permissions l3); try done.
    by etrans.
Qed.

Lemma sorted_permissions_perm (a b : list string) :
  a ≡ₚ b →
  sort_Strings (match a with [] => None | _ => Some (elems None ++ a) end)
  = sort_Strings (match b with [] => None | _ => Some (elems None ++ b) end).
Proof.
  intros Hp. destruct a as [|x a], b as [|y b].
  - done.
  - by apply Permutation_nil_cons in Hp.
  - symmetry in Hp. by apply Permutation_nil_cons in Hp.
  - unfold sort_Strings. cbn [elems default app fmap option_fmap option_map].
    f_equal. by apply merge_sort_strings_perm.
Qed.

(** X19. The ACL check does not depend on the order in which the endpoint
    lists the grants: against two endpoints whose answers have the same
    grants in a different order it returns the same result, error text
    included. *)
Theorem acl_check_grant_order (error : Type) (Error : error → string)
    (spacesClient : string → option error)
    (acl acl' : string → string → ptr GetObjectAclOutput.t * option error)
    (n : string) (expectedPerms : slice string)
    (Resources : gmap string (ptr ResourceState.t)) :
  (∀ bucket key, same_grants (acl bucket key) (acl' bucket key)) →
  testAccCheckAWSS3BucketObjectAcl error Error spacesClient acl n
    expectedPerms Resources
  = testAccCheckAWSS3BucketObjectAcl error Error spacesClient acl' n
      expectedPerms Resources.
Proof.
  intros Hsame. unfold testAccCheckAWSS3BucketObjectAcl.
  destruct (testAccGetS3Conn error spacesClient); [done|].
  destruct (resource Resources n) as [[ty [primary|]]|]; cbn; try done.
  specialize (Hsame (attribute (InstanceState.Attributes primary) "bucket")
                (attribute (InstanceState.Attributes primary) "key")).
  destruct (acl _ _) as [out err], (acl' _ _) as [out' err'].
  destruct Hsame as [Herr Hout]. cbn in Herr, Hout. subst err'.
  destruct err; [done|].
  destruct out as [out|], out' as [out'|]; try done. cbn.
  rewrite !collect_permissions.
  pose proof (permissions_perm _ _ Hout) as Hp.
  destruct (permissions (GetObjectAclOutput.Grants out)) as [a|],
    (permissions (GetObjectAclOutput.Grants out')) as [b|]; try done.
  pose proof (sorted_permissions_perm a b Hp) as Hs.
  destruct a as [|x a], b as [|y b];
    try (by apply Permutation_nil_cons in Hp);
    try (symmetry in Hp; by apply Permutation_nil_cons in Hp);
    [done|].
  cbn [mbind result_bind]. by rewrite Hs.
Qed.

Lemma permissions_Some grants ps :
  permissions grants = Some ps →
  grants = (λ p, Some (Grant.mk (Some p))) <$> ps.
Proof.
  revert ps. induction grants as [|[[[p|]]|] grants IH]; intros ps; cbn;
    try done.
  - by intros [= <-].
  - destruct (permissions grants) as [qs|]; [|done].
    intros [= <-]. cbn. f_equal. by apply IH.
Qed.

Section checks_facts.
Context (error : Type) (Error : error → string).
Context (spacesClient : string → option error).
Context (HeadObject : HeadObjectInput.t → ptr HeadObjectOutput.t * option error).
Context (GetObject : string → string → string → ptr GetObjectOutput.t * option error).
Context (GetObjectAcl : string → string → ptr GetObjectAclOutput.t * option error).

Notation acl_check :=
  (testAccCheckAWSS3BucketObjectAcl error Error spacesClient GetObjectAcl).
Notation class_check :=
  (testAccCheckAWSS3BucketObjectStorageClass error Error spacesClient HeadObject).
Notation exists_check :=
  (testAccCheckAWSS3BucketObjectExists error Error spacesClient GetObject).
Notation destroy_check :=
  (testAccCheckAWSS3BucketObjectDestroy error spacesClient HeadObject).
Notation conn := (testAccGetS3Conn error spacesClient).

(** X20. When the ACL check passes, the resource is in the state, the
    endpoint answered, and the expected permissions are the permissions of
    the grants in increasing order.  So a list that is not sorted never
    passes, and for an object without grants only the nil slice passes, not
    an empty one. *)
Theorem acl_check_passes (n : string) (expectedPerms : slice string)
    (Resources : gmap string (ptr ResourceState.t)) :
  acl_check n expectedPerms Resources = Ok None →
  ∃ rs primary out ps,
    Resources !! n = Some (Some rs)
    ∧ ResourceState.Primary rs = Some primary
    ∧ GetObjectAcl (attribute (InstanceState.Attributes primary) "bucket")
        (attribute (InstanceState.Attributes primary) "key")
      = (Some out, None)
    ∧ GetObjectAclOutput.Grants out = (λ p, Some (Grant.mk (Some p))) <$> ps
    ∧ match expectedPerms with
      | None => ps = []
      | Some l => ps ≠ [] ∧ Sorted string_le l ∧ l ≡ₚ ps
      end.
Proof.
  unfold testAccCheckAWSS3BucketObjectAcl, resource.
  destruct conn; [done|].
  destruct (Resources !! n) as [[[ty [primary|]]|]|] eqn:Hn; cbn; try done.
  destruct (GetObjectAcl _ _) as [out [err|]] eqn:Hacl; [done|].
  destruct out as [out|]; [|done]. cbn.
  rewrite collect_permissions.
  destruct (permissions (GetObjectAclOutput.Grants out)) as [ps|] eqn:Hps;
    [|done].
  apply permissions_Some in Hps.
  intros H. eexists _, primary, out, ps.
  split; [done|]. split; [done|]. split; [done|]. split; [done|].
  destruct ps as [|p ps]; cbn [mbind result_bind] in H.
  - destruct expectedPerms; [done|done].
  - unfold sort_Strings in H. cbn [elems default app fmap option_fmap option_map] in H.
    destruct expectedPerms as [l|]; [|done]. cbn [DeepEqual] in H.
    destruct (bool_decide _) eqn:Hl; [|done].
    apply bool_decide_eq_true in Hl as <-.
    split; [done|]. split; [apply Sorted_merge_sort, _|].
    apply merge_sort_Permutation.
Qed.

(** X21. For a resource name that is not in the state, the "exists" check
    returns the error "Not Found" without contacting the endpoint.  The ACL
    check and the storage-class check do not test for it: once the
    connection is there they panic on the nil resource. *)
Theorem checks_on_missing_resource (n : string)
    (Resources : gmap string (ptr ResourceState.t))
    (obj : ptr GetObjectOutput.t) (expectedPerms : slice string)
    (expectedClass : string) :
  Resources !! n = None →
  exists_check n obj Resources = Ok (obj, Some (Errorf ("Not Found: " +:+ n)))
  ∧ acl_check n expectedPerms Resources
    = match conn with
      | Some err => Ok (Some (Returned err))
      | None => Panic NilDereference
      end
  ∧ class_check n expectedClass Resources
    = match conn with
      | Some err => Ok (Some (Returned err))
      | None => Panic NilDereference
      end.
Proof.
  intros Hn.
  assert (Hrs : resource Resources n = None)
    by exact (f_equal (default None) Hn).
  unfold testAccCheckAWSS3BucketObjectExists, testAccCheckAWSS3BucketObjectAcl,
    testAccCheckAWSS3BucketObjectStorageClass.
  rewrite Hn, Hrs. unfold testAccGetS3Conn. cbn.
  by destruct (spacesClient "nyc3").
Qed.

Lemma destroyLoop_passes resources :
  destroyLoop error HeadObject resources = Ok None
  ↔ Forall (destroyed HeadObject) resources.
Proof.
  induction resources as [|p resources IH]; cbn.
  { split; [constructor|done]. }
  rewrite Forall_cons, <- IH. unfold destroyed.
  destruct p as [rs|]; cbn.
  2:{ split; [done|]. by intros [(? & ? & _) _]. }
  destruct (String.eqb (ResourceState.Type_ rs) _) eqn:Hty; cbn.
  - apply String.eqb_eq in Hty.
    destruct (ResourceState.Primary rs) as [primary|] eqn:Hp; cbn.
    + destruct (HeadObject _) as [out [err|]] eqn:Hhead.
      * split; [|by intros [_ ?]].
        intros H. split; [|done]. exists rs. split; [done|].
        intros _. exists primary. split; [done|]. by rewrite Hhead.
      * split; [done|].
        intros [(rs' & [= <-] & Hrs) _].
        destruct (Hrs Hty) as (primary' & Hp' & Hsome).
        rewrite Hp in Hp'. injection Hp' as <-. rewrite Hhead in Hsome.
        by destruct Hsome.
    + split; [done|].
      intros [(rs' & [= <-] & Hrs) _].
      destruct (Hrs Hty) as (primary' & Hp' & _). congruence.
  - apply String.eqb_neq in Hty. split; [|by intros [_ ?]].
    intros H. split; [|done]. exists rs. split; [done|]. done.
Qed.

(** X22. The destroy check passes exactly when the connection is there and,
    for every bucket object of the state, [HeadObject] fails.  Go ranges
    over the resources of the state in no fixed order; whether the check
    passes does not depend on that order. *)
Theorem destroy_check_order (resources resources' : list (ptr ResourceState.t)) :
  (destroy_check resources = Ok None
   ↔ conn = None ∧ Forall (destroyed HeadObject) resources)
  ∧ (resources ≡ₚ resources' →
     (destroy_check resources = Ok None ↔ destroy_check resources' = Ok None)).
Proof.
  assert (Hpass : ∀ l, destroy_check l = Ok None
                       ↔ conn = None ∧ Forall (destroyed HeadObject) l).
  { intros l. unfold testAccCheckAWSS3BucketObjectDestroy.
    destruct conn.
    - split; [done|by intros [? _]].
    - rewrite destroyLoop_passes. split; [done|by intros [_ ?]]. }
  split; [apply Hpass|].
  intros Hp. rewrite !Hpass. by rewrite Hp.
Qed.

End checks_facts.

Lemma acl_check_grant_order_witness :
  testAccCheckAWSS3BucketObjectAcl string id (λ _, None)
    (example_acl ["WRITE"; "READ"])
    "digitalocean_spaces_bucket_object.object" (Some ["READ"; "WRITE"])
    example_state
  = testAccCheckAWSS3BucketObjectAcl string id (λ _, None)
      (example_acl ["READ"; "WRITE"])
      "digitalocean_spaces_bucket_object.object" (Some ["READ"; "WRITE"])
      example_state.
Proof.
  apply acl_check_grant_order. intros bucket key.
  split; [reflexivity|]. apply perm_swap.
Defined.

Lemma acl_check_passes_witness :
  testAccCheckAWSS3BucketObjectAcl string id (λ _, None)
    (example_acl ["WRITE"; "READ"])
    "digitalocean_spaces_bucket_object.object" (Some ["READ"; "WRITE"])
    example_state = Ok None
  ∧ Sorted string_le ["READ"; "WRITE"].
Proof.
  assert (H : testAccCheckAWSS3BucketObjectAcl string id (λ _, None)
                (example_acl ["WRITE"; "READ"])
                "digitalocean_spaces_bucket_object.object"
                (Some ["READ"; "WRITE"]) example_state = Ok None)
    by (vm_compute; reflexivity).
  split; [exact H|].
  destruct (acl_check_passes _ _ _ _ _ _ _ H)
    as (rs & primary & out & ps & _ & _ & _ & _ & _ & Hsorted & _).
  exact Hsorted.
Defined.

Lemma checks_on_missing_resource_witness :
  example_state !! "digitalocean_spaces_bucket_object.other" = None
  ∧ testAccCheckAWSS3BucketObjectAcl string id (λ _, None)
      (example_acl ["READ"]) "digitalocean_spaces_bucket_object.other" None
      example_state
    = Panic NilDereference.
Proof.
  assert (H : example_state !! "digitalocean_spaces_bucket_object.other" = None)
    by (vm_compute; reflexivity).
  split; [exact H|].
  exact (proj1 (proj2 (checks_on_missing_resource string id (λ _, None)
                         (λ _, (None, None)) (λ _ _ _, (None, None))
                         (example_acl ["READ"]) _ _ None None "" H))).
Defined.

(** * Nil and empty inputs *)

(** A spec that is not nil and lists one service, the nil pointer:
    [flattenAppSpec] returns no list, it panics in the loop over the
    services. *)
Lemma flatten_nil_service_panics :
  flattenAppSpec (Some (AppSpec.mk "" "" None (Some [None]) None None None))
  = Panic NilDereference.
Proof. reflexivity. Qed.

(** C8. [expandAppSpec] returns the zero [AppSpec] for an empty
    configuration list and for one whose first element is nil.
    [flattenAppSpec] returns the empty list for the nil pointer; for a spec
    it returns a list of exactly one map when no slice of the spec holds a
    nil pointer and panics with a nil dereference when one does, so that
    whatever it returns for a spec has length one.  The flatten functions
    of the GitHub source, the Git source and the health check return the
    empty list for nil and one element otherwise. *)
Theorem nil_and_empty_inputs (s : AppSpec.t) :
  (expandAppSpec [] = Ok (Some AppSpec.zero)
   ∧ ∀ rest, expandAppSpec (VNil :: rest) = Ok (Some AppSpec.zero))
  ∧ (flattenAppSpec None = Ok []
     ∧ (app_spec_ok s = true → ∃ m, flattenAppSpec (Some s) = Ok [m])
     ∧ (app_spec_ok s = false → flattenAppSpec (Some s) = Panic NilDereference)
     ∧ ∀ r, flattenAppSpec (Some s) = Ok r → length r = 1%nat)
  ∧ (flattenAppGitHubSourceSpec None = []
     ∧ ∀ x, ∃ v, flattenAppGitHubSourceSpec (Some x) = [v])
  ∧ (flattenAppGitSourceSpec None = []
     ∧ ∀ x, ∃ v, flattenAppGitSourceSpec (Some x) = [v])
  ∧ (flattenAppHealthCheck None = []
     ∧ ∀ x, ∃ v, flattenAppHealthCheck (Some x) = [v]).
Proof.
  split; [by split|]. split.
  { split; [done|]. split; [apply flattenAppSpec_ok|].
    split; [|apply flattenAppSpec_length].
    intros Hno. pose proof (is_ok_flattenAppSpec s) as Hok.
    rewrite Hno in Hok.
    destruct (flattenAppSpec (Some s)) as [r|p] eqn:E; [done|].
    by rewrite (flatten_app_spec_panics (Some s) p). }
  split; [split; [done|intros x; by eexists]|].
  split; [split; [done|intros x; by eexists]|].
  split; [done|intros x; by eexists].
Qed.
